(** * A shallow embedding of the chess rules engine [chessV5_GUI.cpp]

    The engine is one C++ class, [ChessGame].  Its member functions are
    translated below one by one, under their own names:

    - the board is the array [Piece board[8][8]], a list of rows here;
    - [int] values are integers [Z] (the counters of the engine never come
      near the limits of a machine [int]);
    - member functions that only read the object take the fields they read
      as arguments; those that write it return the new value;
    - a computation that has no defined result in C++ (the king square that
      [findKing] leaves unset when there is no king, a loop that would not
      stop) is [None] in the [option] monad. *)

From Stdlib Require Import ZArith Lia String Ascii.
From stdpp Require Import base decidable option list gmap strings.

Open Scope Z_scope.

(** ** Enumerations, pieces and moves *)

Inductive PieceType := EMPTY | PAWN | KNIGHT | BISHOP | ROOK | QUEEN | KING.
Inductive Color := NONE | WHITE | BLACK.

#[global] Instance PieceType_eq_dec : EqDecision PieceType.
Proof. solve_decision. Defined.
#[global] Instance Color_eq_dec : EqDecision Color.
Proof. solve_decision. Defined.

(** The integer value of an enumerator, as C++ numbers them. *)
Definition typeCode (t : PieceType) : Z :=
  match t with
  | EMPTY => 0 | PAWN => 1 | KNIGHT => 2 | BISHOP => 3
  | ROOK => 4 | QUEEN => 5 | KING => 6
  end.

Definition colorCode (c : Color) : Z :=
  match c with NONE => 0 | WHITE => 1 | BLACK => 2 end.

Record Piece := mkPiece { type : PieceType; color : Color; hasMoved : bool }.

#[global] Instance Piece_eq_dec : EqDecision Piece.
Proof. solve_decision. Defined.

(** [Piece()] and [Piece(t, c)]. *)
Definition noPiece : Piece := mkPiece EMPTY NONE false.
Definition newPiece (t : PieceType) (c : Color) : Piece := mkPiece t c false.

#[global] Instance Piece_inhabited : Inhabited Piece := populate noPiece.

Record Move := mkMove {
  fromRow : Z; fromCol : Z; toRow : Z; toCol : Z;
  promotion : PieceType;
  isEnPassant : bool; isCastling : bool
}.

#[global] Instance Move_eq_dec : EqDecision Move.
Proof. solve_decision. Defined.

(** ** The board *)

Abbreviation Board := (list (list Piece)).

Definition opponent (c : Color) : Color :=
  if bool_decide (c = WHITE) then BLACK else WHITE.

Definition isValid (r c : Z) : bool :=
  (0 <=? r) && (r <? 8) && (0 <=? c) && (c <? 8).

(** [board[r][c]] as an rvalue.  The source indexes the array only inside
    its bounds on every path that starts at [play]; outside them the model
    reads an empty square. *)
Definition sq (board : Board) (r c : Z) : Piece :=
  if isValid r c
  then default noPiece (board !! Z.to_nat r ≫= (.!! Z.to_nat c))
  else noPiece.

(** [board[r][c] = p]. *)
Definition put (board : Board) (r c : Z) (p : Piece) : Board :=
  if isValid r c
  then alter (<[Z.to_nat c := p]>) (Z.to_nat r) board
  else board.

(** A board with eight rows of eight squares. *)
Definition wfBoard (board : Board) : Prop :=
  length board = 8%nat ∧ Forall (λ row, length row = 8%nat) board.

(** The squares in the order of the nested loops
    [for (r = 0; r < 8; r++) for (c = 0; c < 8; c++)]. *)
Definition allSquares : list (Z * Z) :=
  r ← seqZ 0 8; c ← seqZ 0 8; [(r, c)].

(** [setupBoard]. *)
Definition back : list PieceType :=
  [ROOK; KNIGHT; BISHOP; QUEEN; KING; BISHOP; KNIGHT; ROOK].

Definition setupBoard : Board :=
  [ (λ t, newPiece t BLACK) <$> back;
    replicate 8 (newPiece PAWN BLACK);
    replicate 8 noPiece; replicate 8 noPiece;
    replicate 8 noPiece; replicate 8 noPiece;
    replicate 8 (newPiece PAWN WHITE);
    (λ t, newPiece t WHITE) <$> back ].

(** [findKing]: the first square, in loop order, holding the king of color
    [c]; [None] when the loops end without writing [kr] and [kc]. *)
Fixpoint findKingIn (board : Board) (c : Color) (sqs : list (Z * Z))
  : option (Z * Z) :=
  match sqs with
  | [] => None
  | (r, c2) :: rest =>
      if bool_decide (type (sq board r c2) = KING)
         && bool_decide (color (sq board r c2) = c)
      then Some (r, c2)
      else findKingIn board c rest
  end.

Definition findKing (board : Board) (c : Color) : option (Z * Z) :=
  findKingIn board c allSquares.

(** ** Movement rules and attack detection

    [canPieceMoveTo] and [isSquareAttacked] call each other.  Each body is
    written against the other function, passed as an argument; the two are
    tied together by recursion on a bound [n] on the nesting depth of
    [canPieceMoveTo] activations.  [None] means that the bound was reached
    or that a loop did not stop within its variant. *)

(** [(x > 0) - (x < 0)]. *)
Definition sign (x : Z) : Z :=
  (if 0 <? x then 1 else 0) - (if x <? 0 then 1 else 0).

(** The loop of the sliding pieces:
    [for (r = fr+sr, c = fc+sc; r != tr || c != tc; r += sr, c += sc)
       if (board[r][c].type != EMPTY) return false;]
    [Some true] when the loop ends without returning. *)
Fixpoint slide (fuel : nat) (board : Board) (r c sr sc tr tc : Z)
  : option bool :=
  if negb (r =? tr) || negb (c =? tc) then
    match fuel with
    | O => None
    | S fuel' =>
        if negb (bool_decide (type (sq board r c) = EMPTY)) then Some false
        else slide fuel' board (r + sr) (c + sc) sr sc tr tc
    end
  else Some true.

(** The loop of castling:
    [for (c = fc+step; c != rookCol; c += step)
       if (board[fr][c].type != EMPTY) return false;] *)
Fixpoint castleGap (fuel : nat) (board : Board) (fr c step rookCol : Z)
  : option bool :=
  if negb (c =? rookCol) then
    match fuel with
    | O => None
    | S fuel' =>
        if negb (bool_decide (type (sq board fr c) = EMPTY)) then Some false
        else castleGap fuel' board fr (c + step) step rookCol
    end
  else Some true.

Definition canPieceMoveTo_body
    (isSquareAttacked : Z → Z → Color → option bool)
    (board : Board) (enPassantCol : Z)
    (fr fc tr tc : Z) (ignoreCheck : bool) : option bool :=
  let p := sq board fr fc in
  if bool_decide (type p = EMPTY)
     || bool_decide (color (sq board tr tc) = color p)
  then Some false
  else
    let dr := tr - fr in
    let dc := tc - fc in
    match type p with
    | PAWN =>
        let dir := if bool_decide (color p = WHITE) then -1 else 1 in
        if (dc =? 0) && (dr =? dir)
           && bool_decide (type (sq board tr tc) = EMPTY)
        then Some true
        else if (dc =? 0) && (dr =? 2 * dir) && negb (hasMoved p)
                && bool_decide (type (sq board (fr + dir) fc) = EMPTY)
                && bool_decide (type (sq board tr tc) = EMPTY)
        then Some true
        else if (Z.abs dc =? 1) && (dr =? dir) then
          if negb (bool_decide (type (sq board tr tc) = EMPTY))
          then Some true
          else if (tc =? enPassantCol)
                  && (tr =? (if bool_decide (color p = WHITE) then 2 else 5))
          then Some true
          else Some false
        else Some false
    | KNIGHT =>
        Some ((Z.abs dr =? 2) && (Z.abs dc =? 1)
              || (Z.abs dr =? 1) && (Z.abs dc =? 2))
    | KING =>
        if (Z.abs dr <=? 1) && (Z.abs dc <=? 1) then Some true
        else if negb ignoreCheck && (dr =? 0) && (Z.abs dc =? 2)
                && negb (hasMoved p)
        then
          let rookCol := if 0 <? dc then 7 else 0 in
          let step := if 0 <? dc then 1 else -1 in
          if bool_decide (type (sq board fr rookCol) = ROOK)
             && negb (hasMoved (sq board fr rookCol))
          then
            clear ← castleGap (Z.to_nat (Z.abs (rookCol - fc)))
                      board fr (fc + step) step rookCol;
            if negb clear then Some false
            else
              a1 ← isSquareAttacked fr fc (opponent (color p));
              if (a1 : bool) then Some false
              else
                a2 ← isSquareAttacked fr (fc + step) (opponent (color p));
                if (a2 : bool) then Some false
                else
                  a3 ← isSquareAttacked tr tc (opponent (color p));
                  Some (negb a3)
          else Some false
        else Some false
    | _ =>
        let diag := Z.abs dr =? Z.abs dc in
        let straight := (dr =? 0) || (dc =? 0) in
        if bool_decide (type p = BISHOP) && negb diag then Some false
        else if bool_decide (type p = ROOK) && negb straight then Some false
        else if bool_decide (type p = QUEEN) && negb (diag || straight)
        then Some false
        else
          let sr := sign dr in
          let sc := sign dc in
          slide (Z.to_nat (Z.max (Z.abs dr) (Z.abs dc)))
                board (fr + sr) (fc + sc) sr sc tr tc
    end.

(** The loops of [isSquareAttacked] over the squares [sqs] still to visit. *)
Fixpoint isSquareAttacked_scan
    (canPieceMoveTo : Z → Z → Z → Z → bool → option bool)
    (board : Board) (tr tc : Z) (by_ : Color) (sqs : list (Z * Z))
  : option bool :=
  match sqs with
  | [] => Some false
  | (r, c) :: rest =>
      let p := sq board r c in
      if negb (bool_decide (color p = by_))
      then isSquareAttacked_scan canPieceMoveTo board tr tc by_ rest
      else if bool_decide (type p = PAWN) then
        let dir := if bool_decide (by_ = WHITE) then -1 else 1 in
        if (r + dir =? tr) && (Z.abs (c - tc) =? 1) then Some true
        else isSquareAttacked_scan canPieceMoveTo board tr tc by_ rest
      else
        hit ← canPieceMoveTo r c tr tc true;
        if (hit : bool) then Some true
        else isSquareAttacked_scan canPieceMoveTo board tr tc by_ rest
  end.

Definition isSquareAttacked_body
    (canPieceMoveTo : Z → Z → Z → Z → bool → option bool)
    (board : Board) (tr tc : Z) (by_ : Color) : option bool :=
  isSquareAttacked_scan canPieceMoveTo board tr tc by_ allSquares.

(** The knot: [n] bounds how deeply activations of [canPieceMoveTo] nest. *)
Fixpoint canPieceMoveToF (n : nat) (board : Board) (enPassantCol : Z)
    (fr fc tr tc : Z) (ignoreCheck : bool) {struct n} : option bool :=
  match n with
  | O => None
  | S n' =>
      canPieceMoveTo_body
        (isSquareAttacked_body (canPieceMoveToF n' board enPassantCol) board)
        board enPassantCol fr fc tr tc ignoreCheck
  end.

Definition isSquareAttackedF (n : nat) (board : Board) (enPassantCol : Z)
    (tr tc : Z) (by_ : Color) : option bool :=
  isSquareAttacked_body (canPieceMoveToF n board enPassantCol) board tr tc by_.

(** The engine's two functions.  Depth 1 is enough for an attack scan and
    depth 2 for a movement check (theorems [isSquareAttacked_fuel] and
    [canPieceMoveTo_fuel] below: a larger bound gives the same result). *)
Definition isSquareAttacked (board : Board) (enPassantCol : Z)
    (tr tc : Z) (by_ : Color) : option bool :=
  isSquareAttackedF 1 board enPassantCol tr tc by_.

Definition canPieceMoveTo (board : Board) (enPassantCol : Z)
    (fr fc tr tc : Z) (ignoreCheck : bool) : option bool :=
  canPieceMoveToF 2 board enPassantCol fr fc tr tc ignoreCheck.

(** [isInCheck]: undefined when [findKing] finds no king. *)
Definition isInCheck (board : Board) (enPassantCol : Z) (c : Color)
  : option bool :=
  '(kr, kc) ← findKing board c;
  isSquareAttacked board enPassantCol kr kc (opponent c).

(** ** Legal move generation *)

(** [testMove] writes the move on the live board, asks whether the mover's
    king is attacked, and writes the two squares back.  It returns its
    verdict with the board it leaves behind. *)
Definition testMove (board : Board) (enPassantCol : Z) (fr fc tr tc : Z)
  : option (bool * Board) :=
  let a := sq board fr fc in
  let b := sq board tr tc in
  let board1 := put (put board tr tc a) fr fc noPiece in
  chk ← isInCheck board1 enPassantCol (color a);
  let board2 := put (put board1 fr fc a) tr tc b in
  Some (negb chk, board2).

(** The body of the innermost [if] of [getLegalMoves]: the moves pushed for
    an accepted pair of squares. *)
Definition pushMoves (board : Board) (enPassantCol : Z) (c : Color)
    (r col tr tc : Z) : list Move :=
  let p := sq board r col in
  let castling :=
    bool_decide (type p = KING) && (Z.abs (tc - col) =? 2) in
  let enPassant :=
    bool_decide (type p = PAWN) && (tc =? enPassantCol)
    && (tr =? (if bool_decide (c = WHITE) then 2 else 5)) in
  if bool_decide (type p = PAWN) && ((tr =? 0) || (tr =? 7))
  then (λ ps, mkMove r col tr tc ps enPassant castling)
         <$> [QUEEN; ROOK; BISHOP; KNIGHT]
  else [mkMove r col tr tc EMPTY enPassant castling].

(** The two inner loops, over the target squares [tgts] still to visit. *)
Fixpoint getLegalMoves_to (enPassantCol : Z) (c : Color) (r col : Z)
    (tgts : list (Z * Z)) (board : Board) (moves : list Move)
  : option (list Move * Board) :=
  match tgts with
  | [] => Some (moves, board)
  | (tr, tc) :: rest =>
      can ← canPieceMoveTo board enPassantCol r col tr tc false;
      if (can : bool) then
        '(ok, board') ← testMove board enPassantCol r col tr tc;
        if (ok : bool)
        then getLegalMoves_to enPassantCol c r col rest board'
               (moves ++ pushMoves board' enPassantCol c r col tr tc)
        else getLegalMoves_to enPassantCol c r col rest board' moves
      else getLegalMoves_to enPassantCol c r col rest board moves
  end.

(** The two outer loops, over the origin squares [srcs] still to visit. *)
Fixpoint getLegalMoves_from (enPassantCol : Z) (c : Color)
    (srcs : list (Z * Z)) (board : Board) (moves : list Move)
  : option (list Move * Board) :=
  match srcs with
  | [] => Some (moves, board)
  | (r, col) :: rest =>
      if bool_decide (color (sq board r col) = c) then
        '(moves', board') ←
          getLegalMoves_to enPassantCol c r col allSquares board moves;
        getLegalMoves_from enPassantCol c rest board' moves'
      else getLegalMoves_from enPassantCol c rest board moves
  end.

Definition getLegalMoves (board : Board) (enPassantCol : Z) (c : Color)
  : option (list Move * Board) :=
  getLegalMoves_from enPassantCol c allSquares board [].

(** ** Status *)

(** [char('0' + n)]. *)
Definition digitChar (n : Z) : ascii := ascii_of_nat (48 + Z.to_nat n).

Definition getPositionKey (board : Board) (currentPlayer : Color) : string :=
  foldr (λ '(r, c) k,
           String (digitChar (typeCode (type (sq board r c))))
             (String (digitChar (colorCode (color (sq board r c)))) k))
        (String (digitChar (colorCode currentPlayer)) EmptyString)
        allSquares.

(** The range-[for] loops of [insufficientMaterial] over the pieces [ps]
    still to visit, with the running count [minor]. *)
Fixpoint insufficientMaterial_loop (ps : list Piece) (minor : Z) : bool :=
  match ps with
  | [] => minor <=? 1
  | p :: rest =>
      if negb (bool_decide (type p = EMPTY))
         && negb (bool_decide (type p = KING))
      then
        if bool_decide (type p = BISHOP) || bool_decide (type p = KNIGHT)
        then insufficientMaterial_loop rest (minor + 1)
        else false
      else insufficientMaterial_loop rest minor
  end.

Definition insufficientMaterial (board : Board) : bool :=
  insufficientMaterial_loop (concat board) 0.

(** ** The game object *)

Module GameState.
Record t := mk {
  board : Board;
  currentPlayer : Color;
  enPassantCol : Z;
  enPassantRow : Z;
  halfMoveClock : Z;
  positionCount : gmap string Z
}.
End GameState.

(** The move log is the doubly linked list from [historyHead] to
    [historyTail], kept as the list of its moves; [historyCurrent] is the
    index of the node it points to, [None] for [nullptr].  A stack is a list
    with its top first. *)
Record ChessGame := mkChessGame {
  board : Board;
  currentPlayer : Color;
  enPassantCol : Z;
  enPassantRow : Z;
  halfMoveClock : Z;
  positionCount : gmap string Z;
  undoStack : list GameState.t;
  redoStack : list GameState.t;
  history : list Move;
  historyCurrent : option nat
}.

Definition withBoard (g : ChessGame) (b : Board) : ChessGame :=
  mkChessGame b (currentPlayer g) (enPassantCol g) (enPassantRow g)
    (halfMoveClock g) (positionCount g) (undoStack g) (redoStack g)
    (history g) (historyCurrent g).

Definition withPositionCount (g : ChessGame) (m : gmap string Z)
  : ChessGame :=
  mkChessGame (board g) (currentPlayer g) (enPassantCol g) (enPassantRow g)
    (halfMoveClock g) m (undoStack g) (redoStack g)
    (history g) (historyCurrent g).

(** [positionCount[k]] as an rvalue: the entry is created with value 0 when
    it is missing. *)
Definition subscript (m : gmap string Z) (k : string) : Z * gmap string Z :=
  match m !! k with
  | Some n => (n, m)
  | None => (0, <[k := 0]> m)
  end.

(** [positionCount[k]++]. *)
Definition increment (m : gmap string Z) (k : string) : gmap string Z :=
  <[k := fst (subscript m k) + 1]> m.

Definition newGame : ChessGame :=
  mkChessGame setupBoard WHITE (-1) (-1) 0
    (increment ∅ (getPositionKey setupBoard WHITE)) [] [] [] None.

Definition getState (g : ChessGame) : GameState.t :=
  GameState.mk (board g) (currentPlayer g) (enPassantCol g)
    (enPassantRow g) (halfMoveClock g) (positionCount g).

Definition setState (g : ChessGame) (s : GameState.t) : ChessGame :=
  mkChessGame (GameState.board s) (GameState.currentPlayer s)
    (GameState.enPassantCol s) (GameState.enPassantRow s)
    (GameState.halfMoveClock s) (GameState.positionCount s)
    (undoStack g) (redoStack g) (history g) (historyCurrent g).

(** [addMoveToHistory]: the new node becomes the tail and the current node. *)
Definition addMoveToHistory (h : list Move) (m : Move)
  : list Move * option nat :=
  (h ++ [m], Some (length h)).

Definition getGameStatus (g : ChessGame) : option (string * ChessGame) :=
  let '(n, counts) :=
    subscript (positionCount g) (getPositionKey (board g) (currentPlayer g)) in
  let g1 := withPositionCount g counts in
  if 3 <=? n then Some ("draw (threefold repetition)"%string, g1)
  else if 100 <=? halfMoveClock g1 then Some ("draw (50-move rule)"%string, g1)
  else if insufficientMaterial (board g1)
  then Some ("draw (insufficient material)"%string, g1)
  else
    '(moves, b) ← getLegalMoves (board g1) (enPassantCol g1) (currentPlayer g1);
    let g2 := withBoard g1 b in
    match moves with
    | [] =>
        chk ← isInCheck (board g2) (enPassantCol g2) (currentPlayer g2);
        Some (if (chk : bool) then "checkmate"%string
              else "stalemate"%string, g2)
    | _ =>
        chk ← isInCheck (board g2) (enPassantCol g2) (currentPlayer g2);
        Some (if (chk : bool) then "check"%string else "active"%string, g2)
    end.

(** ** Making, undoing and redoing moves *)

Definition setHasMoved (p : Piece) : Piece := mkPiece (type p) (color p) true.
Definition setType (p : Piece) (t : PieceType) : Piece :=
  mkPiece t (color p) (hasMoved p).

Definition makeMove (g : ChessGame) (m : Move) : ChessGame :=
  let undo1 := getState g :: undoStack g in
  let '(history1, current1) := addMoveToHistory (history g) m in
  let p := sq (board g) (fromRow m) (fromCol m) in
  let clock1 :=
    if bool_decide (type p = PAWN)
       || negb (bool_decide (type (sq (board g) (toRow m) (toCol m)) = EMPTY))
    then 0 else halfMoveClock g + 1 in
  let board1 :=
    if isEnPassant m then
      let capturedPawnRow :=
        if bool_decide (color p = WHITE) then toRow m + 1 else toRow m - 1 in
      put (board g) capturedPawnRow (toCol m) noPiece
    else board g in
  let twoSquares :=
    bool_decide (type p = PAWN) && (Z.abs (toRow m - fromRow m) =? 2) in
  let epCol1 := if twoSquares then toCol m else -1 in
  let epRow1 := if twoSquares then toRow m else -1 in
  let board2 :=
    if isCastling m then
      let rookFrom := if fromCol m <? toCol m then 7 else 0 in
      let rookTo :=
        if fromCol m <? toCol m then toCol m - 1 else toCol m + 1 in
      put (put board1 (fromRow m) rookTo (sq board1 (fromRow m) rookFrom))
          (fromRow m) rookFrom noPiece
    else board1 in
  let board3 := put board2 (toRow m) (toCol m) p in
  let board4 :=
    put board3 (toRow m) (toCol m)
        (setHasMoved (sq board3 (toRow m) (toCol m))) in
  let board5 := put board4 (fromRow m) (fromCol m) noPiece in
  let board6 :=
    if negb (bool_decide (promotion m = EMPTY))
    then put board5 (toRow m) (toCol m)
             (setType (sq board5 (toRow m) (toCol m)) (promotion m))
    else board5 in
  let player1 := opponent (currentPlayer g) in
  mkChessGame board6 player1 epCol1 epRow1 clock1
    (increment (positionCount g) (getPositionKey board6 player1))
    undo1 [] history1 current1.

Definition undo (g : ChessGame) : ChessGame :=
  match undoStack g with
  | [] => g
  | prev :: rest =>
      let g1 := setState g prev in
      mkChessGame (board g1) (currentPlayer g1) (enPassantCol g1)
        (enPassantRow g1) (halfMoveClock g1) (positionCount g1)
        rest (getState g :: redoStack g) (history g)
        (match historyCurrent g with
         | Some i => match i with O => None | S j => Some j end
         | None => None
         end)
  end.

Definition redo (g : ChessGame) : ChessGame :=
  match redoStack g with
  | [] => g
  | next :: rest =>
      let g1 := setState g next in
      mkChessGame (board g1) (currentPlayer g1) (enPassantCol g1)
        (enPassantRow g1) (halfMoveClock g1) (positionCount g1)
        (getState g :: undoStack g) rest (history g)
        (match historyCurrent g with
         | None => match history g with [] => None | _ :: _ => Some O end
         | Some i =>
             if bool_decide (S i < length (history g))%nat
             then Some (S i) else Some i
         end)
  end.

(** ** The command loop *)

(** The value of a [char] holding the ASCII character [ch]. *)
Definition charCode (ch : ascii) : Z := Z.of_nat (nat_of_ascii ch).

(** [tolower] and [toupper] in the C locale, on character codes. *)
Definition tolower (x : Z) : Z :=
  if (65 <=? x) && (x <=? 90) then x + 32 else x.
Definition toupper (x : Z) : Z :=
  if (97 <=? x) && (x <=? 122) then x - 32 else x.

(** [s[i]] after the loop [for (char &c : s) c = tolower(c)]. *)
Definition lowerAt (s : string) (i : nat) : Z :=
  tolower (charCode (default zero (String.get i s))).

(** [parseMove(s, m)] returns its verdict and the move it leaves in [m].
    [m] comes in as [Move()], whose squares the constructor leaves unset;
    they are 0 here and are read only after [parseMove] has set them. *)
Definition defaultMove : Move := mkMove 0 0 0 0 EMPTY false false.

Definition parseMove (s : string) (m : Move) : bool * Move :=
  if (String.length s <? 4)%nat then (false, m)
  else
    let fc := lowerAt s 0 - charCode "a" in
    let fr := 8 - (lowerAt s 1 - charCode "0") in
    let tc := lowerAt s 2 - charCode "a" in
    let tr := 8 - (lowerAt s 3 - charCode "0") in
    let promo :=
      if (5 <=? String.length s)%nat then
        let p := toupper (lowerAt s 4) in
        let promo1 := if p =? charCode "Q" then QUEEN else promotion m in
        let promo2 := if p =? charCode "R" then ROOK else promo1 in
        let promo3 := if p =? charCode "B" then BISHOP else promo2 in
        if p =? charCode "N" then KNIGHT else promo3
      else promotion m in
    (isValid fr fc && isValid tr tc,
     mkMove fr fc tr tc promo (isEnPassant m) (isCastling m)).

Definition getPieceChar (p : Piece) : ascii :=
  if bool_decide (type p = EMPTY) then "."%char
  else
    let ch :=
      match type p with
      | EMPTY => " " | PAWN => "P" | KNIGHT => "N" | BISHOP => "B"
      | ROOK => "R" | QUEEN => "Q" | KING => "K"
      end%char in
    if bool_decide (color p = BLACK)
    then ascii_of_nat (Z.to_nat (tolower (charCode ch)))
    else ch.

(** One printed row: the eight piece characters separated by spaces. *)
Definition rowLine (b : Board) (r : Z) : string :=
  foldr (λ c line,
           String (getPieceChar (sq b r c))
             (if c <? 7 then String " "%char line else line))
        EmptyString (seqZ 0 8).

(** [printState]: the lines written, and the object that [getGameStatus]
    leaves behind. *)
Definition printState (g : ChessGame) : option (list string * ChessGame) :=
  '(status, g') ← getGameStatus g;
  Some ("BOARD"%string :: ((rowLine (board g)) <$> seqZ 0 8)
        ++ [ ("TURN " +:+ (if bool_decide (currentPlayer g = WHITE)
                           then "WHITE" else "BLACK"))%string;
             ("STATUS " +:+ status)%string ],
        g').

(** The commands read by [play]; [OTHER] is any other token. *)
Inductive Command := QUIT | UNDO | REDO | MOVE (s : string) | OTHER.

(** The test in the loop of [play] that picks the move to make. *)
Definition sameSquares (u m : Move) : bool :=
  (fromRow m =? fromRow u) && (fromCol m =? fromCol u)
  && (toRow m =? toRow u) && (toCol m =? toCol u).

(** One turn of the loop of [play] for a command other than [QUIT]: the
    lines written and the new object. *)
Definition command (g : ChessGame) (cmd : Command)
  : option (list string * ChessGame) :=
  match cmd with
  | QUIT => Some ([], g)
  | UNDO => printState (undo g)
  | REDO => printState (redo g)
  | MOVE s =>
      let '(parsed, u) := parseMove s defaultMove in
      if negb parsed then
        '(out, g') ← printState g;
        Some ("ERROR InvalidMove"%string :: out, g')
      else
        '(moves, b) ← getLegalMoves (board g) (enPassantCol g) (currentPlayer g);
        let g1 := withBoard g b in
        match List.find (sameSquares u) moves with
        | None =>
            '(out, g') ← printState g1;
            Some ("ERROR IllegalMove"%string :: out, g')
        | Some a => printState (makeMove g1 a)
        end
  | OTHER => printState g
  end.

(** [play] after its first [printState], on the commands [cmds]. *)
Fixpoint play (g : ChessGame) (cmds : list Command)
  : option (list string * ChessGame) :=
  match cmds with
  | [] => Some ([], g)
  | QUIT :: _ => Some ([], g)
  | cmd :: rest =>
      '(out, g1) ← command g cmd;
      '(out', g2) ← play g1 rest;
      Some (out ++ out', g2)
  end.

(** ** Insufficient material, in the words of the specification

    "Excluding kings, at most one minor piece (bishop or knight) in total
    remains on the board and no pawn, rook, or queen remains." *)

Definition minorPieces (b : Board) : nat :=
  length (filter (λ p, type p = BISHOP ∨ type p = KNIGHT) (concat b)).

Definition noPawnRookQueen (b : Board) : Prop :=
  Forall (λ p, type p ≠ PAWN ∧ type p ≠ ROOK ∧ type p ≠ QUEEN) (concat b).

Definition insufficientMaterial_spec (b : Board) : Prop :=
  (minorPieces b ≤ 1)%nat ∧ noPawnRookQueen b.

(** A board with the given pieces on otherwise empty squares. *)
Definition emptyBoard : Board := replicate 8 (replicate 8 noPiece).

Definition place (b : Board) (ps : list (Z * Z * Piece)) : Board :=
  foldl (λ b '(r, c, p), put b r c p) b ps.

(** What it takes for the pair of squares [(r, col)], [(tr, tc)] to pass the
    test of the innermost loop of [getLegalMoves] on board [b]. *)
Definition accepted (b : Board) (ep : Z) (r col tr tc : Z) : Prop :=
  canPieceMoveTo b ep r col tr tc false = Some true
  ∧ testMove b ep r col tr tc = Some (true, b).

(** The number of times the key of the current position has occurred. *)
Definition occurrences (g : ChessGame) : Z :=
  default 0 (positionCount g !! getPositionKey (board g) (currentPlayer g)).

(** ** Reachable objects *)

(** The objects that [play] can hold: the new game, and what a command
    leaves of a reachable object. *)
Inductive reachable : ChessGame → Prop :=
  | reachable_newGame : reachable newGame
  | reachable_command g cmd out g' :
      reachable g → command g cmd = Some (out, g') → reachable g'.

(** A position whose board has its 64 squares and whose own key is counted
    in its repetition table. *)
Definition stateOK (s : GameState.t) : Prop :=
  wfBoard (GameState.board s)
  ∧ is_Some (GameState.positionCount s
             !! getPositionKey (GameState.board s) (GameState.currentPlayer s)).

(** The live position and all snapshots are such positions. *)
Definition consistent (g : ChessGame) : Prop :=
  stateOK (getState g)
  ∧ Forall stateOK (undoStack g)
  ∧ Forall stateOK (redoStack g).

(** A pawn that has not moved stands on its home row. *)
Definition homeOK (b : Board) : Prop :=
  ∀ r col,
    type (sq b r col) = PAWN → hasMoved (sq b r col) = false →
    r = (if bool_decide (color (sq b r col) = WHITE) then 6 else 1).

(** When an en-passant column is set, the pawn that has just advanced two
    squares stands in it, on the stored row, beside the squares from which
    the side to move may capture it, and the square it passed over is
    empty. *)
Definition enPassantOK (b : Board) (player : Color) (epCol epRow : Z)
  : Prop :=
  epCol ≠ -1 →
  epRow = (if bool_decide (player = WHITE) then 3 else 4)
  ∧ sq b epRow epCol = mkPiece PAWN (opponent player) true
  ∧ type (sq b (if bool_decide (player = WHITE) then 2 else 5) epCol) = EMPTY.

Definition stateSound (s : GameState.t) : Prop :=
  GameState.currentPlayer s ≠ NONE
  ∧ homeOK (GameState.board s)
  ∧ enPassantOK (GameState.board s) (GameState.currentPlayer s)
      (GameState.enPassantCol s) (GameState.enPassantRow s).

Definition sound (g : ChessGame) : Prop :=
  stateSound (getState g)
  ∧ Forall stateSound (undoStack g)
  ∧ Forall stateSound (redoStack g).

(** Board [b1] has no pawn that has not moved but those of [b], each on
    its square. *)
Definition keeps (b b1 : Board) : Prop :=
  ∀ r col,
    type (sq b1 r col) = PAWN → hasMoved (sq b1 r col) = false →
    sq b1 r col = sq b r col.

(** The king of color [c] is on the board. *)
Definition hasKing (b : Board) (c : Color) : Prop := is_Some (findKing b c).

(** ** Sample games *)

(** The output and the object after the moves [ms], each sent to [play] as
    a [MOVE] command, from the start of a game. *)
Definition playMoves (ms : list string) : option (list string * ChessGame) :=
  play newGame (MOVE <$> ms).

(** The same object, with the start position standing in for an undefined
    run. *)
Definition gameAfter (ms : list string) : ChessGame :=
  default newGame (snd <$> playMoves ms).

(** No move of the run was refused. *)
Definition noError (out : list string) : Prop :=
  ("ERROR InvalidMove"%string ∉ out) ∧ ("ERROR IllegalMove"%string ∉ out).

Definition noErrorb (out : list string) : bool :=
  forallb (λ l, negb (bool_decide (l = "ERROR InvalidMove"%string))
                && negb (bool_decide (l = "ERROR IllegalMove"%string))) out.

(** The moves [ms] are a game that [play] runs to its end, accepting every
    move. *)
Definition played (ms : list string) : Prop :=
  is_Some (playMoves ms) ∧ noError (default [] (fst <$> playMoves ms)).

Definition playedb (ms : list string) : bool :=
  match playMoves ms with
  | Some (out, _) => noErrorb out
  | None => false
  end.

(** The legal moves of the side to move. *)
Definition legalMovesOf (g : ChessGame) : list Move :=
  default []
    (fst <$> getLegalMoves (board g) (enPassantCol g) (currentPlayer g)).

(** Fool's mate: white is checkmated. *)
Definition foolsMate : list string :=
  ["f2f3"; "e7e5"; "g2g4"; "d8h4"]%string.

(** The mated position of [foolsMate], recorded as its third occurrence. *)
Definition repeatedMate : ChessGame :=
  let g := gameAfter foolsMate in
  withPositionCount g
    (<[getPositionKey (board g) (currentPlayer g) := 3]> (positionCount g)).

(** White's king on e5 and pawn on c5, black's queen on a5, and black has
    just played b7-b5. *)
Definition enPassantPin : list string :=
  ["c2c4"; "c7c6"; "c4c5"; "d8a5"; "e2e3"; "g8h6"; "e1e2"; "h6g8";
   "e2d3"; "g8h6"; "d3d4"; "h6g8"; "d4e5"; "b7b5"]%string.

(** White's pawn on h7 may capture on g8 and promote. *)
Definition promotionReady : list string :=
  ["h2h4"; "g7g5"; "h4g5"; "a7a6"; "g5g6"; "a6a5"; "g6h7"; "a5a4"]%string.

(** 1.a3 d5 2.a4 d4 3.e4: the white pawn has passed over e3 and black's
    pawn on d4 may capture it en passant. *)
Definition enPassantBlack : list string :=
  ["a2a3"; "d7d5"; "a3a4"; "d5d4"; "e2e4"]%string.

(** White is ready to castle on the king's side. *)
Definition castlingReady : list string :=
  ["e2e4"; "e7e5"; "g1f3"; "b8c6"; "f1c4"; "f8c5"]%string.

(** 1.e4 a6 2.e5 d5: white may capture on d6 en passant. *)
Definition enPassantReady : list string :=
  ["e2e4"; "a7a6"; "e4e5"; "d7d5"]%string.

(** ** Positions with little material *)

(** King and bishop against king, king and knight against king, king and
    two bishops against king. *)
Definition boardKBK : Board :=
  place emptyBoard [(7, 4, newPiece KING WHITE);
                    (7, 5, newPiece BISHOP WHITE);
                    (0, 4, newPiece KING BLACK)].

Definition boardKNK : Board :=
  place emptyBoard [(7, 4, newPiece KING WHITE);
                    (7, 6, newPiece KNIGHT WHITE);
                    (0, 4, newPiece KING BLACK)].

Definition boardKBBK : Board :=
  place emptyBoard [(7, 4, newPiece KING WHITE);
                    (7, 5, newPiece BISHOP WHITE);
                    (7, 2, newPiece BISHOP WHITE);
                    (0, 4, newPiece KING BLACK)].

(** The object as the constructor leaves it, with board [b] in the place
    of the start position. *)
Definition gameOn (b : Board) : ChessGame :=
  mkChessGame b WHITE (-1) (-1) 0
    (increment ∅ (getPositionKey b WHITE)) [] [] [] None.

(** Both kings step aside and back, twice. *)
Definition kingShuffle : list string :=
  ["e1e2"; "e8e7"; "e2e1"; "e7e8"; "e1e2"; "e8e7"; "e2e1"; "e7e8"]%string.

(** King and bishop against king after [kingShuffle]: the position has
    occurred three times. *)
Definition kbkThrice : ChessGame :=
  default (gameOn boardKBK)
    (snd <$> play (gameOn boardKBK) (MOVE <$> kingShuffle)).

(** ** Notions used in the statements of the properties *)

(** The straight lines of the sliding pieces, by the row and column
    differences of a move. *)
Definition lineOf (t : PieceType) (dr dc : Z) : Prop :=
  match t with
  | BISHOP => Z.abs dr = Z.abs dc
  | ROOK => dr = 0 ∨ dc = 0
  | QUEEN => Z.abs dr = Z.abs dc ∨ dr = 0 ∨ dc = 0
  | _ => False
  end.

(** The piece on [(r, c)] attacks [(tr, tc)] for color [by_], as
    [isSquareAttacked] tests it. *)
Definition attacksFrom (b : Board) (ep : Z) (by_ : Color) (r c tr tc : Z)
  : Prop :=
  color (sq b r c) = by_
  ∧ (type (sq b r c) = PAWN
     ∧ r + (if bool_decide (by_ = WHITE) then -1 else 1) = tr
     ∧ Z.abs (c - tc) = 1
     ∨ type (sq b r c) ≠ PAWN
       ∧ canPieceMoveTo b ep r c tr tc true = Some true).

(** The move [m] with promotion piece [t] instead of its own. *)
Definition withPromotion (m : Move) (t : PieceType) : Move :=
  mkMove (fromRow m) (fromCol m) (toRow m) (toCol m) t
    (isEnPassant m) (isCastling m).

(** The text of a square as [parseMove] reads it, file letter then rank
    digit, followed by [rest]: row 7, column 0 is a1. *)
Definition squareText (r c : Z) (rest : string) : string :=
  String (ascii_of_nat (Z.to_nat (charCode "a" + c)))
    (String (ascii_of_nat (Z.to_nat (charCode "0" + (8 - r)))) rest).

(** An empty square holds [Piece()], and a piece has a color. *)
Definition pieceOK (x : Piece) : Prop :=
  (type x = EMPTY → x = noPiece) ∧ (type x ≠ EMPTY → color x ≠ NONE).

(** A piece that has not moved stands where [setupBoard] put it, or is a
    rook that castling has set beside its king. *)
Definition originOK (r col : Z) (x : Piece) : Prop :=
  type x ≠ EMPTY → hasMoved x = false →
  x = sq setupBoard r col
  ∨ (type x = ROOK ∧ (col = 3 ∨ col = 5)
     ∧ (r = 7 ∧ color x = WHITE ∨ r = 0 ∧ color x = BLACK)).

Definition boardOK (b : Board) : Prop :=
  ∀ r col, pieceOK (sq b r col) ∧ originOK r col (sq b r col).

(** [castlingReady], and white has castled on the king's side. *)
Definition castled : list string := castlingReady ++ ["e1g1"%string].

(** The four corners of the board. *)
Definition corner (r c : Z) : Prop := (r = 0 ∨ r = 7) ∧ (c = 0 ∨ c = 7).

(** With piece [q] instead of [p] on square [(r, col)], color [by_] has
    the same men and, corners apart, no new empty square, and color [c]
    has its kings where it had them. *)
Definition shields (c by_ : Color) (r col : Z) (p q : Piece) : Prop :=
  (color q = by_ ↔ color p = by_)
  ∧ (color q = by_ → type p = type q)
  ∧ (type q = EMPTY → type p = EMPTY ∨ corner r col)
  ∧ (type q = KING ∧ color q = c ↔ type p = KING ∧ color p = c).

(** Board [m] is board [t] but for such changes: what attacks a square
    for [by_] on [m] attacks it on [t]. *)
Definition noNewAttack (c by_ : Color) (t m : Board) : Prop :=
  ∀ r col, shields c by_ r col (sq t r col) (sq m r col).

(** The key of a stored position, and the number of positions of a line
    of play that have the key [k]. *)
Definition keyOf (s : GameState.t) : string :=
  getPositionKey (GameState.board s) (GameState.currentPlayer s).

Definition timesOn (line : list GameState.t) (k : string) : Z :=
  Z.of_nat (length (filter (λ s, keyOf s = k) line)).

(** Each position of a line, latest first, counts the positions up to
    itself. *)
Fixpoint countsOK (line : list GameState.t) : Prop :=
  match line with
  | [] => True
  | s :: below =>
      (∀ k, default 0 (GameState.positionCount s !! k)
            = timesOn (s :: below) k)
      ∧ countsOK below
  end.

(** The loops over the board are not to be unrolled by [simpl]. *)
Arguments allSquares : simpl never.
Arguments canPieceMoveTo : simpl never.
Arguments isSquareAttacked : simpl never.
Arguments isInCheck : simpl never.
Arguments testMove : simpl never.
Arguments getLegalMoves : simpl never.
Arguments getPositionKey : simpl never.
Arguments insufficientMaterial : simpl never.
Arguments getGameStatus : simpl never.
Arguments printState : simpl never.
Arguments makeMove : simpl never.
Arguments playMoves : simpl never.
Arguments gameAfter : simpl never.
Arguments legalMovesOf : simpl never.

(** * Properties *)

(** Decide the tests [bool_decide (x = y)] whose outcome is known. *)
Ltac decide_enum :=
  repeat match goal with
    | |- context [bool_decide ?P] =>
        first [ rewrite (bool_decide_eq_true_2 P) by done
              | rewrite (bool_decide_eq_false_2 P) by done ]
    end.

(** ** Reading and writing squares *)

Section BoardLemmas.
Implicit Types (b : Board) (r c : Z) (p q : Piece).

Lemma isValid_spec r c :
  isValid r c = true ↔ 0 <= r < 8 ∧ 0 <= c < 8.
Proof. unfold isValid. rewrite !andb_true_iff. lia. Qed.

Lemma put_put_same b r c p q : put (put b r c p) r c q = put b r c q.
Proof.
  unfold put. destruct (isValid r c); [|done].
  rewrite list_alter_alter_eq. apply list_alter_ext; [|done].
  intros row _. simpl. apply list_insert_insert_eq.
Qed.

Lemma put_sq_id b r c : put b r c (sq b r c) = b.
Proof.
  unfold put, sq. destruct (isValid r c); [|done].
  etrans; [|apply (list_alter_id id); done].
  apply list_alter_ext; [|done].
  intros row Hrow. rewrite Hrow. simpl.
  destruct (row !! Z.to_nat c) as [x|] eqn:Hx; simpl.
  - by apply list_insert_id.
  - apply list_insert_ge. by apply lookup_ge_None.
Qed.

Lemma put_comm b r c r' c' p q :
  (r, c) ≠ (r', c') →
  put (put b r c p) r' c' q = put (put b r' c' q) r c p.
Proof.
  intros Hne. unfold put.
  destruct (isValid r c) eqn:Hv; [|done].
  destruct (isValid r' c') eqn:Hv'; [|done].
  apply isValid_spec in Hv, Hv'.
  destruct (decide (Z.to_nat r = Z.to_nat r')) as [Hr|Hr].
  - assert (r = r') by lia. subst r'.
    assert (Z.to_nat c ≠ Z.to_nat c') by (intros ?; apply Hne; f_equal; lia).
    rewrite !list_alter_alter_eq. apply list_alter_ext; [|done].
    intros row _. simpl. by apply list_insert_insert_ne.
  - by apply list_alter_alter_ne.
Qed.

Lemma sq_put_ne b r c r' c' p :
  (r, c) ≠ (r', c') → sq (put b r c p) r' c' = sq b r' c'.
Proof.
  intros Hne. unfold put, sq.
  destruct (isValid r' c') eqn:Hv'; [|done].
  destruct (isValid r c) eqn:Hv; [|done].
  apply isValid_spec in Hv, Hv'.
  destruct (decide (Z.to_nat r = Z.to_nat r')) as [Hr|Hr].
  - assert (r = r') by lia. subst r'.
    assert (Z.to_nat c ≠ Z.to_nat c') by (intros ?; apply Hne; f_equal; lia).
    rewrite list_lookup_alter_eq.
    destruct (b !! Z.to_nat r) as [row|]; simpl; [|done].
    by rewrite list_lookup_insert_ne.
  - by rewrite list_lookup_alter_ne.
Qed.

Lemma sq_put_eq b r c p :
  wfBoard b → isValid r c = true → sq (put b r c p) r c = p.
Proof.
  intros [Hlen Hrows] Hv. unfold put, sq. rewrite Hv.
  apply isValid_spec in Hv.
  rewrite list_lookup_alter_eq.
  destruct (b !! Z.to_nat r) as [row|] eqn:Hrow; simpl.
  - rewrite list_lookup_insert_eq; [done|].
    rewrite Forall_forall in Hrows.
    rewrite (Hrows row); [lia|]. by eapply list_elem_of_lookup_2.
  - apply lookup_ge_None in Hrow. lia.
Qed.

Lemma wfBoard_put b r c p : wfBoard b → wfBoard (put b r c p).
Proof.
  intros [Hlen Hrows]. unfold put. destruct (isValid r c); [|done].
  split; [by rewrite length_alter|].
  rewrite Forall_forall in Hrows. apply Forall_forall. intros row Hin.
  apply list_elem_of_lookup in Hin as [i Hi].
  rewrite list_lookup_alter in Hi. case_decide; subst.
  - destruct (b !! Z.to_nat r) as [row'|] eqn:Hrow; simplify_eq/=.
    rewrite length_insert. apply Hrows. by eapply list_elem_of_lookup_2.
  - apply Hrows. by eapply list_elem_of_lookup_2.
Qed.

Lemma wfBoard_setupBoard : wfBoard setupBoard.
Proof. split; [done|]. repeat constructor. Qed.

(** Writing a move on the board and writing the two squares back, as
    [testMove] does, leaves the board as it was. *)
Lemma put_restore b fr fc tr tc :
  put (put (put (put b tr tc (sq b fr fc)) fr fc noPiece)
           fr fc (sq b fr fc)) tr tc (sq b tr tc) = b.
Proof.
  rewrite put_put_same.
  destruct (decide ((fr, fc) = (tr, tc))) as [Heq|Hne].
  - injection Heq as -> ->. by rewrite !put_put_same, put_sq_id.
  - rewrite (put_comm _ fr fc tr tc) by done.
    by rewrite put_put_same, put_sq_id, put_sq_id.
Qed.
Lemma elem_of_allSquares r c : (r, c) ∈ allSquares ↔ isValid r c = true.
Proof.
  rewrite isValid_spec. unfold allSquares.
  rewrite list_elem_of_bind. split.
  - intros (r' & Hin & Hr'). apply elem_of_seqZ in Hr'.
    apply list_elem_of_bind in Hin as (c' & Hin & Hc').
    apply elem_of_seqZ in Hc'. apply list_elem_of_singleton in Hin.
    simplify_eq. lia.
  - intros [? ?]. exists r. split; [|apply elem_of_seqZ; lia].
    apply list_elem_of_bind. exists c.
    split; [by apply list_elem_of_singleton|apply elem_of_seqZ; lia].
Qed.
End BoardLemmas.

(** ** Termination of attack detection *)

Section Termination.
Implicit Types (b : Board) (n : nat).

Lemma sign_mul_abs x : sign x * Z.abs x = x.
Proof.
  unfold sign.
  destruct (Z.ltb_spec 0 x), (Z.ltb_spec x 0); lia.
Qed.

Lemma sign_zero : sign 0 = 0.
Proof. reflexivity. Qed.

(** The loop of the sliding pieces stops once the target is [k] steps
    ahead and [k] iterations are allowed. *)
Lemma slide_total (k : nat) : ∀ fuel b r c sr sc tr tc,
  tr = r + sr * Z.of_nat k → tc = c + sc * Z.of_nat k → (k ≤ fuel)%nat →
  is_Some (slide fuel b r c sr sc tr tc).
Proof.
  induction k as [|k IH]; intros fuel b r c sr sc tr tc Hr Hc Hk.
  - assert (r = tr) as -> by lia. assert (c = tc) as -> by lia.
    destruct fuel; simpl; rewrite !Z.eqb_refl; simpl; eauto.
  - destruct fuel as [|fuel]; [lia|]. simpl.
    destruct (negb (r =? tr) || negb (c =? tc)); [|eauto].
    destruct (negb (bool_decide _)); [eauto|].
    apply IH; lia.
Qed.

(** On a diagonal or a straight line the loop stops within
    [max |dr| |dc|] iterations, the bound the model gives it. *)
Lemma slide_line_total b fr fc tr tc :
  Z.abs (tr - fr) = Z.abs (tc - fc) ∨ tr - fr = 0 ∨ tc - fc = 0 →
  is_Some (slide (Z.to_nat (Z.max (Z.abs (tr - fr)) (Z.abs (tc - fc))))
             b (fr + sign (tr - fr)) (fc + sign (tc - fc))
             (sign (tr - fr)) (sign (tc - fc)) tr tc).
Proof.
  intros Hline.
  set (dr := tr - fr) in *. set (dc := tc - fc) in *.
  set (k := Z.max (Z.abs dr) (Z.abs dc)).
  pose proof (sign_mul_abs dr) as Hdr.
  pose proof (sign_mul_abs dc) as Hdc.
  destruct (decide (k = 0)) as [Hk0|Hk0].
  - assert (dr = 0) as Hr0 by lia. assert (dc = 0) as Hc0 by lia.
    rewrite Hr0, Hc0, sign_zero. apply (slide_total 0); lia.
  - apply (slide_total (Z.to_nat (k - 1))); [| |lia].
    + assert (sign dr * k = dr) as Hs.
      { destruct Hline as [Hd|[Hz|Hz]].
        - replace k with (Z.abs dr) by lia. done.
        - rewrite Hz, sign_zero. lia.
        - replace k with (Z.abs dr) by lia. done. }
      rewrite Z2Nat.id by lia. lia.
    + assert (sign dc * k = dc) as Hs.
      { destruct Hline as [Hd|[Hz|Hz]].
        - replace k with (Z.abs dc) by lia. done.
        - replace k with (Z.abs dc) by lia. done.
        - rewrite Hz, sign_zero. lia. }
      rewrite Z2Nat.id by lia. lia.
Qed.

(** In raw mode [canPieceMoveTo] returns a result that does not depend on
    what [isSquareAttacked] would do: it does not call it. *)
Lemma canPieceMoveTo_raw b ep fr fc tr tc :
  ∃ v, ∀ att, canPieceMoveTo_body att b ep fr fc tr tc true = Some v.
Proof.
  unfold canPieceMoveTo_body.
  destruct (bool_decide (type (sq b fr fc) = EMPTY)
            || bool_decide (color (sq b tr tc) = color (sq b fr fc))) eqn:Hg;
    [eexists; intros; reflexivity|].
  apply orb_false_iff in Hg as [Hne _].
  apply bool_decide_eq_false in Hne.
  destruct (type (sq b fr fc)) eqn:Ht; [done|..].
  - repeat case_match; try done; eexists; intros; reflexivity.
  - eexists; intros; reflexivity.
  - destruct (Z.abs (tr - fr) =? Z.abs (tc - fc)) eqn:Hd; simpl.
    + apply Z.eqb_eq in Hd.
      destruct (slide_line_total b fr fc tr tc) as [v Hv]; [by left|].
      rewrite Hv. repeat case_match; try done; eexists; intros; reflexivity.
    + eexists; intros; reflexivity.
  - destruct ((tr - fr =? 0) || (tc - fc =? 0)) eqn:Hs; simpl.
    + apply orb_true_iff in Hs. rewrite !Z.eqb_eq in Hs.
      destruct (slide_line_total b fr fc tr tc) as [v Hv]; [by right|].
      rewrite Hv. repeat case_match; try done; eexists; intros; reflexivity.
    + eexists; intros; reflexivity.
  - destruct ((Z.abs (tr - fr) =? Z.abs (tc - fc))
              || ((tr - fr =? 0) || (tc - fc =? 0))) eqn:Hs; simpl.
    + apply orb_true_iff in Hs. rewrite orb_true_iff, !Z.eqb_eq in Hs.
      destruct (slide_line_total b fr fc tr tc) as [v Hv]; [done|].
      rewrite Hv. repeat case_match; try done; eexists; intros; reflexivity.
    + eexists; intros; reflexivity.
  - repeat case_match; try done; eexists; intros; reflexivity.
Qed.

Lemma isSquareAttacked_scan_ext cm cm' b tr tc by_ sqs :
  (∀ r c, cm r c tr tc true = cm' r c tr tc true) →
  isSquareAttacked_scan cm b tr tc by_ sqs
  = isSquareAttacked_scan cm' b tr tc by_ sqs.
Proof.
  intros Hext. induction sqs as [|[r c] rest IH]; simpl; [done|].
  rewrite Hext, IH. done.
Qed.

Lemma isSquareAttacked_scan_total cm b tr tc by_ sqs :
  (∀ r c, is_Some (cm r c tr tc true)) →
  is_Some (isSquareAttacked_scan cm b tr tc by_ sqs).
Proof.
  intros Htot. induction sqs as [|[r c] rest IH]; simpl; [eauto|].
  destruct (Htot r c) as [v ->]. simpl.
  repeat case_match; eauto.
Qed.

Lemma canPieceMoveToF_raw n b ep fr fc tr tc :
  canPieceMoveToF (S n) b ep fr fc tr tc true
  = canPieceMoveToF 1 b ep fr fc tr tc true.
Proof.
  simpl. destruct (canPieceMoveTo_raw b ep fr fc tr tc) as [v Hv].
  by rewrite !Hv.
Qed.

(** More depth than 1 does not change an attack scan. *)
Lemma isSquareAttacked_fuel n b ep tr tc by_ :
  isSquareAttackedF (S n) b ep tr tc by_ = isSquareAttacked b ep tr tc by_.
Proof.
  unfold isSquareAttacked, isSquareAttackedF, isSquareAttacked_body.
  apply isSquareAttacked_scan_ext. intros r c.
  apply canPieceMoveToF_raw.
Qed.

Lemma isSquareAttacked_total b ep tr tc by_ :
  is_Some (isSquareAttacked b ep tr tc by_).
Proof.
  apply isSquareAttacked_scan_total. intros r c. simpl.
  destruct (canPieceMoveTo_raw b ep r c tr tc) as [v Hv].
  rewrite Hv. eauto.
Qed.

Lemma canPieceMoveTo_body_ext att att' b ep fr fc tr tc ic :
  (∀ r c by_, att r c by_ = att' r c by_) →
  canPieceMoveTo_body att b ep fr fc tr tc ic
  = canPieceMoveTo_body att' b ep fr fc tr tc ic.
Proof. intros Hext. unfold canPieceMoveTo_body. by rewrite !Hext. Qed.

(** More depth than 2 does not change a movement check. *)
Lemma canPieceMoveTo_fuel n b ep fr fc tr tc ic :
  canPieceMoveToF (S (S n)) b ep fr fc tr tc ic
  = canPieceMoveTo b ep fr fc tr tc ic.
Proof.
  unfold canPieceMoveTo.
  change (canPieceMoveToF (S (S n)) b ep fr fc tr tc ic)
    with (canPieceMoveTo_body (isSquareAttackedF (S n) b ep) b ep
            fr fc tr tc ic).
  change (canPieceMoveToF 2 b ep fr fc tr tc ic)
    with (canPieceMoveTo_body (isSquareAttackedF 1 b ep) b ep
            fr fc tr tc ic).
  apply canPieceMoveTo_body_ext. intros r c by_.
  by rewrite !isSquareAttacked_fuel.
Qed.

(** C9.  Attack detection terminates on every board, square and color.
    In raw mode the movement check returns a result whatever
    [isSquareAttacked] is taken to be, even a function that never
    returns: the castling branch is not evaluated and no call goes back
    to attack detection.  Hence [isSquareAttacked] returns a result at
    nesting depth 1, and every larger depth bound gives that result; and a
    movement check in either mode, with its castling-safety tests, never
    nests deeper than 2. *)
Theorem isSquareAttacked_terminates b ep tr tc by_ :
  (∀ fr fc, is_Some (canPieceMoveTo_body (λ _ _ _, None) b ep
                       fr fc tr tc true))
  ∧ (∃ v, isSquareAttacked b ep tr tc by_ = Some v
          ∧ ∀ n, isSquareAttackedF (S n) b ep tr tc by_ = Some v)
  ∧ (∀ fr fc ic n,
       canPieceMoveToF (S (S n)) b ep fr fc tr tc ic
       = canPieceMoveTo b ep fr fc tr tc ic).
Proof.
  split_and!.
  - intros fr fc. destruct (canPieceMoveTo_raw b ep fr fc tr tc) as [v Hv].
    rewrite Hv. eauto.
  - destruct (isSquareAttacked_total b ep tr tc by_) as [v Hv].
    exists v. split; [done|]. intros n. by rewrite isSquareAttacked_fuel.
  - intros fr fc ic n. apply canPieceMoveTo_fuel.
Qed.
End Termination.

(** ** Insufficient material *)

Section Material.
Implicit Types (b : Board) (ps : list Piece).

Lemma insufficientMaterial_loop_spec ps minor :
  insufficientMaterial_loop ps minor = true ↔
    minor
    + Z.of_nat (length (filter (λ p, type p = BISHOP ∨ type p = KNIGHT) ps))
      <= 1
    ∧ Forall (λ p, type p ≠ PAWN ∧ type p ≠ ROOK ∧ type p ≠ QUEEN) ps.
Proof.
  revert minor. induction ps as [|p ps IH]; intros minor.
  - simpl. rewrite Z.leb_le. split.
    + intros ?. split; [lia|constructor].
    + intros [? _]. lia.
  - rewrite filter_cons, Forall_cons. simpl.
    destruct (type p) eqn:Ht; decide_enum; simpl;
      rewrite ?IH; try case_decide; simpl length;
      rewrite ?Nat2Z.inj_succ; intuition (done || lia).
Qed.

(** The loops with their early return agree with the count of the
    specification. *)
Lemma insufficientMaterial_true_iff b :
  insufficientMaterial b = true ↔ insufficientMaterial_spec b.
Proof.
  unfold insufficientMaterial, insufficientMaterial_spec,
    minorPieces, noPawnRookQueen.
  rewrite insufficientMaterial_loop_spec. split; intros [? ?]; split;
    (done || lia).
Qed.

(** The test on king and bishop against king, on king and knight
    against king, and on king and two bishops against king. *)
Example insufficientMaterial_KB_K : insufficientMaterial boardKBK = true.
Proof. reflexivity. Qed.

Example insufficientMaterial_KN_K : insufficientMaterial boardKNK = true.
Proof. reflexivity. Qed.

Example insufficientMaterial_KBB_K : insufficientMaterial boardKBBK = false.
Proof. reflexivity. Qed.
End Material.

(** ** Insufficient material and the status *)

Section MaterialStatus.
Open Scope string_scope.

(** [getGameStatus] reports insufficient material exactly when its third
    test is reached and succeeds. *)
Lemma getGameStatus_material g :
  fst <$> getGameStatus g = Some "draw (insufficient material)" ↔
    (occurrences g < 3)%Z ∧ (halfMoveClock g < 100)%Z
    ∧ insufficientMaterial (board g) = true.
Proof.
  unfold occurrences, getGameStatus, subscript.
  destruct g as [b p ec er hc pc us rs h cur]. simpl.
  destruct (pc !! getPositionKey b p) as [n|]; simpl.
  - destruct (Z.leb_spec 3 n); simpl; [split; [done|lia]|].
    destruct (Z.leb_spec 100 hc); simpl; [split; [done|lia]|].
    destruct (insufficientMaterial b) eqn:Hins; simpl; [done|].
    split; [|by intros (_ & _ & ?)].
    destruct (getLegalMoves _ _ _) as [[moves b']|]; simpl; [|done].
    destruct moves; destruct (isInCheck _ _ _) as [[]|]; simpl; done.
  - destruct (Z.leb_spec 100 hc); simpl; [split; [done|lia]|].
    destruct (insufficientMaterial b) eqn:Hins; simpl; [done|].
    split; [|by intros (_ & _ & ?)].
    destruct (getLegalMoves _ _ _) as [[moves b']|]; simpl; [|done].
    destruct moves; destruct (isInCheck _ _ _) as [[]|]; simpl; done.
Qed.

(** With insufficient material [getGameStatus] returns, and returns one
    of its three draws. *)
Lemma getGameStatus_material_draw g :
  insufficientMaterial (board g) = true →
  fst <$> getGameStatus g
  ∈ [Some "draw (threefold repetition)"; Some "draw (50-move rule)";
     Some "draw (insufficient material)"].
Proof.
  intros Hins. unfold getGameStatus, subscript.
  destruct g as [b p ec er hc pc us rs h cur]. simpl in *.
  destruct (pc !! getPositionKey b p) as [n|]; simpl;
    try destruct (3 <=? n)%Z; simpl; try set_solver;
    destruct (100 <=? hc)%Z; simpl; try set_solver;
    rewrite Hins; simpl; set_solver.
Qed.

(** C7.  [insufficientMaterial] is true exactly when, kings apart, at
    most one bishop or knight in total is on the board and no pawn, rook
    or queen.  The status is the draw by insufficient material exactly
    when this holds and neither of the two earlier tests of
    [getGameStatus] fires: the key of the position has occurred less than
    three times and the halfmove clock is below 100.  So king and bishop
    against king and king and knight against king are draws, by this rule
    or by one of the two tested before it, and king and two bishops
    against king is never a draw by this rule. *)
Theorem insufficientMaterial_status :
  (∀ b, insufficientMaterial b = true ↔ insufficientMaterial_spec b)
  ∧ (∀ g, fst <$> getGameStatus g = Some "draw (insufficient material)" ↔
          (occurrences g < 3)%Z ∧ (halfMoveClock g < 100)%Z
          ∧ insufficientMaterial_spec (board g))
  ∧ (∀ g, insufficientMaterial_spec (board g) →
          fst <$> getGameStatus g
          ∈ [Some "draw (threefold repetition)"; Some "draw (50-move rule)";
             Some "draw (insufficient material)"])
  ∧ insufficientMaterial_spec boardKBK
  ∧ insufficientMaterial_spec boardKNK
  ∧ ¬ insufficientMaterial_spec boardKBBK
  ∧ (∀ g, board g = boardKBBK →
          fst <$> getGameStatus g ≠ Some "draw (insufficient material)").
Proof.
  assert (¬ insufficientMaterial_spec boardKBBK) as Htwo.
  { rewrite <- insufficientMaterial_true_iff.
    by replace (insufficientMaterial boardKBBK) with false
      by (vm_compute; reflexivity). }
  split_and!.
  - apply insufficientMaterial_true_iff.
  - intros g. rewrite getGameStatus_material.
    by rewrite insufficientMaterial_true_iff.
  - intros g Hspec. apply getGameStatus_material_draw.
    by apply insufficientMaterial_true_iff.
  - apply insufficientMaterial_true_iff. vm_compute. reflexivity.
  - apply insufficientMaterial_true_iff. vm_compute. reflexivity.
  - exact Htwo.
  - intros g Hb Hst. apply getGameStatus_material in Hst as (_ & _ & Hins).
    apply Htwo. rewrite <- Hb. by apply insufficientMaterial_true_iff.
Qed.

(** King and bishop against king, at its first occurrence: a draw by
    insufficient material. *)
Lemma insufficientMaterial_status_witness :
  let g := gameOn boardKBK in
  (occurrences g < 3)%Z ∧ (halfMoveClock g < 100)%Z
  ∧ insufficientMaterial_spec (board g)
  ∧ fst <$> getGameStatus g = Some "draw (insufficient material)".
Proof.
  intros g.
  assert (occurrences g < 3)%Z as Hocc by (vm_compute; reflexivity).
  assert (halfMoveClock g < 100)%Z as Hclock by (vm_compute; reflexivity).
  assert (insufficientMaterial_spec (board g)) as Hspec
    by exact (proj1 (proj2 (proj2 (proj2 insufficientMaterial_status)))).
  split; [exact Hocc|]. split; [exact Hclock|]. split; [exact Hspec|].
  exact (proj2 (proj1 (proj2 insufficientMaterial_status) g)
           (conj Hocc (conj Hclock Hspec))).
Defined.

(** The claim without the two earlier tests fails: after [kingShuffle],
    which [play] runs without refusing a move, king and bishop against
    king has occurred three times, and the status is the draw by
    repetition, not the draw by insufficient material. *)
Lemma insufficientMaterial_status_preempted :
  noErrorb <$> (fst <$> play (gameOn boardKBK) (MOVE <$> kingShuffle))
  = Some true
  ∧ occurrences kbkThrice = 3%Z
  ∧ insufficientMaterial (board kbkThrice) = true
  ∧ insufficientMaterial_spec (board kbkThrice)
  ∧ fst <$> getGameStatus kbkThrice = Some "draw (threefold repetition)"
  ∧ fst <$> getGameStatus kbkThrice ≠ Some "draw (insufficient material)".
Proof.
  assert (insufficientMaterial (board kbkThrice) = true) as Hins
    by (vm_compute; reflexivity).
  assert (fst <$> getGameStatus kbkThrice
          = Some "draw (threefold repetition)") as Hst
    by (vm_compute; reflexivity).
  split; [vm_compute; reflexivity|]. split; [vm_compute; reflexivity|].
  split; [exact Hins|].
  split; [exact (proj1 (insufficientMaterial_true_iff _) Hins)|].
  split; [exact Hst|].
  intros Hno. rewrite Hst in Hno. discriminate Hno.
Qed.
End MaterialStatus.

(** ** Legal move generation leaves the board as it found it *)

Section LegalMoves.
Implicit Types (b : Board) (c : Color) (m : Move) (moves : list Move).

#[local] Opaque allSquares.

Lemma testMove_board b ep fr fc tr tc ok b' :
  testMove b ep fr fc tr tc = Some (ok, b') → b' = b.
Proof.
  unfold testMove. intros H.
  destruct (isInCheck _ _ _) as [chk|]; simpl in H; simplify_eq.
  apply put_restore.
Qed.

Lemma getLegalMoves_to_inv ep c r col tgts : ∀ b moves moves' b',
  getLegalMoves_to ep c r col tgts b moves = Some (moves', b') →
  b' = b
  ∧ ∀ m, m ∈ moves' ↔
      m ∈ moves
      ∨ ∃ tr tc, (tr, tc) ∈ tgts ∧ accepted b ep r col tr tc
                 ∧ m ∈ pushMoves b ep c r col tr tc.
Proof.
  induction tgts as [|[tr tc] rest IH]; intros b moves moves' b' H; simpl in H.
  - simplify_eq. split; [done|]. intros m. split; [auto|].
    intros [?|(? & ? & Hin & _)]; [done|]. by apply elem_of_nil in Hin.
  - destruct (canPieceMoveTo b ep r col tr tc false) as [can|] eqn:Hcan;
      simpl in H; [|done].
    destruct can.
    + destruct (testMove b ep r col tr tc) as [[ok b1]|] eqn:Htest;
        simpl in H; [|done].
      pose proof (testMove_board _ _ _ _ _ _ _ _ Htest) as ->.
      destruct ok; apply IH in H as [-> Hiff]; (split; [done|]);
        intros m; rewrite Hiff; clear Hiff.
      * rewrite elem_of_app. split.
        -- intros [[?|?]|(tr' & tc' & ? & ? & ?)]; [by left| |].
           ++ right. exists tr, tc. split; [left|done].
           ++ right. exists tr', tc'. split; [by right|done].
        -- intros [?|(tr' & tc' & Hin & Hacc & Hm)]; [by left; left|].
           apply elem_of_cons in Hin as [Heq|Hin].
           ++ simplify_eq. by left; right.
           ++ right. by exists tr', tc'.
      * split.
        -- intros [?|(tr' & tc' & ? & ? & ?)]; [by left|].
           right. exists tr', tc'. split; [by right|done].
        -- intros [?|(tr' & tc' & Hin & Hacc & Hm)]; [by left|].
           apply elem_of_cons in Hin as [Heq|Hin].
           ++ simplify_eq. destruct Hacc as [_ Hacc]. congruence.
           ++ right. by exists tr', tc'.
    + apply IH in H as [-> Hiff]. split; [done|].
      intros m; rewrite Hiff; clear Hiff. split.
      * intros [?|(tr' & tc' & ? & ? & ?)]; [by left|].
        right. exists tr', tc'. split; [by right|done].
      * intros [?|(tr' & tc' & Hin & Hacc & Hm)]; [by left|].
        apply elem_of_cons in Hin as [Heq|Hin].
        -- simplify_eq. destruct Hacc as [Hacc _]. congruence.
        -- right. by exists tr', tc'.
Qed.

Lemma getLegalMoves_from_inv ep c srcs : ∀ b moves moves' b',
  getLegalMoves_from ep c srcs b moves = Some (moves', b') →
  b' = b
  ∧ ∀ m, m ∈ moves' ↔
      m ∈ moves
      ∨ ∃ r col tr tc,
          (r, col) ∈ srcs ∧ (tr, tc) ∈ allSquares
          ∧ color (sq b r col) = c ∧ accepted b ep r col tr tc
          ∧ m ∈ pushMoves b ep c r col tr tc.
Proof.
  induction srcs as [|[r col] rest IH]; intros b moves moves' b' H; simpl in H.
  - simplify_eq. split; [done|]. intros m. split; [auto|].
    intros [?|(? & ? & ? & ? & Hin & _)]; [done|]. by apply elem_of_nil in Hin.
  - case_bool_decide as Hc.
    + destruct (getLegalMoves_to ep c r col allSquares b moves)
        as [[moves1 b1]|] eqn:Hto; simpl in H; [|done].
      apply getLegalMoves_to_inv in Hto as [-> Hto].
      apply IH in H as [-> Hiff]. split; [done|].
      intros m. rewrite Hiff, Hto. clear Hiff Hto. split.
      * intros [[?|(tr & tc & ? & ? & ?)]|(r' & col' & tr & tc & ? & ?)].
        -- by left.
        -- right. exists r, col, tr, tc. split; [left|done].
        -- right. exists r', col', tr, tc. split; [by right|done].
      * intros [?|(r' & col' & tr & tc & Hin & Ht & Hcol & Hacc & Hm)];
          [by left; left|].
        apply elem_of_cons in Hin as [Heq|Hin].
        -- simplify_eq. left; right. by exists tr, tc.
        -- right. by exists r', col', tr, tc.
    + apply IH in H as [-> Hiff]. split; [done|].
      intros m. rewrite Hiff. clear Hiff. split.
      * intros [?|(r' & col' & tr & tc & ? & ?)]; [by left|].
        right. exists r', col', tr, tc. split; [by right|done].
      * intros [?|(r' & col' & tr & tc & Hin & Ht & Hcol & Hacc & Hm)];
          [by left|].
        apply elem_of_cons in Hin as [Heq|Hin].
        -- by simplify_eq.
        -- right. by exists r', col', tr, tc.
Qed.

(** [getLegalMoves] returns the board unchanged, and its moves are those
    pushed for the accepted pairs of squares. *)
Lemma getLegalMoves_board b ep c moves b' :
  getLegalMoves b ep c = Some (moves, b') → b' = b.
Proof. intros H. by apply getLegalMoves_from_inv in H as [-> _]. Qed.

Lemma getLegalMoves_elem b ep c moves b' m :
  getLegalMoves b ep c = Some (moves, b') →
  m ∈ moves ↔
    ∃ r col tr tc,
      isValid r col = true ∧ isValid tr tc = true
      ∧ color (sq b r col) = c ∧ accepted b ep r col tr tc
      ∧ m ∈ pushMoves b ep c r col tr tc.
Proof.
  pose proof elem_of_allSquares as Hall.
  intros H. apply getLegalMoves_from_inv in H as [_ Hiff].
  rewrite Hiff. split.
  - intros [Hnil|(r & col & tr & tc & ? & ? & ?)];
      [by apply elem_of_nil in Hnil|].
    exists r, col, tr, tc. by rewrite <- !Hall.
  - intros (r & col & tr & tc & ? & ? & ?). right.
    exists r, col, tr, tc. by rewrite !Hall.
Qed.
End LegalMoves.

(** ** The sample games are games *)

Section Samples.
Lemma noError_decide out : noErrorb out = true → noError out.
Proof.
  unfold noErrorb. rewrite forallb_forall. intros H.
  split; intros Hin; apply list_elem_of_In, H in Hin;
    apply andb_true_iff in Hin as [H1 H2];
    apply negb_true_iff, bool_decide_eq_false in H1, H2; done.
Qed.

Lemma played_decide ms : playedb ms = true → played ms.
Proof.
  unfold playedb, played. destruct (playMoves ms) as [[out g]|]; [|done].
  intros H. split; [eauto|]. by apply noError_decide.
Qed.

Lemma foolsMate_played : played foolsMate.
Proof. apply played_decide. vm_compute. reflexivity. Qed.

Lemma castlingReady_played : played castlingReady.
Proof. apply played_decide. vm_compute. reflexivity. Qed.

Lemma enPassantReady_played : played enPassantReady.
Proof. apply played_decide. vm_compute. reflexivity. Qed.
End Samples.

(** ** Castling *)

Section Castling.
Implicit Types (b : Board) (c : Color) (m : Move).

Lemma canPieceMoveTo_unfold b ep fr fc tr tc ic :
  canPieceMoveTo b ep fr fc tr tc ic
  = canPieceMoveTo_body (isSquareAttacked b ep) b ep fr fc tr tc ic.
Proof. reflexivity. Qed.

(** When its loop ends without returning, the squares it visited are
    empty. *)
Lemma castleGap_true fuel : ∀ b fr (x0 : Z) step rookCol,
  castleGap fuel b fr x0 step rookCol = Some true →
  (step = 1 → ∀ x, x0 <= x < rookCol → type (sq b fr x) = EMPTY)
  ∧ (step = -1 → ∀ x, rookCol < x <= x0 → type (sq b fr x) = EMPTY).
Proof.
  induction fuel as [|fuel IH]; intros b fr x0 step rookCol H; simpl in H.
  - destruct (Z.eqb_spec x0 rookCol); simpl in H; [|done].
    split; intros; lia.
  - destruct (Z.eqb_spec x0 rookCol); simpl in H; [split; intros; lia|].
    case_bool_decide as He; simpl in H; [|done].
    apply IH in H as [Hup Hdown]. split; intros Hs x Hx.
    + destruct (decide (x = x0)) as [->|]; [done|]. apply Hup; lia.
    + destruct (decide (x = x0)) as [->|]; [done|]. apply Hdown; lia.
Qed.

(** A move pushed for a piece that is no pawn. *)
Lemma pushMoves_no_pawn b ep c r col tr tc m :
  type (sq b r col) ≠ PAWN →
  m ∈ pushMoves b ep c r col tr tc →
  m = mkMove r col tr tc EMPTY false
        (bool_decide (type (sq b r col) = KING) && (Z.abs (tc - col) =? 2)).
Proof.
  intros Hp. unfold pushMoves.
  rewrite (bool_decide_eq_false_2 (type (sq b r col) = PAWN)) by done.
  simpl. by intros ->%list_elem_of_singleton.
Qed.

Lemma pushMoves_squares b ep c r col tr tc m :
  m ∈ pushMoves b ep c r col tr tc →
  fromRow m = r ∧ fromCol m = col ∧ toRow m = tr ∧ toCol m = tc.
Proof.
  unfold pushMoves. case_match.
  - intros Hin. apply list_elem_of_fmap in Hin as (ps & -> & _). done.
  - by intros ->%list_elem_of_singleton.
Qed.

(** What the king's rule has checked when it accepts a move of two
    columns. *)
Lemma canPieceMoveTo_castling b ep fr fc tr tc :
  canPieceMoveTo b ep fr fc tr tc false = Some true →
  type (sq b fr fc) = KING →
  Z.abs (tc - fc) = 2 →
  let rookCol := if 0 <? tc - fc then 7 else 0 in
  let step := if 0 <? tc - fc then 1 else -1 in
  let by_ := opponent (color (sq b fr fc)) in
  tr = fr
  ∧ hasMoved (sq b fr fc) = false
  ∧ type (sq b fr rookCol) = ROOK
  ∧ hasMoved (sq b fr rookCol) = false
  ∧ castleGap (Z.to_nat (Z.abs (rookCol - fc))) b fr (fc + step) step rookCol
    = Some true
  ∧ isSquareAttacked b ep fr fc by_ = Some false
  ∧ isSquareAttacked b ep fr (fc + step) by_ = Some false
  ∧ isSquareAttacked b ep tr tc by_ = Some false.
Proof.
  intros Hcan Hking Hcols rookCol step by_.
  rewrite canPieceMoveTo_unfold in Hcan. unfold canPieceMoveTo_body in Hcan.
  rewrite Hking in Hcan. fold by_ in Hcan.
  destruct (bool_decide (KING = EMPTY) || _); [done|].
  assert ((Z.abs (tr - fr) <=? 1) && (Z.abs (tc - fc) <=? 1) = false) as Hnear.
  { apply andb_false_iff. right. apply Z.leb_gt. lia. }
  rewrite Hnear in Hcan. simpl in Hcan.
  destruct (Z.eqb_spec (tr - fr) 0) as [Hdr|]; simpl in Hcan; [|done].
  rewrite Hcols in Hcan. simpl in Hcan.
  destruct (hasMoved (sq b fr fc)) eqn:Hmoved; simpl in Hcan; [done|].
  fold rookCol step in Hcan.
  case_bool_decide as Hrook; simpl in Hcan; [|done].
  destruct (hasMoved (sq b fr rookCol)) eqn:Hrmoved; simpl in Hcan; [done|].
  destruct (castleGap _ _ _ _ _ _) as [[]|] eqn:Hgap; simpl in Hcan;
    [|done|done].
  destruct (isSquareAttacked b ep fr fc by_) as [[]|] eqn:Ha1;
    simpl in Hcan; [done| |done].
  destruct (isSquareAttacked b ep fr (fc + step) by_)
    as [[]|] eqn:Ha2; simpl in Hcan; [done| |done].
  destruct (isSquareAttacked b ep tr tc by_) as [[]|] eqn:Ha3;
    simpl in Hcan; [done| |done].
  split_and!; try done. lia.
Qed.

(** C5.  A move of [getLegalMoves] by which a king moves two columns is
    there only if the king has not moved, the rook in the corner on that
    side has not moved, every square strictly between king and rook is
    empty, and the king's square, the square it crosses and the square it
    lands on are not attacked by the opponent.  "Has not moved" is the
    [hasMoved] mark of the piece, which [makeMove] sets on every piece it
    moves. *)
Theorem castling_only_if b ep c moves b' m :
  getLegalMoves b ep c = Some (moves, b') →
  m ∈ moves →
  type (sq b (fromRow m) (fromCol m)) = KING →
  Z.abs (toCol m - fromCol m) = 2 →
  let rookCol := if 0 <? toCol m - fromCol m then 7 else 0 in
  let step := if 0 <? toCol m - fromCol m then 1 else -1 in
  isCastling m = true
  ∧ toRow m = fromRow m
  ∧ hasMoved (sq b (fromRow m) (fromCol m)) = false
  ∧ type (sq b (fromRow m) rookCol) = ROOK
  ∧ hasMoved (sq b (fromRow m) rookCol) = false
  ∧ (∀ x, Z.min (fromCol m) rookCol < x < Z.max (fromCol m) rookCol →
          type (sq b (fromRow m) x) = EMPTY)
  ∧ isSquareAttacked b ep (fromRow m) (fromCol m) (opponent c) = Some false
  ∧ isSquareAttacked b ep (fromRow m) (fromCol m + step) (opponent c)
    = Some false
  ∧ isSquareAttacked b ep (toRow m) (toCol m) (opponent c) = Some false.
Proof.
  intros Hlegal Hin Hking Hcols.
  apply (getLegalMoves_elem _ _ _ _ _ m) in Hlegal.
  apply Hlegal in Hin as (r & col & tr & tc & Hv & Hv' & Hc & [Hcan _] & Hm).
  clear Hlegal.
  pose proof (pushMoves_squares _ _ _ _ _ _ _ _ Hm) as (Hr & Hcol & Htr & Htc).
  rewrite Hr, Hcol, Htr, Htc in *.
  apply pushMoves_no_pawn in Hm; [|by rewrite Hking].
  rewrite Hking in Hm.
  assert (Hflag : isCastling m = true).
  { rewrite Hm. simpl. decide_enum. simpl. by apply Z.eqb_eq. }
  clear Hm Hr Hcol Htr Htc. intros rookCol step.
  pose proof (canPieceMoveTo_castling _ _ _ _ _ _ Hcan Hking Hcols)
    as (Hrow & Hmoved & Hrook & Hrmoved & Hgap & Ha1 & Ha2 & Ha3).
  rewrite Hc in Ha1, Ha2, Ha3. fold rookCol step in Hrook, Hrmoved, Hgap, Ha2.
  clear Hcan. split_and!; try assumption.
  apply castleGap_true in Hgap as [Hup Hdown].
  intros x Hx. subst rookCol step.
  apply isValid_spec in Hv, Hv'.
  destruct (Z.ltb_spec 0 (tc - col)).
  - apply Hup; [done|lia].
  - apply Hdown; [done|lia].
Qed.
End Castling.

Section CastlingWitness.
(** After 1.e4 e5 2.Nf3 Nc6 3.Bc4 Bc5 white may castle on the king's
    side: the king and the rook on h1 have not moved, f1 and g1 are empty,
    and e1, f1 and g1 are not attacked. *)
Lemma castling_only_if_witness :
  let g := gameAfter castlingReady in
  let b := board g in
  let ep := enPassantCol g in
  let m := mkMove 7 4 7 6 EMPTY false true in
  getLegalMoves b ep WHITE = Some (legalMovesOf g, b)
  ∧ m ∈ legalMovesOf g
  ∧ type (sq b 7 4) = KING
  ∧ Z.abs (6 - 4) = 2
  ∧ isCastling m = true
  ∧ toRow m = fromRow m
  ∧ hasMoved (sq b 7 4) = false
  ∧ type (sq b 7 7) = ROOK
  ∧ hasMoved (sq b 7 7) = false
  ∧ (∀ x, Z.min 4 7 < x < Z.max 4 7 → type (sq b 7 x) = EMPTY)
  ∧ isSquareAttacked b ep 7 4 (opponent WHITE) = Some false
  ∧ isSquareAttacked b ep 7 (4 + 1) (opponent WHITE) = Some false
  ∧ isSquareAttacked b ep 7 6 (opponent WHITE) = Some false.
Proof.
  intros g b ep m.
  assert (getLegalMoves b ep WHITE = Some (legalMovesOf g, b)) as Hlegal
    by (vm_compute; reflexivity).
  assert (m ∈ legalMovesOf g) as Hin
    by (apply (bool_decide_unpack _); vm_compute; exact I).
  assert (type (sq b 7 4) = KING) as Hking by (vm_compute; reflexivity).
  assert (Z.abs (6 - 4) = 2) as Hcols by reflexivity.
  split; [exact Hlegal|]. split; [exact Hin|].
  split; [exact Hking|]. split; [exact Hcols|].
  exact (castling_only_if b ep WHITE _ _ m Hlegal Hin Hking Hcols).
Defined.
End CastlingWitness.

(** ** Undo and redo *)

Section UndoRedo.
(** C3.  With a move to undo, [undo] followed at once by [redo] restores
    the position in all its components: board, side to move, en-passant
    target, halfmove clock and repetition counts.  The two stacks are
    restored as well. *)
Theorem undo_redo_restores g :
  undoStack g ≠ [] →
  getState (redo (undo g)) = getState g
  ∧ undoStack (redo (undo g)) = undoStack g
  ∧ redoStack (redo (undo g)) = redoStack g.
Proof.
  intros Hne. destruct g as [b p ec er hc pc us rs h cur].
  destruct us as [|[b' p' ec' er' hc' pc'] us]; [done|].
  repeat split.
Qed.

(** After 1.e4 there is a move to undo. *)
Lemma undo_redo_restores_witness :
  let g := gameAfter ["e2e4"%string] in
  undoStack g ≠ []
  ∧ getState (redo (undo g)) = getState g
  ∧ undoStack (redo (undo g)) = undoStack g
  ∧ redoStack (redo (undo g)) = redoStack g.
Proof.
  intros g.
  assert (undoStack g ≠ []) as Hne.
  { apply (bool_decide_unpack _). vm_compute. exact I. }
  split; [exact Hne|]. exact (undo_redo_restores g Hne).
Defined.
End UndoRedo.

(** ** The order of the status tests *)

Section Status.
Open Scope string_scope.

(** C2.  [getGameStatus] tests repetition first, then the 50-move rule,
    then insufficient material, and only then looks at the legal moves.
    In particular a position whose key has occurred three times or more is
    a draw by repetition whatever its legal moves are, also when the side
    to move has none and is in check. *)
Theorem getGameStatus_order g :
  (3 <= occurrences g →
     fst <$> getGameStatus g = Some "draw (threefold repetition)")
  ∧ (occurrences g < 3 → 100 <= halfMoveClock g →
       fst <$> getGameStatus g = Some "draw (50-move rule)")
  ∧ (occurrences g < 3 → halfMoveClock g < 100 →
     insufficientMaterial (board g) = true →
       fst <$> getGameStatus g = Some "draw (insufficient material)")
  ∧ (occurrences g < 3 → halfMoveClock g < 100 →
     insufficientMaterial (board g) = false →
     ∀ moves b chk,
       getLegalMoves (board g) (enPassantCol g) (currentPlayer g)
       = Some (moves, b) →
       isInCheck b (enPassantCol g) (currentPlayer g) = Some chk →
       fst <$> getGameStatus g
       = Some (match moves, chk with
               | [], true => "checkmate"
               | [], false => "stalemate"
               | _ :: _, true => "check"
               | _ :: _, false => "active"
               end)).
Proof.
  unfold occurrences, getGameStatus, subscript.
  destruct g as [b p ec er hc pc us rs h cur]. simpl.
  destruct (pc !! getPositionKey b p) as [n|]; simpl;
    (split; [|split; [|split]]).
  all: try (intros H3;
            destruct (Z.leb_spec 3 n); [done|lia]).
  all: try (intros H3 H100; try (destruct (Z.leb_spec 3 n); [lia|]);
            destruct (Z.leb_spec 100 hc); [done|lia]).
  all: try (intros H3 H100 Hins; try (destruct (Z.leb_spec 3 n); [lia|]);
            destruct (Z.leb_spec 100 hc); [lia|]; by rewrite Hins).
  all: try (intros H3 H100 Hins moves b' chk Hlegal Hchk;
            try (destruct (Z.leb_spec 3 n); [lia|]);
            destruct (Z.leb_spec 100 hc); [lia|];
            rewrite Hins, Hlegal; simpl;
            destruct moves; rewrite Hchk; by destruct chk).
  intros H3. lia.
Qed.
End Status.

Section StatusWitness.
Open Scope string_scope.

(** The mated position of fool's mate, counted as its third occurrence:
    white has no legal move and is in check, and the status is the draw
    by repetition. *)
Lemma getGameStatus_order_witness :
  let g := repeatedMate in
  3 <= occurrences g
  ∧ getLegalMoves (board g) (enPassantCol g) (currentPlayer g)
    = Some ([], board g)
  ∧ isInCheck (board g) (enPassantCol g) (currentPlayer g) = Some true
  ∧ fst <$> getGameStatus g = Some "draw (threefold repetition)".
Proof.
  intros g.
  assert (3 <= occurrences g) as H3
    by (apply Z.leb_le; vm_compute; reflexivity).
  split; [exact H3|].
  split; [vm_compute; reflexivity|].
  split; [vm_compute; reflexivity|].
  exact (proj1 (getGameStatus_order g) H3).
Defined.
End StatusWitness.

(** ** The moves pushed by legal move generation *)

Section PushedMoves.
Implicit Types (b : Board) (c : Color) (m : Move).

(** An accepted move goes from an occupied square to another square. *)
Lemma canPieceMoveTo_squares b ep fr fc tr tc ic :
  canPieceMoveTo b ep fr fc tr tc ic = Some true →
  type (sq b fr fc) ≠ EMPTY ∧ (fr, fc) ≠ (tr, tc).
Proof.
  rewrite canPieceMoveTo_unfold. unfold canPieceMoveTo_body.
  destruct (bool_decide (type (sq b fr fc) = EMPTY)
            || bool_decide (color (sq b tr tc) = color (sq b fr fc)))
    eqn:Hg; [done|].
  apply orb_false_iff in Hg as [He Hc].
  apply bool_decide_eq_false in He, Hc. intros _.
  split; [done|]. intros Heq. injection Heq as -> ->. done.
Qed.

(** The tags and the promotion of a pushed move. *)
Lemma pushMoves_tags b ep c r col tr tc m :
  m ∈ pushMoves b ep c r col tr tc →
  isEnPassant m
  = bool_decide (type (sq b r col) = PAWN) && (tc =? ep)
    && (tr =? (if bool_decide (c = WHITE) then 2 else 5))
  ∧ isCastling m
    = bool_decide (type (sq b r col) = KING) && (Z.abs (tc - col) =? 2)
  ∧ (promotion m = EMPTY
     ↔ bool_decide (type (sq b r col) = PAWN) && ((tr =? 0) || (tr =? 7))
       = false).
Proof.
  unfold pushMoves.
  destruct (bool_decide (type (sq b r col) = PAWN) && ((tr =? 0) || (tr =? 7)))
    eqn:Hpromo.
  - intros (ps & -> & Hps)%list_elem_of_fmap. cbn [isEnPassant isCastling
      promotion]. repeat split; try done.
    intros ->. rewrite !elem_of_cons in Hps.
    destruct Hps as [?|[?|[?|[?|Hnil]]]]; try done.
    by apply elem_of_nil in Hnil.
  - by intros ->%list_elem_of_singleton.
Qed.

(** The moves that [getLegalMoves] tags as en passant. *)
Lemma pushMoves_enPassant b ep c r col tr tc m :
  m ∈ pushMoves b ep c r col tr tc →
  isEnPassant m = true →
  type (sq b r col) = PAWN
  ∧ tc = ep
  ∧ tr = (if bool_decide (c = WHITE) then 2 else 5)
  ∧ m = mkMove r col tr tc EMPTY true false.
Proof.
  intros Hm Hep.
  pose proof (pushMoves_squares _ _ _ _ _ _ _ _ Hm) as (Hr & Hcol & Htr & Htc).
  pose proof (pushMoves_tags _ _ _ _ _ _ _ _ Hm) as (Hflag & Hcastle & Hpromo).
  rewrite Hep in Hflag. symmetry in Hflag.
  apply andb_true_iff in Hflag as [Hflag Hrow].
  apply andb_true_iff in Hflag as [Hpawn Hepc].
  apply bool_decide_eq_true in Hpawn. apply Z.eqb_eq in Hepc, Hrow.
  rewrite Hpawn in Hcastle.
  rewrite (bool_decide_eq_false_2 (PAWN = KING)) in Hcastle by done.
  assert (promotion m = EMPTY) as Hnone.
  { apply Hpromo. apply andb_false_iff. right.
    apply orb_false_iff. rewrite !Z.eqb_neq.
    destruct (bool_decide (c = WHITE)); lia. }
  split_and!; try done.
  destruct m; simpl in *; congruence.
Qed.

(** What [getLegalMoves] does guarantee: with the moving piece alone
    written on its destination square and its origin square emptied, as
    [testMove] writes them, the mover's king is not attacked. *)
Lemma getLegalMoves_testMove b ep c moves b' m :
  getLegalMoves b ep c = Some (moves, b') →
  m ∈ moves →
  isInCheck
    (put (put b (toRow m) (toCol m) (sq b (fromRow m) (fromCol m)))
         (fromRow m) (fromCol m) noPiece) ep c
  = Some false.
Proof.
  intros Hlegal Hin.
  apply (getLegalMoves_elem _ _ _ _ _ m) in Hlegal.
  apply Hlegal in Hin as (r & col & tr & tc & _ & _ & Hc & [_ Htest] & Hm).
  apply pushMoves_squares in Hm as (-> & -> & -> & ->).
  unfold testMove in Htest. rewrite Hc in Htest.
  destruct (isInCheck _ ep c) as [[]|]; simpl in Htest; by simplify_eq.
Qed.
End PushedMoves.

(** ** Where the code departs from its specification *)

Section Departures.
Lemma enPassantPin_played : played enPassantPin.
Proof. apply played_decide. vm_compute. reflexivity. Qed.

(** C1.  In the game [enPassantPin] the capture c5xb6 en passant is among
    white's legal moves: [testMove] moves the capturing pawn only, and the
    black pawn on b5 still shields the king on e5 from the queen on a5.
    [makeMove] then removes that pawn, and white's own king is attacked
    after white's move. *)
Theorem legal_enPassant_exposes_king :
  let g := gameAfter enPassantPin in
  let m := mkMove 3 2 2 1 EMPTY true false in
  let g' := makeMove g m in
  let g'' := gameAfter (enPassantPin ++ ["c5b6"%string]) in
  played enPassantPin
  ∧ currentPlayer g = WHITE
  ∧ getLegalMoves (board g) (enPassantCol g) WHITE
    = Some (legalMovesOf g, board g)
  ∧ m ∈ legalMovesOf g
  ∧ testMove (board g) (enPassantCol g) 3 2 2 1 = Some (true, board g)
  ∧ isInCheck (board g') (enPassantCol g') WHITE = Some true
  ∧ played (enPassantPin ++ ["c5b6"%string])
  ∧ isInCheck (board g'') (enPassantCol g'') WHITE = Some true.
Proof.
  intros g m g' g''.
  split; [exact enPassantPin_played|].
  split; [vm_compute; reflexivity|].
  split; [vm_compute; reflexivity|].
  split; [apply (bool_decide_unpack _); vm_compute; exact I|].
  split; [vm_compute; reflexivity|].
  split; [vm_compute; reflexivity|].
  split; [apply played_decide; vm_compute; reflexivity|].
  vm_compute; reflexivity.
Qed.

(** C6.  In the game [promotionReady] the command MOVE h7g8r parses with
    promotion piece ROOK, and the move with that promotion is legal; the
    loop of [play] compares squares only and takes the first legal move
    from h7 to g8, which promotes to a queen. *)
Theorem underpromotion_gives_queen :
  let g := gameAfter promotionReady in
  let g' := gameAfter (promotionReady ++ ["h7g8r"%string]) in
  played (promotionReady ++ ["h7g8r"%string])
  ∧ parseMove "h7g8r" defaultMove = (true, mkMove 1 7 0 6 ROOK false false)
  ∧ mkMove 1 7 0 6 ROOK false false ∈ legalMovesOf g
  ∧ List.find (sameSquares (mkMove 1 7 0 6 ROOK false false))
      (legalMovesOf g)
    = Some (mkMove 1 7 0 6 QUEEN false false)
  ∧ sq (board g') 0 6 = mkPiece QUEEN WHITE true.
Proof.
  intros g g'.
  split; [apply played_decide; vm_compute; reflexivity|].
  split; [vm_compute; reflexivity|].
  split; [apply (bool_decide_unpack _); vm_compute; exact I|].
  split; vm_compute; reflexivity.
Qed.

(** What [makeMove] stores as the en-passant target: the column and the
    row of the square a pawn lands on after advancing two squares, and
    [-1] for both otherwise. *)
Lemma makeMove_enPassantTarget g m :
  let p := sq (board g) (fromRow m) (fromCol m) in
  let g' := makeMove g m in
  (type p = PAWN ∧ Z.abs (toRow m - fromRow m) = 2 →
     enPassantCol g' = toCol m ∧ enPassantRow g' = toRow m)
  ∧ (¬ (type p = PAWN ∧ Z.abs (toRow m - fromRow m) = 2) →
     enPassantCol g' = -1 ∧ enPassantRow g' = -1).
Proof.
  intros p g'. subst g'. unfold makeMove. simpl. fold p.
  split.
  - intros [Hp Hd]. rewrite Hp. decide_enum.
    apply Z.eqb_eq in Hd. by rewrite Hd.
  - intros Hn.
    destruct (bool_decide (type p = PAWN)
              && (Z.abs (toRow m - fromRow m) =? 2)) eqn:Hb; [|done].
    apply andb_true_iff in Hb as [Hp Hd].
    apply bool_decide_eq_true in Hp. apply Z.eqb_eq in Hd. tauto.
Qed.

(** C10.  After 1.a3 d5 2.a4 d4 3.e4 the white pawn has passed over e3,
    row 5, and stands on e4, row 4; black's pawn on d4 may capture it en
    passant by moving to e3.  The stored en-passant target has the pawn's
    column, and for its row the row the pawn stands on, not the row of the
    square it passed over, to which the capturing pawn moves. *)
Theorem enPassantRow_is_landing_row :
  let g := gameAfter enPassantBlack in
  let capture := mkMove 4 3 5 4 EMPTY true false in
  played enPassantBlack
  ∧ sq (board g) 4 4 = mkPiece PAWN WHITE true
  ∧ type (sq (board g) 5 4) = EMPTY
  ∧ capture ∈ legalMovesOf g
  ∧ enPassantCol g = toCol capture
  ∧ enPassantRow g = 4
  ∧ enPassantRow g ≠ toRow capture.
Proof.
  intros g capture.
  split; [apply played_decide; vm_compute; reflexivity|].
  split; [vm_compute; reflexivity|].
  split; [vm_compute; reflexivity|].
  split; [apply (bool_decide_unpack _); vm_compute; exact I|].
  split; [vm_compute; reflexivity|].
  assert (enPassantRow g = 4) as Hrow by (vm_compute; reflexivity).
  split; [exact Hrow|]. rewrite Hrow. simpl. lia.
Qed.
End Departures.

(** ** Refused moves change nothing *)

Section NoMutation.
Implicit Types (g : ChessGame) (s : GameState.t) (b : Board) (c : Color).

#[local] Opaque allSquares.

Lemma withPositionCount_same g : withPositionCount g (positionCount g) = g.
Proof. by destruct g. Qed.

Lemma withBoard_same g : withBoard g (board g) = g.
Proof. by destruct g. Qed.

(** With the key of the position counted, the subscript in
    [getGameStatus] creates no entry, and the object is left as it was. *)
Lemma getGameStatus_unchanged g st g' :
  is_Some (positionCount g !! getPositionKey (board g) (currentPlayer g)) →
  getGameStatus g = Some (st, g') → g' = g.
Proof.
  intros [n Hn]. unfold getGameStatus, subscript. rewrite Hn.
  rewrite withPositionCount_same.
  destruct (3 <=? n); [by intros [= _ <-]|].
  destruct (100 <=? halfMoveClock g); [by intros [= _ <-]|].
  destruct (insufficientMaterial (board g)); [by intros [= _ <-]|].
  destruct (getLegalMoves _ _ _) as [[moves b]|] eqn:Hlegal; simpl; [|done].
  apply getLegalMoves_board in Hlegal as ->.
  rewrite withBoard_same.
  destruct moves; destruct (isInCheck _ _ _); simpl; try done;
    by intros [= _ <-].
Qed.

Lemma printState_unchanged g out g' :
  is_Some (positionCount g !! getPositionKey (board g) (currentPlayer g)) →
  printState g = Some (out, g') → g' = g.
Proof.
  intros Hkey. unfold printState.
  destruct (getGameStatus g) as [[st g1]|] eqn:Hst; simpl; [|done].
  apply getGameStatus_unchanged in Hst as ->; [|done].
  by intros [= _ <-].
Qed.

Lemma consistent_newGame : consistent newGame.
Proof.
  split; [|split; constructor].
  split; [apply wfBoard_setupBoard|].
  simpl. unfold increment. rewrite lookup_insert_eq. eauto.
Qed.

Lemma wfBoard_makeMove g m :
  wfBoard (board g) → wfBoard (board (makeMove g m)).
Proof.
  intros Hwf. unfold makeMove. simpl.
  destruct (negb (bool_decide (promotion m = EMPTY))), (isCastling m),
    (isEnPassant m); repeat apply wfBoard_put; done.
Qed.

Lemma consistent_makeMove g m : consistent g → consistent (makeMove g m).
Proof.
  intros ([Hwf Hkey] & Hundo & Hredo).
  split; [|split].
  - split; [by apply wfBoard_makeMove|].
    unfold makeMove, increment. simpl. rewrite lookup_insert_eq. eauto.
  - unfold makeMove. simpl. by constructor.
  - unfold makeMove. simpl. constructor.
Qed.

Lemma consistent_undo g : consistent g → consistent (undo g).
Proof.
  intros Hg. pose proof Hg as (Hlive & Hundo & Hredo). unfold undo.
  destruct (undoStack g) as [|prev rest] eqn:Hstack; [exact Hg|].
  apply Forall_cons in Hundo as [Hprev Hrest].
  split; [|split].
  - by destruct prev.
  - done.
  - simpl. by constructor.
Qed.

Lemma consistent_redo g : consistent g → consistent (redo g).
Proof.
  intros Hg. pose proof Hg as (Hlive & Hundo & Hredo). unfold redo.
  destruct (redoStack g) as [|next rest] eqn:Hstack; [exact Hg|].
  apply Forall_cons in Hredo as [Hnext Hrest].
  split; [|split].
  - by destruct next.
  - simpl. by constructor.
  - done.
Qed.

Lemma consistent_key g :
  consistent g →
  is_Some (positionCount g !! getPositionKey (board g) (currentPlayer g)).
Proof. by intros ([_ Hkey] & _). Qed.

Lemma consistent_command g cmd out g' :
  consistent g → command g cmd = Some (out, g') → consistent g'.
Proof.
  intros Hg. destruct cmd as [| | |s|]; simpl.
  - by intros [= _ <-].
  - intros Hp. pose proof (consistent_undo _ Hg) as Hu.
    by apply printState_unchanged in Hp as ->; [|apply consistent_key].
  - intros Hp. pose proof (consistent_redo _ Hg) as Hr.
    by apply printState_unchanged in Hp as ->; [|apply consistent_key].
  - destruct (parseMove s defaultMove) as [parsed u].
    destruct parsed; simpl.
    + destruct (getLegalMoves _ _ _) as [[moves b]|] eqn:Hlegal; simpl; [|done].
      apply getLegalMoves_board in Hlegal as ->. rewrite withBoard_same.
      destruct (List.find (sameSquares u) moves) as [a|].
      * intros Hp. pose proof (consistent_makeMove _ a Hg) as Hm.
        by apply printState_unchanged in Hp as ->; [|apply consistent_key].
      * destruct (printState g) as [[out1 g1]|] eqn:Hp; simpl; [|done].
        apply printState_unchanged in Hp as ->; [|by apply consistent_key].
        by intros [= _ <-].
    + destruct (printState g) as [[out1 g1]|] eqn:Hp; simpl; [|done].
      apply printState_unchanged in Hp as ->; [|by apply consistent_key].
      by intros [= _ <-].
  - intros Hp.
    by apply printState_unchanged in Hp as ->; [|apply consistent_key].
Qed.

Lemma reachable_consistent g : reachable g → consistent g.
Proof.
  induction 1 as [|g cmd out g' _ IH Hcmd];
    [apply consistent_newGame|by eapply consistent_command].
Qed.

(** What [play] leaves is reachable. *)
Lemma play_reachable cmds : ∀ g out g',
  reachable g → play g cmds = Some (out, g') → reachable g'.
Proof.
  induction cmds as [|cmd rest IH]; intros g out g' Hg; simpl.
  - by intros [= _ <-].
  - destruct cmd as [| | |str|]; [by intros [= _ <-]|..];
      (destruct (command g _) as [[out1 g1]|] eqn:Hcmd; simpl; [|done];
       destruct (play g1 rest) as [[out2 g2]|] eqn:Hrest; simpl; [|done];
       intros [= _ <-]; eapply IH; [|exact Hrest];
       by eapply reachable_command).
Qed.

Lemma gameAfter_reachable ms : played ms → reachable (gameAfter ms).
Proof.
  intros [[[out g] Hplay] _]. unfold gameAfter. rewrite Hplay. simpl.
  eapply play_reachable; [apply reachable_newGame|exact Hplay].
Qed.

End NoMutation.

(** ** Pawns and the en-passant column in reachable positions *)

Section Invariants.
Implicit Types (g : ChessGame) (b : Board) (c : Color) (m : Move).

#[local] Opaque allSquares.

Lemma sq_put_cases b r col p r' col' :
  sq (put b r col p) r' col' = p ∨ sq (put b r col p) r' col' = sq b r' col'.
Proof.
  destruct (decide ((r, col) = (r', col'))) as [Heq|Hne];
    [|right; by apply sq_put_ne].
  injection Heq as <- <-. unfold sq, put.
  destruct (isValid r col); [|by right].
  rewrite list_lookup_alter_eq.
  destruct (b !! Z.to_nat r) as [row|]; simpl; [|by right].
  destruct (decide (Z.to_nat col < length row)%nat).
  - left. by rewrite list_lookup_insert_eq.
  - right. by rewrite list_insert_ge by lia.
Qed.

(** What the pawn's rule has checked when it accepts an advance of two
    rows. *)
Lemma canPieceMoveTo_twoSquares b ep fr fc tr tc ic :
  canPieceMoveTo b ep fr fc tr tc ic = Some true →
  type (sq b fr fc) = PAWN →
  Z.abs (tr - fr) = 2 →
  let dir := if bool_decide (color (sq b fr fc) = WHITE) then -1 else 1 in
  tc = fc ∧ tr = fr + 2 * dir
  ∧ hasMoved (sq b fr fc) = false
  ∧ type (sq b (fr + dir) fc) = EMPTY
  ∧ type (sq b tr tc) = EMPTY.
Proof.
  intros Hcan Hp Hrows dir.
  rewrite canPieceMoveTo_unfold in Hcan. unfold canPieceMoveTo_body in Hcan.
  rewrite Hp in Hcan. fold dir in Hcan.
  destruct (bool_decide (PAWN = EMPTY) || _); [done|].
  assert ((tr - fr =? dir) = false) as Hone.
  { apply Z.eqb_neq. subst dir. destruct (bool_decide _); lia. }
  rewrite Hone, !andb_false_r in Hcan. simpl in Hcan.
  destruct (Z.eqb_spec (tc - fc) 0); simpl in Hcan; [|done].
  destruct (Z.eqb_spec (tr - fr) (2 * dir)); simpl in Hcan; [|done].
  destruct (hasMoved (sq b fr fc)); simpl in Hcan; [done|].
  case_bool_decide; simpl in Hcan; [|done].
  case_bool_decide; simpl in Hcan; [|done].
  clear Hcan. split_and!; (assumption || lia).
Qed.

Lemma pushMoves_promotion b ep c r col tr tc m :
  m ∈ pushMoves b ep c r col tr tc → promotion m ≠ PAWN.
Proof.
  unfold pushMoves. case_match.
  - intros (ps & -> & Hps)%list_elem_of_fmap. simpl.
    rewrite !elem_of_cons in Hps.
    destruct Hps as [->|[->|[->|[->|Hnil]]]]; try done.
    by apply elem_of_nil in Hnil.
  - by intros ->%list_elem_of_singleton.
Qed.

Lemma homeOK_setupBoard : homeOK setupBoard.
Proof.
  intros r col Ht Hm.
  destruct (isValid r col) eqn:Hv;
    [|unfold sq in Ht; by rewrite Hv in Ht].
  apply isValid_spec in Hv as [Hr Hcol].
  assert (r = 0 ∨ r = 1 ∨ r = 2 ∨ r = 3 ∨ r = 4 ∨ r = 5 ∨ r = 6 ∨ r = 7)
    as Hrs by lia.
  assert (col = 0 ∨ col = 1 ∨ col = 2 ∨ col = 3 ∨ col = 4 ∨ col = 5
          ∨ col = 6 ∨ col = 7) as Hcs by lia.
  destruct_or!; subst; vm_compute in Ht; try discriminate;
    vm_compute; reflexivity.
Qed.

Lemma sound_newGame : sound newGame.
Proof.
  split; [|split; constructor].
  split; [done|]. split; [apply homeOK_setupBoard|]. by intros ?.
Qed.

Lemma keeps_refl b : keeps b b.
Proof. by intros r col _ _. Qed.

Lemma keeps_put b b1 r col p :
  keeps b b1 → ¬ (type p = PAWN ∧ hasMoved p = false) →
  keeps b (put b1 r col p).
Proof.
  intros Hk Hp r' col' Ht Hm.
  destruct (sq_put_cases b1 r col p r' col') as [Heq|Heq];
    rewrite Heq in *; [tauto|by apply Hk].
Qed.

Lemma homeOK_keeps b b1 : homeOK b → keeps b b1 → homeOK b1.
Proof.
  intros Hhome Hk r col Ht Hm.
  pose proof (Hk r col Ht Hm) as Heq.
  rewrite Heq in Ht, Hm |- *. by apply Hhome.
Qed.
(** A legal move keeps the pawns and the en-passant column in order. *)
Lemma stateSound_makeMove g moves b' m :
  wfBoard (board g) → stateSound (getState g) →
  getLegalMoves (board g) (enPassantCol g) (currentPlayer g)
  = Some (moves, b') →
  m ∈ moves →
  stateSound (getState (makeMove g m)).
Proof.
  intros Hwf (Hplayer & Hhome & Hep) Hlegal Hin.
  simpl in Hplayer, Hhome, Hep.
  apply (getLegalMoves_elem _ _ _ _ _ m) in Hlegal.
  apply Hlegal in Hin as (r & col & tr & tc & Hv & Hv' & Hc & [Hcan _] & Hm).
  clear Hlegal.
  pose proof (pushMoves_squares _ _ _ _ _ _ _ _ Hm) as (Hr & Hcol & Htr & Htc).
  pose proof (pushMoves_tags _ _ _ _ _ _ _ _ Hm) as (Hflag & Hcastle & Hpromo).
  pose proof (pushMoves_promotion _ _ _ _ _ _ _ _ Hm) as Hnp.
  pose proof (canPieceMoveTo_squares _ _ _ _ _ _ _ Hcan) as [Hne0 Hne].
  clear Hm.
  split; [|split].
  - unfold makeMove; simpl. unfold opponent.
    by destruct (bool_decide (currentPlayer g = WHITE)).
  - apply (homeOK_keeps (board g)); [done|].
    unfold makeMove. simpl. rewrite Hr, Hcol, Htr, Htc.
    set (b := board g) in *. set (p := sq b r col) in *.
    rewrite put_put_same.
    assert (isCastling m = true →
            ¬ (type (sq b r (if col <? tc then 7 else 0)) = PAWN
               ∧ hasMoved (sq b r (if col <? tc then 7 else 0)) = false)
            ∧ isEnPassant m = false) as Hrook.
    { intros Hcast. rewrite Hcast in Hcastle. symmetry in Hcastle.
      apply andb_true_iff in Hcastle as [Hking Hcols].
      apply bool_decide_eq_true in Hking. apply Z.eqb_eq in Hcols.
      pose proof (canPieceMoveTo_castling _ _ _ _ _ _ Hcan Hking Hcols)
        as (_ & _ & Hrk & _).
      split.
      - replace (if col <? tc then 7 else 0)
          with (if 0 <? tc - col then 7 else 0)
          by (destruct (Z.ltb_spec col tc), (Z.ltb_spec 0 (tc - col)); lia).
        rewrite Hrk. by intros [? _].
      - rewrite Hflag. fold p. rewrite Hking. by decide_enum. }
    clear Hcan.
    assert (∀ x, ¬ (type (setHasMoved x) = PAWN
                    ∧ hasMoved (setHasMoved x) = false)) as Hset
      by (by intros x [_ ?]).
    assert (¬ (type noPiece = PAWN ∧ hasMoved noPiece = false)) as Hnone
      by (by intros [? _]).
    destruct (negb (bool_decide (promotion m = EMPTY)));
      [apply keeps_put; [|by intros [? _]]|];
      (apply keeps_put; [|done]); (apply keeps_put; [|done]);
      (destruct (isCastling m);
       [destruct Hrook as [Hrk ->]; [done|];
        apply keeps_put; [|done]; apply keeps_put; [|done]; apply keeps_refl
       |destruct (isEnPassant m);
        [apply keeps_put; [|done]|]; apply keeps_refl]).
  - unfold enPassantOK, makeMove. simpl. rewrite Hr, Hcol, Htr, Htc.
    set (b := board g) in *. set (p := sq b r col) in *.
    destruct (bool_decide (type p = PAWN) && (Z.abs (tr - r) =? 2))
      eqn:Htwo; [|done].
    intros _. apply andb_true_iff in Htwo as [Hp Hrows].
    apply bool_decide_eq_true in Hp. apply Z.eqb_eq in Hrows.
    pose proof (canPieceMoveTo_twoSquares _ _ _ _ _ _ _ Hcan Hp Hrows)
      as (Hsame & Hland & Hunmoved & Hpass & Hdest).
    pose proof (Hhome r col Hp Hunmoved) as Hrow.
    fold b p in Hland, Hpass, Hrow. rewrite Hc in Hland, Hpass, Hrow.
    clear Hcan.
    assert (tr = (if bool_decide (currentPlayer g = WHITE) then 4 else 3))
      as Hto by (destruct (bool_decide (currentPlayer g = WHITE)); lia).
    assert (isEnPassant m = false) as ->.
    { rewrite Hflag. apply andb_false_iff. right. apply Z.eqb_neq.
      destruct (bool_decide (currentPlayer g = WHITE)); lia. }
    assert (isCastling m = false) as ->.
    { rewrite Hcastle. fold p. rewrite Hp. by decide_enum. }
    assert (promotion m = EMPTY) as ->.
    { apply Hpromo. apply andb_false_iff. right.
      apply orb_false_iff. rewrite !Z.eqb_neq.
      destruct (bool_decide (currentPlayer g = WHITE)); lia. }
    decide_enum. simpl negb. cbv iota.
    rewrite sq_put_eq by done. rewrite put_put_same.
    assert (setHasMoved p = mkPiece PAWN (currentPlayer g) true) as ->
      by (unfold setHasMoved; by rewrite Hp, Hc).
    assert (opponent (opponent (currentPlayer g)) = currentPlayer g) as ->
      by (by destruct (currentPlayer g)).
    split_and!.
    + rewrite Hto. by destruct (currentPlayer g).
    + rewrite sq_put_ne by done. by apply sq_put_eq.
    + assert ((if bool_decide (opponent (currentPlayer g) = WHITE)
               then 2 else 5)
              = r + (if bool_decide (currentPlayer g = WHITE) then -1 else 1))
        as -> by (rewrite Hrow; by destruct (currentPlayer g)).
      rewrite Hsame.
      rewrite !sq_put_ne; [done| |];
        intros [=]; destruct (bool_decide (currentPlayer g = WHITE)); lia.
Qed.

Lemma sound_makeMove g moves b' m :
  wfBoard (board g) → sound g →
  getLegalMoves (board g) (enPassantCol g) (currentPlayer g)
  = Some (moves, b') →
  m ∈ moves →
  sound (makeMove g m).
Proof.
  intros Hwf (Hlive & Hundo & Hredo) Hlegal Hin.
  split; [by eapply stateSound_makeMove|].
  unfold makeMove. simpl. split; by constructor.
Qed.

Lemma sound_undo g : sound g → sound (undo g).
Proof.
  intros Hg. pose proof Hg as (Hlive & Hundo & Hredo). unfold undo.
  destruct (undoStack g) as [|prev rest] eqn:Hstack; [exact Hg|].
  apply Forall_cons in Hundo as [Hprev Hrest].
  split; [|split].
  - by destruct prev.
  - done.
  - simpl. by constructor.
Qed.

Lemma sound_redo g : sound g → sound (redo g).
Proof.
  intros Hg. pose proof Hg as (Hlive & Hundo & Hredo). unfold redo.
  destruct (redoStack g) as [|next rest] eqn:Hstack; [exact Hg|].
  apply Forall_cons in Hredo as [Hnext Hrest].
  split; [|split].
  - by destruct next.
  - simpl. by constructor.
  - done.
Qed.

Lemma sound_command g cmd out g' :
  consistent g → sound g → command g cmd = Some (out, g') → sound g'.
Proof.
  intros Hg Hs. destruct cmd as [| | |str|]; simpl.
  - by intros [= _ <-].
  - intros Hp. pose proof (consistent_undo _ Hg) as Hu.
    apply printState_unchanged in Hp as ->; [|by apply consistent_key].
    by apply sound_undo.
  - intros Hp. pose proof (consistent_redo _ Hg) as Hr.
    apply printState_unchanged in Hp as ->; [|by apply consistent_key].
    by apply sound_redo.
  - destruct (parseMove str defaultMove) as [parsed u].
    destruct parsed; simpl.
    + destruct (getLegalMoves _ _ _) as [[moves b]|] eqn:Hlegal; simpl; [|done].
      pose proof (getLegalMoves_board _ _ _ _ _ Hlegal) as ->.
      rewrite withBoard_same.
      destruct (List.find (sameSquares u) moves) as [a|] eqn:Hfind.
      * intros Hp. pose proof (consistent_makeMove _ a Hg) as Hm.
        apply printState_unchanged in Hp as ->; [|by apply consistent_key].
        apply find_some in Hfind as [Hin _]. apply list_elem_of_In in Hin.
        destruct Hg as ([Hwf _] & _). by eapply sound_makeMove.
      * destruct (printState g) as [[out1 g1]|] eqn:Hp; simpl; [|done].
        apply printState_unchanged in Hp as ->; [|by apply consistent_key].
        by intros [= _ <-].
    + destruct (printState g) as [[out1 g1]|] eqn:Hp; simpl; [|done].
      apply printState_unchanged in Hp as ->; [|by apply consistent_key].
      by intros [= _ <-].
  - intros Hp.
    by apply printState_unchanged in Hp as ->; [|apply consistent_key].
Qed.

Lemma reachable_sound g : reachable g → sound g.
Proof.
  induction 1 as [|g cmd out g' Hreach IH Hcmd]; [apply sound_newGame|].
  eapply sound_command; [|exact IH|exact Hcmd].
  by apply reachable_consistent.
Qed.

End Invariants.

(** ** En passant *)

Section EnPassant.
Implicit Types (b : Board) (c : Color) (m : Move).

(** C4.  When [makeMove] executes a legal move tagged as en passant in a
    reachable position, the mover is a pawn of the side to move, the enemy
    pawn stands one rank behind the destination square, seen from the
    mover (row [r + 1] of the destination column for white capturing onto
    row [r]), and the destination square is empty.  [makeMove] clears the
    square of that enemy pawn; the destination square then holds the mover,
    and no other square but the origin changes. *)
Theorem makeMove_enPassant_capture g moves b' m :
  reachable g →
  getLegalMoves (board g) (enPassantCol g) (currentPlayer g)
  = Some (moves, b') →
  m ∈ moves →
  isEnPassant m = true →
  let mover := sq (board g) (fromRow m) (fromCol m) in
  let capturedPawnRow :=
    if bool_decide (color mover = WHITE) then toRow m + 1 else toRow m - 1 in
  let after := board (makeMove g m) in
  type mover = PAWN
  ∧ color mover = currentPlayer g
  ∧ sq (board g) capturedPawnRow (toCol m)
    = mkPiece PAWN (opponent (currentPlayer g)) true
  ∧ type (sq (board g) (toRow m) (toCol m)) = EMPTY
  ∧ sq after capturedPawnRow (toCol m) = noPiece
  ∧ sq after (toRow m) (toCol m) = setHasMoved mover
  ∧ sq after (fromRow m) (fromCol m) = noPiece
  ∧ ∀ r col, (r, col) ≠ (capturedPawnRow, toCol m) →
             (r, col) ≠ (toRow m, toCol m) →
             (r, col) ≠ (fromRow m, fromCol m) →
             sq after r col = sq (board g) r col.
Proof.
  intros Hreach Hlegal Hin Hep.
  pose proof (reachable_consistent _ Hreach) as ([Hwf _] & _).
  pose proof (reachable_sound _ Hreach) as ((_ & _ & Hpawn) & _).
  simpl in Hwf, Hpawn.
  apply (getLegalMoves_elem _ _ _ _ _ m) in Hlegal.
  apply Hlegal in Hin as (r & col & tr & tc & Hv & Hv' & Hc & [Hcan _] & Hm).
  clear Hlegal.
  apply pushMoves_enPassant in Hm as (Hp & Htc & Htr & ->); [|done].
  apply canPieceMoveTo_squares in Hcan as [_ Hne].
  cbv zeta. cbn [fromRow fromCol toRow toCol].
  set (mover := sq (board g) r col).
  set (cap := if bool_decide (color mover = WHITE) then tr + 1 else tr - 1).
  assert (isValid cap tc = true ∧ cap ≠ tr) as [Hvc Hcap].
  { subst cap mover. apply isValid_spec in Hv'. rewrite isValid_spec.
    rewrite Hc. destruct (bool_decide (currentPlayer g = WHITE)); lia. }
  destruct Hpawn as (Hrow & Hthere & Hfree).
  { apply isValid_spec in Hv'. lia. }
  assert (cap = enPassantRow g) as Hcapture.
  { subst cap mover. rewrite Hc, Hrow, Htr.
    by destruct (bool_decide (currentPlayer g = WHITE)). }
  assert (board (makeMove g (mkMove r col tr tc EMPTY true false))
          = put (put (put (board g) cap tc noPiece) tr tc (setHasMoved mover))
                r col noPiece) as ->.
  { unfold makeMove. simpl. fold mover. fold cap.
    rewrite sq_put_eq by (done || by apply wfBoard_put).
    by rewrite put_put_same. }
  pose proof (wfBoard_put _ cap tc noPiece Hwf) as Hwf1.
  pose proof (wfBoard_put _ tr tc (setHasMoved mover) Hwf1) as Hwf2.
  split_and!.
  - done.
  - done.
  - by rewrite Hcapture, Htc.
  - by rewrite Htr, Htc.
  - destruct (decide ((r, col) = (cap, tc))) as [Heq|Hne'].
    + injection Heq as <- <-. by apply sq_put_eq.
    + rewrite sq_put_ne by done.
      rewrite sq_put_ne by (intros [=]; done).
      by apply sq_put_eq.
  - rewrite sq_put_ne by done. by apply sq_put_eq.
  - by apply sq_put_eq.
  - intros r' c' H1 H2 H3.
    by rewrite !sq_put_ne.
Qed.
End EnPassant.

Section EnPassantWitness.
(** After 1.e4 a6 2.e5 d5 white captures from e5 onto d6 en passant. *)
Lemma makeMove_enPassant_capture_witness :
  let g := gameAfter enPassantReady in
  let m := mkMove 3 4 2 3 EMPTY true false in
  reachable g
  ∧ getLegalMoves (board g) (enPassantCol g) (currentPlayer g)
    = Some (legalMovesOf g, board g)
  ∧ m ∈ legalMovesOf g
  ∧ isEnPassant m = true
  ∧ let mover := sq (board g) (fromRow m) (fromCol m) in
    let capturedPawnRow :=
      if bool_decide (color mover = WHITE)
      then toRow m + 1 else toRow m - 1 in
    let after := board (makeMove g m) in
    type mover = PAWN
    ∧ color mover = currentPlayer g
    ∧ sq (board g) capturedPawnRow (toCol m)
      = mkPiece PAWN (opponent (currentPlayer g)) true
    ∧ type (sq (board g) (toRow m) (toCol m)) = EMPTY
    ∧ sq after capturedPawnRow (toCol m) = noPiece
    ∧ sq after (toRow m) (toCol m) = setHasMoved mover
    ∧ sq after (fromRow m) (fromCol m) = noPiece
    ∧ ∀ r col, (r, col) ≠ (capturedPawnRow, toCol m) →
               (r, col) ≠ (toRow m, toCol m) →
               (r, col) ≠ (fromRow m, fromCol m) →
               sq after r col = sq (board g) r col.
Proof.
  intros g m.
  assert (reachable g) as Hreach
    by exact (gameAfter_reachable enPassantReady enPassantReady_played).
  assert (getLegalMoves (board g) (enPassantCol g) (currentPlayer g)
          = Some (legalMovesOf g, board g)) as Hlegal
    by (vm_compute; reflexivity).
  assert (m ∈ legalMovesOf g) as Hin
    by (apply (bool_decide_unpack _); vm_compute; exact I).
  assert (isEnPassant m = true) as Hep by reflexivity.
  split; [exact Hreach|]. split; [exact Hlegal|].
  split; [exact Hin|]. split; [exact Hep|].
  exact (makeMove_enPassant_capture g _ _ m Hreach Hlegal Hin Hep).
Defined.

(** In that game the black pawn stands on d5 (row 3) and d6 (row 2) is
    empty; after the capture d5 is empty and the white pawn is on d6. *)
Example enPassant_exd6 :
  let g := gameAfter enPassantReady in
  let g' := gameAfter (enPassantReady ++ ["e5d6"%string]) in
  played (enPassantReady ++ ["e5d6"%string])
  ∧ sq (board g) 3 3 = mkPiece PAWN BLACK true
  ∧ sq (board g) 2 3 = noPiece
  ∧ sq (board g') 3 3 = noPiece
  ∧ sq (board g') 2 3 = mkPiece PAWN WHITE true.
Proof.
  intros g g'. split; [apply played_decide; vm_compute; reflexivity|].
  split; [vm_compute; reflexivity|].
  split; [vm_compute; reflexivity|].
  split; vm_compute; reflexivity.
Qed.
End EnPassantWitness.

(** ** A refused move is refused in finite time *)

Section Defined.
Implicit Types (g : ChessGame) (b : Board) (c : Color).

#[local] Opaque allSquares.

Lemma castleGap_total (k : nat) : ∀ fuel b fr x0 step rookCol,
  rookCol = x0 + step * Z.of_nat k → (k ≤ fuel)%nat →
  is_Some (castleGap fuel b fr x0 step rookCol).
Proof.
  induction k as [|k IH]; intros fuel b fr x0 step rookCol Hr Hk.
  - assert (x0 = rookCol) as -> by lia.
    destruct fuel; simpl; rewrite Z.eqb_refl; simpl; eauto.
  - destruct fuel as [|fuel]; [lia|]. simpl.
    destruct (negb (x0 =? rookCol)); [|eauto].
    destruct (negb (bool_decide _)); [eauto|].
    apply IH; lia.
Qed.

(** Only the king's rule looks at the mode. *)
Lemma canPieceMoveTo_body_mode att b ep fr fc tr tc ic :
  type (sq b fr fc) ≠ KING →
  canPieceMoveTo_body att b ep fr fc tr tc ic
  = canPieceMoveTo_body att b ep fr fc tr tc true.
Proof.
  intros Hk. unfold canPieceMoveTo_body.
  by destruct (type (sq b fr fc)).
Qed.

(** Between squares of the board the full movement check returns. *)
Lemma canPieceMoveTo_total b ep fr fc tr tc ic :
  isValid fr fc = true → isValid tr tc = true →
  is_Some (canPieceMoveTo b ep fr fc tr tc ic).
Proof.
  intros Hv Hv'. rewrite canPieceMoveTo_unfold.
  destruct (decide (type (sq b fr fc) = KING)) as [Hking|Hother].
  - apply isValid_spec in Hv, Hv'.
    unfold canPieceMoveTo_body. rewrite Hking.
    destruct (bool_decide (KING = EMPTY) || _); [eauto|].
    destruct ((Z.abs (tr - fr) <=? 1) && (Z.abs (tc - fc) <=? 1)); [eauto|].
    destruct (negb ic); simpl; [|eauto].
    destruct (Z.eqb_spec (tr - fr) 0); simpl; [|eauto].
    destruct (Z.eqb_spec (Z.abs (tc - fc)) 2) as [Hcols|]; simpl; [|eauto].
    destruct (negb (hasMoved (sq b fr fc))); simpl; [|eauto].
    destruct (bool_decide _ && negb _); [|eauto].
    edestruct (castleGap_total
                 (Z.to_nat (if 0 <? tc - fc then 6 - fc else fc - 1))
                 (Z.to_nat (Z.abs ((if 0 <? tc - fc then 7 else 0) - fc)))
                 b fr (fc + (if 0 <? tc - fc then 1 else -1))
                 (if 0 <? tc - fc then 1 else -1)
                 (if 0 <? tc - fc then 7 else 0)) as [clear Hclear].
    { destruct (Z.ltb_spec 0 (tc - fc)); lia. }
    { destruct (Z.ltb_spec 0 (tc - fc)); lia. }
    rewrite Hclear. simpl. destruct clear; simpl; [|eauto].
    destruct (isSquareAttacked_total b ep fr fc
                (opponent (color (sq b fr fc)))) as [a1 ->]. simpl.
    destruct a1; [eauto|].
    destruct (isSquareAttacked_total b ep fr
                (fc + (if 0 <? tc - fc then 1 else -1))
                (opponent (color (sq b fr fc)))) as [a2 ->]. simpl.
    destruct a2; [eauto|].
    destruct (isSquareAttacked_total b ep tr tc
                (opponent (color (sq b fr fc)))) as [a3 ->]. simpl.
    eauto.
  - rewrite canPieceMoveTo_body_mode by done.
    destruct (canPieceMoveTo_raw b ep fr fc tr tc) as [v Hv0].
    rewrite Hv0. eauto.
Qed.

(** An accepted move does not land on a piece of the mover's color. *)
Lemma canPieceMoveTo_colors b ep fr fc tr tc ic :
  canPieceMoveTo b ep fr fc tr tc ic = Some true →
  color (sq b tr tc) ≠ color (sq b fr fc).
Proof.
  rewrite canPieceMoveTo_unfold. unfold canPieceMoveTo_body.
  destruct (bool_decide (type (sq b fr fc) = EMPTY)
            || bool_decide (color (sq b tr tc) = color (sq b fr fc)))
    eqn:Hg; [done|].
  apply orb_false_iff in Hg as [_ Hc].
  by apply bool_decide_eq_false in Hc.
Qed.

Lemma findKingIn_is_Some b c sqs r col :
  (r, col) ∈ sqs → type (sq b r col) = KING → color (sq b r col) = c →
  is_Some (findKingIn b c sqs).
Proof.
  intros Hin Ht Hc. induction sqs as [|[r' col'] rest IH]; simpl.
  - by apply elem_of_nil in Hin.
  - apply elem_of_cons in Hin as [Heq|Hin].
    + injection Heq as <- <-. rewrite Ht, Hc. decide_enum. simpl. eauto.
    + destruct (_ && _); [eauto|by apply IH].
Qed.

Lemma findKingIn_Some b c sqs r col :
  findKingIn b c sqs = Some (r, col) →
  (r, col) ∈ sqs ∧ type (sq b r col) = KING ∧ color (sq b r col) = c.
Proof.
  induction sqs as [|[r' col'] rest IH]; simpl; [done|].
  destruct (bool_decide (type (sq b r' col') = KING)
            && bool_decide (color (sq b r' col') = c)) eqn:Hk.
  - intros [= <- <-]. apply andb_true_iff in Hk as [Ht Hc].
    apply bool_decide_eq_true in Ht, Hc. split; [left|done].
  - intros H. apply IH in H as (? & ? & ?). split; [by right|done].
Qed.

(** The position that [testMove] examines still has the mover's king. *)
Lemma hasKing_testMove b c fr fc tr tc :
  wfBoard b → isValid fr fc = true → isValid tr tc = true →
  color (sq b fr fc) = c → color (sq b tr tc) ≠ c →
  hasKing b c →
  hasKing (put (put b tr tc (sq b fr fc)) fr fc noPiece) c.
Proof.
  intros Hwf Hv Hv' Hc Hc' [[kr kc] Hking].
  apply findKingIn_Some in Hking as (Hin & Ht & Hk).
  assert ((fr, fc) ≠ (tr, tc)) as Hne by (intros [= -> ->]; done).
  assert ((tr, tc) ≠ (kr, kc)) as Hnk by (intros [= -> ->]; done).
  destruct (decide ((fr, fc) = (kr, kc))) as [Heq|Hnf].
  - injection Heq as -> ->.
    apply (findKingIn_is_Some _ _ _ tr tc).
    + by apply elem_of_allSquares.
    + rewrite sq_put_ne by done. by rewrite sq_put_eq.
    + rewrite sq_put_ne by done. by rewrite sq_put_eq.
  - apply (findKingIn_is_Some _ _ _ kr kc); [done|..];
      by rewrite !sq_put_ne.
Qed.

Lemma isInCheck_total b ep c : hasKing b c → is_Some (isInCheck b ep c).
Proof.
  intros [[kr kc] Hking]. unfold isInCheck. rewrite Hking. simpl.
  apply isSquareAttacked_total.
Qed.

Lemma getLegalMoves_to_total ep c r col tgts : ∀ b moves,
  wfBoard b → hasKing b c →
  isValid r col = true → color (sq b r col) = c →
  Forall (λ t, isValid t.1 t.2 = true) tgts →
  is_Some (getLegalMoves_to ep c r col tgts b moves).
Proof.
  induction tgts as [|[tr tc] rest IH]; intros b moves Hwf Hking Hv Hc Hall;
    simpl; [eauto|].
  apply Forall_cons in Hall as [Hv' Hall]. simpl in Hv'.
  destruct (canPieceMoveTo_total b ep r col tr tc false Hv Hv') as [can Hcan].
  rewrite Hcan. simpl. destruct can; [|by apply IH].
  apply canPieceMoveTo_colors in Hcan. rewrite Hc in Hcan.
  unfold testMove.
  destruct (isInCheck_total
              (put (put b tr tc (sq b r col)) r col noPiece) ep c) as [chk Hchk];
    [by apply hasKing_testMove|].
  rewrite Hc, Hchk. simpl. rewrite put_restore.
  destruct (negb chk); by apply IH.
Qed.

Lemma getLegalMoves_from_total ep c srcs : ∀ b moves,
  wfBoard b → hasKing b c →
  Forall (λ t, isValid t.1 t.2 = true) srcs →
  is_Some (getLegalMoves_from ep c srcs b moves).
Proof.
  induction srcs as [|[r col] rest IH]; intros b moves Hwf Hking Hall;
    simpl; [eauto|].
  apply Forall_cons in Hall as [Hv Hall]. simpl in Hv.
  case_bool_decide as Hc; [|by apply IH].
  destruct (getLegalMoves_to_total ep c r col allSquares b moves)
    as [[moves1 b1] Hto]; try done.
  { apply Forall_forall. intros [tr tc] Hin. by apply elem_of_allSquares. }
  rewrite Hto. simpl.
  apply getLegalMoves_to_inv in Hto as [-> _]. by apply IH.
Qed.

Lemma getLegalMoves_total b ep c :
  wfBoard b → hasKing b c → is_Some (getLegalMoves b ep c).
Proof.
  intros Hwf Hking. apply getLegalMoves_from_total; try done.
  apply Forall_forall. intros [r col] Hin. by apply elem_of_allSquares.
Qed.

Lemma getGameStatus_total g :
  wfBoard (board g) → hasKing (board g) (currentPlayer g) →
  is_Some (getGameStatus g).
Proof.
  intros Hwf Hking. unfold getGameStatus.
  destruct (subscript _ _) as [n counts].
  destruct (3 <=? n); [eauto|].
  destruct (100 <=? _); [eauto|].
  destruct (insufficientMaterial _); [eauto|].
  destruct g as [b p ec er hc pc us rs h cur]. simpl in *.
  destruct (getLegalMoves_total b ec p Hwf Hking) as [[moves b1] Hlegal].
  rewrite Hlegal. simpl.
  apply getLegalMoves_board in Hlegal as ->.
  destruct (isInCheck_total b ec p Hking) as [chk Hchk].
  destruct moves; rewrite Hchk; simpl; eauto.
Qed.

Lemma printState_total g :
  wfBoard (board g) → hasKing (board g) (currentPlayer g) →
  is_Some (printState g).
Proof.
  intros Hwf Hking. unfold printState.
  destruct (getGameStatus_total g Hwf Hking) as [[st g1] ->]. simpl. eauto.
Qed.

End Defined.

Section Refused.
Open Scope string_scope.



(** The same command, run: the error line is written and the king of the
    side to move is on the board. *)
Example rejected_move_e1c1 :
  let g := gameAfter castlingReady in
  hasKing (board g) (currentPlayer g)
  ∧ head <$> (fst <$> command g (MOVE "e1c1"))
    = Some (Some "ERROR IllegalMove")
  ∧ head <$> (fst <$> command g (MOVE "e1"))
    = Some (Some "ERROR InvalidMove").
Proof.
  intros g. split; [apply (bool_decide_unpack _); vm_compute; exact I|].
  split; vm_compute; reflexivity.
Qed.
End Refused.

(** ** Attack detection, square by square *)

Section Attacks.
Implicit Types (b : Board).

#[local] Opaque allSquares.

Lemma isSquareAttacked_scan_true cm b tr tc by_ sqs :
  (∀ r c, is_Some (cm r c tr tc true)) →
  isSquareAttacked_scan cm b tr tc by_ sqs = Some true ↔
    ∃ r c, (r, c) ∈ sqs ∧ color (sq b r c) = by_
      ∧ (type (sq b r c) = PAWN
         ∧ r + (if bool_decide (by_ = WHITE) then -1 else 1) = tr
         ∧ Z.abs (c - tc) = 1
         ∨ type (sq b r c) ≠ PAWN ∧ cm r c tr tc true = Some true).
Proof.
  intros Htot. induction sqs as [|[r c] rest IH]; simpl.
  - split; [done|]. intros (? & ? & Hin & _). by apply elem_of_nil in Hin.
  - assert (∀ P : Z → Z → Prop,
              (∃ r' c', (r', c') ∈ (r, c) :: rest ∧ P r' c')
              ↔ P r c ∨ ∃ r' c', (r', c') ∈ rest ∧ P r' c') as Hsplit.
    { intros P. split.
      - intros (r' & c' & [Heq|Hin]%elem_of_cons & HP);
          [injection Heq as -> ->; by left|right; eauto].
      - intros [HP|(r' & c' & Hin & HP)];
          [exists r, c; split; [left|done]
          |exists r', c'; split; [by right|done]]. }
    rewrite Hsplit, <- IH. clear Hsplit IH.
    case_bool_decide as Hcol; simpl; [|tauto].
    case_bool_decide as Hpawn.
    + destruct (Z.eqb_spec (r + (if bool_decide (by_ = WHITE) then -1 else 1))
                  tr); simpl;
        [destruct (Z.eqb_spec (Z.abs (c - tc)) 1); simpl|]; tauto.
    + destruct (Htot r c) as [[] Hcm]; rewrite Hcm; simpl; [tauto|].
      split; [tauto|]. intros [(_ & [(? & _)|(_ & ?)])|?]; done.
Qed.

Lemma attacked_iff b ep tr tc by_ :
  isSquareAttacked b ep tr tc by_ = Some true ↔
    ∃ r c, isValid r c = true ∧ attacksFrom b ep by_ r c tr tc.
Proof.
  unfold isSquareAttacked, isSquareAttackedF, isSquareAttacked_body.
  rewrite isSquareAttacked_scan_true.
  - unfold attacksFrom. split; intros (r & c & Hin & Hcol & Hhit);
      exists r, c; (split; [by apply elem_of_allSquares|]);
      (split; [done|]); unfold canPieceMoveTo in *;
      [rewrite canPieceMoveToF_raw|rewrite canPieceMoveToF_raw in Hhit];
      done.
  - intros r c. simpl.
    destruct (canPieceMoveTo_raw b ep r c tr tc) as [v Hv].
    rewrite Hv. eauto.
Qed.

(** X1.  A square is reported as attacked by a color exactly when some
    square of the board holds a piece of that color that is a pawn
    standing diagonally behind the square, whatever the square holds, or
    another piece whose movement rule in raw mode reaches the square. *)
Theorem isSquareAttacked_iff b ep tr tc by_ :
  isSquareAttacked b ep tr tc by_ = Some true ↔
    ∃ r c, isValid r c = true ∧ attacksFrom b ep by_ r c tr tc.
Proof. apply attacked_iff. Qed.

Lemma canPieceMoveTo_body_enPassantCol att b ep ep' fr fc tr tc ic :
  type (sq b fr fc) ≠ PAWN →
  canPieceMoveTo_body att b ep fr fc tr tc ic
  = canPieceMoveTo_body att b ep' fr fc tr tc ic.
Proof.
  intros Hp. unfold canPieceMoveTo_body.
  by destruct (type (sq b fr fc)).
Qed.

Lemma isSquareAttacked_scan_pieces cm cm' b tr tc by_ sqs :
  (∀ r c, type (sq b r c) ≠ PAWN → cm r c tr tc true = cm' r c tr tc true) →
  isSquareAttacked_scan cm b tr tc by_ sqs
  = isSquareAttacked_scan cm' b tr tc by_ sqs.
Proof.
  intros Hext. induction sqs as [|[r c] rest IH]; simpl; [done|].
  rewrite IH. case_bool_decide; simpl; [|done].
  case_bool_decide; [done|]. by rewrite Hext.
Qed.

(** X2.  Attack detection does not look at the en-passant column: pawns
    attack by their own rule, and the rules of the other pieces do not
    read it.  So neither does check detection. *)
Theorem isSquareAttacked_enPassantCol b ep ep' tr tc by_ c :
  isSquareAttacked b ep tr tc by_ = isSquareAttacked b ep' tr tc by_
  ∧ isInCheck b ep c = isInCheck b ep' c.
Proof.
  assert (∀ r col by0,
            isSquareAttacked b ep r col by0 = isSquareAttacked b ep' r col by0)
    as Hatt.
  { intros r col by0.
    unfold isSquareAttacked, isSquareAttackedF, isSquareAttacked_body.
    apply isSquareAttacked_scan_pieces. intros r0 c0 Hp. simpl.
    by apply canPieceMoveTo_body_enPassantCol. }
  split; [apply Hatt|].
  unfold isInCheck. destruct (findKing b c) as [[kr kc]|]; simpl; [|done].
  apply Hatt.
Qed.
End Attacks.

(** ** Sliding pieces *)

Section Sliding.
Implicit Types (b : Board).

(** The loop of the sliding pieces, [k] steps before the target: it ends
    without returning exactly when the squares it visits are empty. *)
Lemma slide_true (k : nat) : ∀ fuel b r c sr sc,
  sr ≠ 0 ∨ sc ≠ 0 → (k ≤ fuel)%nat →
  slide fuel b r c sr sc (r + sr * Z.of_nat k) (c + sc * Z.of_nat k)
  = Some true ↔
    ∀ i, 0 <= i < Z.of_nat k → type (sq b (r + sr * i) (c + sc * i)) = EMPTY.
Proof.
  induction k as [|k IH]; intros fuel b r c sr sc Hstep Hk.
  - replace (r + sr * Z.of_nat 0) with r by lia.
    replace (c + sc * Z.of_nat 0) with c by lia.
    destruct fuel; simpl; rewrite !Z.eqb_refl; simpl;
      (split; [intros _ i ?; lia|done]).
  - destruct fuel as [|fuel]; [lia|]. simpl.
    assert (negb (r =? r + sr * Z.of_nat (S k))
            || negb (c =? c + sc * Z.of_nat (S k)) = true) as ->.
    { apply orb_true_iff. rewrite !negb_true_iff, !Z.eqb_neq. nia. }
    case_bool_decide as Hhere; simpl.
    + replace (r + sr * Z.of_nat (S k)) with (r + sr + sr * Z.of_nat k) by lia.
      replace (c + sc * Z.of_nat (S k)) with (c + sc + sc * Z.of_nat k) by lia.
      rewrite IH by (done || lia). split.
      * intros Hrest i Hi. destruct (decide (i = 0)) as [->|].
        -- by rewrite !Z.mul_0_r, !Z.add_0_r.
        -- specialize (Hrest (i - 1)).
           replace (r + sr + sr * (i - 1)) with (r + sr * i) in Hrest by lia.
           replace (c + sc + sc * (i - 1)) with (c + sc * i) in Hrest by lia.
           apply Hrest. lia.
      * intros Hall i Hi. specialize (Hall (i + 1)).
        replace (r + sr * (i + 1)) with (r + sr + sr * i) in Hall by lia.
        replace (c + sc * (i + 1)) with (c + sc + sc * i) in Hall by lia.
        apply Hall. lia.
    + split; [done|]. intros Hall. exfalso. apply Hhere.
      specialize (Hall 0). rewrite !Z.mul_0_r, !Z.add_0_r in Hall.
      apply Hall. lia.
Qed.

Lemma slide_true_to (k : nat) fuel b r c sr sc tr tc :
  tr = r + sr * Z.of_nat k → tc = c + sc * Z.of_nat k →
  sr ≠ 0 ∨ sc ≠ 0 → (k ≤ fuel)%nat →
  slide fuel b r c sr sc tr tc = Some true ↔
    ∀ i, 0 <= i < Z.of_nat k → type (sq b (r + sr * i) (c + sc * i)) = EMPTY.
Proof. intros -> ->. apply slide_true. Qed.

Lemma sign_cases x :
  x = 0 ∧ sign x = 0 ∨ 0 < x ∧ sign x = 1 ∨ x < 0 ∧ sign x = -1.
Proof. unfold sign. destruct (Z.ltb_spec 0 x), (Z.ltb_spec x 0); lia. Qed.

Lemma sliding_iff b ep fr fc tr tc ic :
  type (sq b fr fc) = BISHOP ∨ type (sq b fr fc) = ROOK
  ∨ type (sq b fr fc) = QUEEN →
  canPieceMoveTo b ep fr fc tr tc ic = Some true ↔
    color (sq b tr tc) ≠ color (sq b fr fc)
    ∧ lineOf (type (sq b fr fc)) (tr - fr) (tc - fc)
    ∧ ∀ i, 0 < i < Z.max (Z.abs (tr - fr)) (Z.abs (tc - fc)) →
           type (sq b (fr + sign (tr - fr) * i) (fc + sign (tc - fc) * i))
           = EMPTY.
Proof.
  intros Htype. rewrite canPieceMoveTo_unfold. unfold canPieceMoveTo_body.
  set (dr := tr - fr). set (dc := tc - fc).
  assert (type (sq b fr fc) ≠ EMPTY) as Hne by (destruct_or!; congruence).
  rewrite (bool_decide_eq_false_2 _ Hne). simpl.
  case_bool_decide as Hcol; [split; [done|tauto]|].
  assert (∀ k : Z,
            0 < k → k = Z.max (Z.abs dr) (Z.abs dc) →
            sign dr * Z.abs dr = dr → sign dc * Z.abs dc = dc →
            (Z.abs dr = Z.abs dc ∨ dr = 0 ∨ dc = 0) →
            slide (Z.to_nat k) b (fr + sign dr) (fc + sign dc)
              (sign dr) (sign dc) tr tc = Some true ↔
              ∀ i, 0 < i < k →
                   type (sq b (fr + sign dr * i) (fc + sign dc * i)) = EMPTY)
    as Hslide.
  { intros k Hk Hmax Hsr Hsc Hline.
    assert (tr = fr + sign dr + sign dr * Z.of_nat (Z.to_nat (k - 1))) as Htr.
    { rewrite Z2Nat.id by lia. subst dr dc.
      destruct (sign_cases (tr - fr)) as [[? ->]|[[? ->]|[? ->]]]; lia. }
    assert (tc = fc + sign dc + sign dc * Z.of_nat (Z.to_nat (k - 1))) as Htc.
    { rewrite Z2Nat.id by lia. subst dr dc.
      destruct (sign_cases (tc - fc)) as [[? ->]|[[? ->]|[? ->]]]; lia. }
    rewrite (slide_true_to (Z.to_nat (k - 1)) _ _ _ _ _ _ _ _ Htr Htc).
    - rewrite Z2Nat.id by lia. split.
      + intros Hall i Hi. specialize (Hall (i - 1)).
        replace (fr + sign dr + sign dr * (i - 1)) with (fr + sign dr * i)
          in Hall by lia.
        replace (fc + sign dc + sign dc * (i - 1)) with (fc + sign dc * i)
          in Hall by lia.
        apply Hall. lia.
      + intros Hall i Hi. specialize (Hall (i + 1)).
        replace (fr + sign dr * (i + 1)) with (fr + sign dr + sign dr * i)
          in Hall by lia.
        replace (fc + sign dc * (i + 1)) with (fc + sign dc + sign dc * i)
          in Hall by lia.
        apply Hall. lia.
    - destruct (sign_cases dr) as [[? ?]|[[? ?]|[? ?]]],
        (sign_cases dc) as [[? ?]|[[? ?]|[? ?]]]; lia.
    - lia. }
  assert (dr = 0 → dc = 0 → False) as Hmoved.
  { intros Hr Hc. apply Hcol. subst dr dc.
    replace tr with fr by lia. by replace tc with fc by lia. }
  pose proof (sign_mul_abs dr) as Hsr. pose proof (sign_mul_abs dc) as Hsc.
  destruct Htype as [Ht|[Ht|Ht]]; rewrite Ht; decide_enum; simpl.
  - destruct (Z.eqb_spec (Z.abs dr) (Z.abs dc)) as [Hd|Hd]; simpl;
      [|split; [done|tauto]].
    rewrite Hslide; [tauto|lia|done..|by left].
  - destruct (Z.eqb_spec dr 0) as [Hr|Hr], (Z.eqb_spec dc 0) as [Hc|Hc];
      simpl; try (by exfalso; apply Hmoved);
      try (rewrite Hslide; [tauto|lia|done..|tauto]).
    split; [done|]. intros (_ & [?|?] & _); done.
  - destruct (Z.eqb_spec (Z.abs dr) (Z.abs dc)) as [Hd|Hd],
      (Z.eqb_spec dr 0) as [Hr|Hr], (Z.eqb_spec dc 0) as [Hc|Hc];
      simpl; try (by exfalso; apply Hmoved);
      try (rewrite Hslide; [tauto|lia|done..|tauto]).
    split; [done|]. intros (_ & [?|[?|?]] & _); done.
Qed.

(** X3.  A bishop, rook or queen may go from one square to another exactly
    when the target holds no piece of its own color, the two squares lie on
    a diagonal (bishop), a row or column (rook) or either (queen), and
    every square strictly between them is empty. *)
Theorem sliding_move_iff b ep fr fc tr tc ic :
  type (sq b fr fc) = BISHOP ∨ type (sq b fr fc) = ROOK
  ∨ type (sq b fr fc) = QUEEN →
  canPieceMoveTo b ep fr fc tr tc ic = Some true ↔
    color (sq b tr tc) ≠ color (sq b fr fc)
    ∧ lineOf (type (sq b fr fc)) (tr - fr) (tc - fc)
    ∧ ∀ i, 0 < i < Z.max (Z.abs (tr - fr)) (Z.abs (tc - fc)) →
           type (sq b (fr + sign (tr - fr) * i) (fc + sign (tc - fc) * i))
           = EMPTY.
Proof. apply sliding_iff. Qed.
End Sliding.

Section SlidingWitness.
(** After 1.e4 e5 2.Nf3 Nc6 3.Bc4 Bc5 the bishop on c4 attacks the pawn
    on f7 along the empty squares d5 and e6. *)
Lemma sliding_move_iff_witness :
  let b := board (gameAfter castlingReady) in
  (type (sq b 4 2) = BISHOP ∨ type (sq b 4 2) = ROOK
   ∨ type (sq b 4 2) = QUEEN)
  ∧ (canPieceMoveTo b (-1) 4 2 1 5 false = Some true ↔
       color (sq b 1 5) ≠ color (sq b 4 2)
       ∧ lineOf (type (sq b 4 2)) (1 - 4) (5 - 2)
       ∧ ∀ i, 0 < i < Z.max (Z.abs (1 - 4)) (Z.abs (5 - 2)) →
              type (sq b (4 + sign (1 - 4) * i) (2 + sign (5 - 2) * i))
              = EMPTY).
Proof.
  intros b.
  assert (type (sq b 4 2) = BISHOP ∨ type (sq b 4 2) = ROOK
          ∨ type (sq b 4 2) = QUEEN) as Htype
    by (left; vm_compute; reflexivity).
  split; [exact Htype|].
  exact (sliding_move_iff b (-1) 4 2 1 5 false Htype).
Defined.
End SlidingWitness.

(** ** The list of legal moves *)

Section LegalList.
Implicit Types (b : Board) (c : Color) (m : Move) (moves : list Move).

#[local] Opaque allSquares.

(** X4.  Every move of [getLegalMoves] goes from a square of the board
    holding a piece of the asked color to another square of the board that
    holds no piece of that color, and passes both tests of the generator. *)
Theorem legalMoves_squares b ep c moves b' m :
  getLegalMoves b ep c = Some (moves, b') →
  m ∈ moves →
  isValid (fromRow m) (fromCol m) = true
  ∧ isValid (toRow m) (toCol m) = true
  ∧ (fromRow m, fromCol m) ≠ (toRow m, toCol m)
  ∧ type (sq b (fromRow m) (fromCol m)) ≠ EMPTY
  ∧ color (sq b (fromRow m) (fromCol m)) = c
  ∧ color (sq b (toRow m) (toCol m)) ≠ c
  ∧ accepted b ep (fromRow m) (fromCol m) (toRow m) (toCol m).
Proof.
  intros Hlegal Hin.
  apply (getLegalMoves_elem _ _ _ _ _ m) in Hlegal.
  apply Hlegal in Hin as (r & col & tr & tc & Hv & Hv' & Hc & Hacc & Hm).
  apply pushMoves_squares in Hm as (-> & -> & -> & ->).
  pose proof Hacc as [Hcan _].
  pose proof (canPieceMoveTo_squares _ _ _ _ _ _ _ Hcan) as [Hne Hsq].
  pose proof (canPieceMoveTo_colors _ _ _ _ _ _ _ Hcan) as Hcol.
  rewrite Hc in Hcol. clear Hcan Hlegal. split_and!; assumption.
Qed.

(** X5.  A pawn move onto row 0 or 7 is listed in all four promotions,
    queen, rook, bishop and knight, and in no other form; every other
    legal move carries no promotion piece. *)
Theorem legalMoves_promotion b ep c moves b' m :
  getLegalMoves b ep c = Some (moves, b') →
  m ∈ moves →
  if bool_decide (type (sq b (fromRow m) (fromCol m)) = PAWN)
     && ((toRow m =? 0) || (toRow m =? 7))
  then promotion m ∈ [QUEEN; ROOK; BISHOP; KNIGHT]
       ∧ ∀ t, t ∈ [QUEEN; ROOK; BISHOP; KNIGHT] → withPromotion m t ∈ moves
  else promotion m = EMPTY.
Proof.
  intros Hlegal Hin.
  pose proof (getLegalMoves_elem _ _ _ _ _ m Hlegal) as Hm.
  apply Hm in Hin as (r & col & tr & tc & Hv & Hv' & Hc & Hacc & Hpush).
  clear Hm.
  pose proof (pushMoves_squares _ _ _ _ _ _ _ _ Hpush)
    as (Hr & Hcol & Htr & Htc).
  rewrite Hr, Hcol, Htr. unfold pushMoves in Hpush.
  destruct (bool_decide (type (sq b r col) = PAWN)
            && ((tr =? 0) || (tr =? 7))) eqn:Hlast.
  - apply list_elem_of_fmap in Hpush as (ps & -> & Hps). simpl.
    split; [done|]. intros t Ht.
    apply (getLegalMoves_elem _ _ _ _ _ _ Hlegal).
    exists r, col, tr, tc. split_and!; try assumption.
    unfold pushMoves. rewrite Hlast. unfold withPromotion.
    cbn [fromRow fromCol toRow toCol isEnPassant isCastling].
    apply list_elem_of_fmap. by exists t.
  - by apply list_elem_of_singleton in Hpush as ->.
Qed.

(** X6.  Two legal moves between the same two squares carry the same
    tags and differ at most in the promotion piece: the squares and the
    promotion piece determine the move. *)
Theorem legalMoves_sameSquares b ep c moves b' m1 m2 :
  getLegalMoves b ep c = Some (moves, b') →
  m1 ∈ moves → m2 ∈ moves →
  sameSquares m1 m2 = true →
  m2 = withPromotion m1 (promotion m2).
Proof.
  intros Hlegal Hin1 Hin2 Hsame.
  pose proof (getLegalMoves_elem _ _ _ _ _ m1 Hlegal) as H1.
  pose proof (getLegalMoves_elem _ _ _ _ _ m2 Hlegal) as H2.
  apply H1 in Hin1 as (r & col & tr & tc & _ & _ & _ & _ & Hp1).
  apply H2 in Hin2 as (r2 & col2 & tr2 & tc2 & _ & _ & _ & _ & Hp2).
  clear H1 H2 Hlegal.
  pose proof (pushMoves_squares _ _ _ _ _ _ _ _ Hp1) as (Ha & Hb & Hc & Hd).
  pose proof (pushMoves_squares _ _ _ _ _ _ _ _ Hp2) as (Ha2 & Hb2 & Hc2 & Hd2).
  pose proof (pushMoves_tags _ _ _ _ _ _ _ _ Hp1) as (He1 & Hk1 & _).
  pose proof (pushMoves_tags _ _ _ _ _ _ _ _ Hp2) as (He2 & Hk2 & _).
  unfold sameSquares in Hsame. rewrite !andb_true_iff, !Z.eqb_eq in Hsame.
  destruct Hsame as [[[? ?] ?] ?].
  assert (r2 = r) by congruence. assert (col2 = col) by congruence.
  assert (tr2 = tr) by congruence. assert (tc2 = tc) by congruence.
  subst r2 col2 tr2 tc2. unfold withPromotion.
  destruct m1 as [a1 a2 a3 a4 a5 a6 a7], m2 as [e1 e2 e3 e4 e5 e6 e7].
  cbn [fromRow fromCol toRow toCol promotion isEnPassant isCastling] in *.
  clear Hp1 Hp2. subst. reflexivity.
Qed.

Lemma NoDup_allSquares : NoDup allSquares.
Proof. apply (bool_decide_unpack _). vm_compute. exact I. Qed.

Lemma NoDup_pushMoves b ep c r col tr tc :
  NoDup (pushMoves b ep c r col tr tc).
Proof.
  unfold pushMoves. case_match; [|apply NoDup_singleton].
  apply NoDup_fmap_2_strong; [|apply (bool_decide_unpack _); by vm_compute].
  intros t1 t2 _ _ [=]. done.
Qed.

Lemma getLegalMoves_to_NoDup ep c r col tgts : ∀ b moves moves' b',
  NoDup tgts → NoDup moves →
  (∀ m, m ∈ moves → (fromRow m, fromCol m) = (r, col) →
        (toRow m, toCol m) ∉ tgts) →
  getLegalMoves_to ep c r col tgts b moves = Some (moves', b') →
  NoDup moves'.
Proof.
  induction tgts as [|[tr tc] rest IH];
    intros b moves moves' b' Htg Hmoves Hfresh H; simpl in H.
  - by simplify_eq.
  - apply NoDup_cons in Htg as [Hhead Hrest].
    assert (∀ m, m ∈ moves → (fromRow m, fromCol m) = (r, col) →
                 (toRow m, toCol m) ∉ rest) as Hfresh'.
    { intros m Hm Hfrom Hto. eapply Hfresh; [done..|by right]. }
    destruct (canPieceMoveTo b ep r col tr tc false) as [[]|];
      simpl in H; [|by eapply IH|done].
    destruct (testMove b ep r col tr tc) as [[[] b1]|];
      simpl in H; [|by eapply IH|done].
    eapply IH; [done| | |exact H].
    + apply NoDup_app. split; [done|]. split; [|apply NoDup_pushMoves].
      intros m Hm Hpush.
      apply pushMoves_squares in Hpush as (Ha & Hb & Hc & Hd).
      eapply Hfresh; [done|by rewrite Ha, Hb|]. rewrite Hc, Hd. left.
    + intros m [Hm|Hpush]%elem_of_app Hfrom; [by apply Hfresh'|].
      apply pushMoves_squares in Hpush as (Ha & Hb & Hc & Hd).
      by rewrite Hc, Hd.
Qed.

Lemma getLegalMoves_from_NoDup ep c srcs : ∀ b moves moves' b',
  NoDup srcs → NoDup moves →
  (∀ m, m ∈ moves → (fromRow m, fromCol m) ∉ srcs) →
  getLegalMoves_from ep c srcs b moves = Some (moves', b') →
  NoDup moves'.
Proof.
  induction srcs as [|[r col] rest IH];
    intros b moves moves' b' Hsrc Hmoves Hfresh H; simpl in H.
  - by simplify_eq.
  - apply NoDup_cons in Hsrc as [Hhead Hrest].
    assert (∀ m, m ∈ moves → (fromRow m, fromCol m) ∉ rest) as Hfresh'.
    { intros m Hm Hfrom. eapply Hfresh; [done|by right]. }
    case_bool_decide; [|by eapply IH].
    destruct (getLegalMoves_to ep c r col allSquares b moves)
      as [[moves1 b1]|] eqn:Hto; simpl in H; [|done].
    eapply IH; [done| | |exact H].
    + eapply getLegalMoves_to_NoDup; [apply NoDup_allSquares|done| |exact Hto].
      intros m Hm Hfrom. exfalso. eapply Hfresh; [done|]. rewrite Hfrom. left.
    + apply getLegalMoves_to_inv in Hto as [_ Hto].
      intros m [Hm|(tr & tc & _ & _ & Hpush)]%Hto; [by apply Hfresh'|].
      apply pushMoves_squares in Hpush as (Ha & Hb & _).
      by rewrite Ha, Hb.
Qed.

(** X7.  [getLegalMoves] lists no move twice. *)
Theorem legalMoves_NoDup b ep c moves b' :
  getLegalMoves b ep c = Some (moves, b') → NoDup moves.
Proof.
  intros H. eapply getLegalMoves_from_NoDup; [| | |exact H].
  - apply NoDup_allSquares.
  - apply NoDup_nil_2.
  - intros m Hm. by apply elem_of_nil in Hm.
Qed.
End LegalList.

Section LegalListWitness.
(** After 1.e4 e5 2.Nf3 Nc6 3.Bc4 Bc5 white may castle: the move e1-g1
    is in the list. *)
Lemma legalMoves_squares_witness :
  let g := gameAfter castlingReady in
  let b := board g in
  let ep := enPassantCol g in
  let m := mkMove 7 4 7 6 EMPTY false true in
  getLegalMoves b ep WHITE = Some (legalMovesOf g, b)
  ∧ m ∈ legalMovesOf g
  ∧ isValid (fromRow m) (fromCol m) = true
  ∧ isValid (toRow m) (toCol m) = true
  ∧ (fromRow m, fromCol m) ≠ (toRow m, toCol m)
  ∧ type (sq b (fromRow m) (fromCol m)) ≠ EMPTY
  ∧ color (sq b (fromRow m) (fromCol m)) = WHITE
  ∧ color (sq b (toRow m) (toCol m)) ≠ WHITE
  ∧ accepted b ep (fromRow m) (fromCol m) (toRow m) (toCol m).
Proof.
  intros g b ep m.
  assert (getLegalMoves b ep WHITE = Some (legalMovesOf g, b)) as Hlegal
    by (vm_compute; reflexivity).
  assert (m ∈ legalMovesOf g) as Hin
    by (apply (bool_decide_unpack _); vm_compute; exact I).
  split; [exact Hlegal|]. split; [exact Hin|].
  exact (legalMoves_squares b ep WHITE _ _ m Hlegal Hin).
Defined.

(** With white's pawn on h7 and a black knight on g8, the capture h7xg8
    is listed with each of the four promotion pieces. *)
Lemma legalMoves_promotion_witness :
  let g := gameAfter promotionReady in
  let b := board g in
  let ep := enPassantCol g in
  let m := mkMove 1 7 0 6 ROOK false false in
  getLegalMoves b ep WHITE = Some (legalMovesOf g, b)
  ∧ m ∈ legalMovesOf g
  ∧ if bool_decide (type (sq b (fromRow m) (fromCol m)) = PAWN)
       && ((toRow m =? 0) || (toRow m =? 7))
    then promotion m ∈ [QUEEN; ROOK; BISHOP; KNIGHT]
         ∧ ∀ t, t ∈ [QUEEN; ROOK; BISHOP; KNIGHT] →
                withPromotion m t ∈ legalMovesOf g
    else promotion m = EMPTY.
Proof.
  intros g b ep m.
  assert (getLegalMoves b ep WHITE = Some (legalMovesOf g, b)) as Hlegal
    by (vm_compute; reflexivity).
  assert (m ∈ legalMovesOf g) as Hin
    by (apply (bool_decide_unpack _); vm_compute; exact I).
  split; [exact Hlegal|]. split; [exact Hin|].
  exact (legalMoves_promotion b ep WHITE _ _ m Hlegal Hin).
Defined.

(** The rook and the queen promotion of h7xg8 are the same move but for
    the promotion piece. *)
Lemma legalMoves_sameSquares_witness :
  let g := gameAfter promotionReady in
  let b := board g in
  let ep := enPassantCol g in
  let m1 := mkMove 1 7 0 6 ROOK false false in
  let m2 := mkMove 1 7 0 6 QUEEN false false in
  getLegalMoves b ep WHITE = Some (legalMovesOf g, b)
  ∧ m1 ∈ legalMovesOf g
  ∧ m2 ∈ legalMovesOf g
  ∧ sameSquares m1 m2 = true
  ∧ m2 = withPromotion m1 (promotion m2).
Proof.
  intros g b ep m1 m2.
  assert (getLegalMoves b ep WHITE = Some (legalMovesOf g, b)) as Hlegal
    by (vm_compute; reflexivity).
  assert (m1 ∈ legalMovesOf g) as Hin1
    by (apply (bool_decide_unpack _); vm_compute; exact I).
  assert (m2 ∈ legalMovesOf g) as Hin2
    by (apply (bool_decide_unpack _); vm_compute; exact I).
  assert (sameSquares m1 m2 = true) as Hsame by (vm_compute; reflexivity).
  split; [exact Hlegal|]. split; [exact Hin1|]. split; [exact Hin2|].
  split; [exact Hsame|].
  exact (legalMoves_sameSquares b ep WHITE _ _ m1 m2 Hlegal Hin1 Hin2 Hsame).
Defined.

(** The thirty-odd moves of white after 1.e4 e5 2.Nf3 Nc6 3.Bc4 Bc5 are
    listed once each. *)
Lemma legalMoves_NoDup_witness :
  let g := gameAfter castlingReady in
  getLegalMoves (board g) (enPassantCol g) WHITE
    = Some (legalMovesOf g, board g)
  ∧ NoDup (legalMovesOf g).
Proof.
  intros g.
  assert (getLegalMoves (board g) (enPassantCol g) WHITE
          = Some (legalMovesOf g, board g)) as Hlegal
    by (vm_compute; reflexivity).
  split; [exact Hlegal|].
  exact (legalMoves_NoDup (board g) (enPassantCol g) WHITE _ _ Hlegal).
Defined.
End LegalListWitness.

(** ** Finding the king *)

Section FindKing.
Implicit Types (b : Board) (c : Color).

#[local] Opaque allSquares.

Lemma findKingIn_None b c sqs :
  findKingIn b c sqs = None ↔
  ∀ r col, (r, col) ∈ sqs →
           ¬ (type (sq b r col) = KING ∧ color (sq b r col) = c).
Proof.
  induction sqs as [|[r' col'] rest IH]; simpl.
  - split; [|done]. intros _ r col Hin. by apply elem_of_nil in Hin.
  - destruct (bool_decide (type (sq b r' col') = KING)
              && bool_decide (color (sq b r' col') = c)) eqn:Hk.
    + split; [done|]. intros Hno. exfalso.
      apply andb_true_iff in Hk as [Ht Hc].
      apply bool_decide_eq_true in Ht, Hc.
      apply (Hno r' col'); [left|done].
    + rewrite IH. apply andb_false_iff in Hk.
      split.
      * intros Hrest r col [[= -> ->]|Hin]%elem_of_cons; [|by apply Hrest].
        intros [Ht Hc]. destruct Hk as [Hk|Hk];
          apply bool_decide_eq_false in Hk; done.
      * intros Hall r col Hin. apply Hall. by right.
Qed.

(** X8.  [findKing] returns a square of the board that holds the king of
    the asked color, and finds none exactly when no square of the board
    holds one. *)
Theorem findKing_spec b c :
  match findKing b c with
  | Some (r, col) =>
      isValid r col = true
      ∧ type (sq b r col) = KING ∧ color (sq b r col) = c
  | None =>
      ∀ r col, isValid r col = true →
               ¬ (type (sq b r col) = KING ∧ color (sq b r col) = c)
  end.
Proof.
  unfold findKing. destruct (findKingIn b c allSquares) as [[r col]|] eqn:H.
  - apply findKingIn_Some in H as (Hin & Ht & Hc).
    by apply elem_of_allSquares in Hin.
  - intros r col Hv. eapply findKingIn_None; [exact H|].
    by apply elem_of_allSquares.
Qed.

(** X9.  On a board of 64 squares with the king of color [c] on it,
    [getLegalMoves] returns a list of moves and leaves the board as it
    found it, every trial move having been taken back. *)
Theorem getLegalMoves_restores b ep c :
  wfBoard b → hasKing b c →
  ∃ moves, getLegalMoves b ep c = Some (moves, b).
Proof.
  intros Hwf Hking.
  destruct (getLegalMoves_total b ep c Hwf Hking) as [[moves b'] H].
  exists moves. by rewrite (getLegalMoves_board _ _ _ _ _ H) in H.
Qed.
End FindKing.

Section FindKingWitness.
Lemma getLegalMoves_restores_witness :
  wfBoard setupBoard ∧ hasKing setupBoard WHITE
  ∧ ∃ moves, getLegalMoves setupBoard (-1) WHITE = Some (moves, setupBoard).
Proof.
  assert (hasKing setupBoard WHITE) as Hking by (vm_compute; eauto).
  split; [exact wfBoard_setupBoard|]. split; [exact Hking|].
  exact (getLegalMoves_restores setupBoard (-1) WHITE
           wfBoard_setupBoard Hking).
Defined.
End FindKingWitness.

(** ** The position key *)

Section PositionKey.
Implicit Types (b : Board) (c : Color).

#[local] Opaque allSquares.

Lemma digitChar_typeCode t1 t2 :
  digitChar (typeCode t1) = digitChar (typeCode t2) → t1 = t2.
Proof. destruct t1, t2; intros H; try done; by vm_compute in H. Qed.

Lemma digitChar_colorCode c1 c2 :
  digitChar (colorCode c1) = digitChar (colorCode c2) → c1 = c2.
Proof. destruct c1, c2; intros H; try done; by vm_compute in H. Qed.

Lemma positionKey_fold b1 b2 (k1 k2 : string) sqs :
  foldr (λ '(r, c) k,
           String (digitChar (typeCode (type (sq b1 r c))))
             (String (digitChar (colorCode (color (sq b1 r c)))) k))
        k1 sqs
  = foldr (λ '(r, c) k,
           String (digitChar (typeCode (type (sq b2 r c))))
             (String (digitChar (colorCode (color (sq b2 r c)))) k))
        k2 sqs
  ↔ k1 = k2
    ∧ ∀ r col, (r, col) ∈ sqs →
        type (sq b1 r col) = type (sq b2 r col)
        ∧ color (sq b1 r col) = color (sq b2 r col).
Proof.
  induction sqs as [|[r col] rest IH]; simpl.
  - split; [|by intros [-> _]]. intros ->. split; [done|].
    intros r col Hin. by apply elem_of_nil in Hin.
  - split.
    + intros [= Ht Hc Hrest]. apply IH in Hrest as [-> Hrest].
      apply digitChar_typeCode in Ht. apply digitChar_colorCode in Hc.
      split; [done|].
      intros r' col' [[= -> ->]|Hin]%elem_of_cons; [done|by apply Hrest].
    + intros [-> Hall].
      destruct (Hall r col) as [-> ->]; [left|]. do 2 f_equal.
      apply IH. split; [done|]. intros r' col' Hin. apply Hall. by right.
Qed.

(** X10.  Two positions have the same key exactly when the same side is to
    move and every square of the board holds a piece of the same type and
    color in both; whether a piece has moved and the en-passant target are
    not part of the key. *)
Theorem getPositionKey_inj b1 c1 b2 c2 :
  getPositionKey b1 c1 = getPositionKey b2 c2 ↔
  c1 = c2
  ∧ ∀ r col, isValid r col = true →
      type (sq b1 r col) = type (sq b2 r col)
      ∧ color (sq b1 r col) = color (sq b2 r col).
Proof.
  unfold getPositionKey. rewrite positionKey_fold. split.
  - intros [[= Hc] Hall]. apply digitChar_colorCode in Hc.
    split; [done|]. intros r col Hv. apply Hall.
    by apply elem_of_allSquares.
  - intros [-> Hall]. split; [done|]. intros r col Hin. apply Hall.
    by apply elem_of_allSquares.
Qed.
End PositionKey.

(** ** Reading a move *)

Section ParseMove.
Implicit Types (s : string) (m : Move).

Lemma charCode_consts :
  charCode "a" = 97 ∧ charCode "0" = 48 ∧ charCode "h" = 104
  ∧ charCode "A" = 65 ∧ charCode "H" = 72 ∧ charCode "1" = 49
  ∧ charCode "8" = 56.
Proof. by vm_compute. Qed.

(** X11.  [parseMove] accepts a text exactly when it has at least four
    characters, the first and third a file letter from a to h in either
    case, and the second and fourth a rank digit from 1 to 8; what follows
    the fourth character never makes it refuse. *)
Theorem parseMove_accepts s m :
  let at_ i := charCode (default zero (String.get i s)) in
  let file x :=
    charCode "a" <= x <= charCode "h" ∨ charCode "A" <= x <= charCode "H" in
  let rank x := charCode "1" <= x <= charCode "8" in
  fst (parseMove s m) = true ↔
  (4 ≤ String.length s)%nat
  ∧ file (at_ 0%nat) ∧ rank (at_ 1%nat) ∧ file (at_ 2%nat) ∧ rank (at_ 3%nat).
Proof.
  intros at_ file rank. unfold parseMove, file, rank.
  destruct charCode_consts as (-> & -> & -> & -> & -> & -> & ->).
  destruct (String.length s <? 4)%nat eqn:Hlen.
  - apply Nat.ltb_lt in Hlen. simpl. split; [done|lia].
  - apply Nat.ltb_ge in Hlen. cbn [fst].
    rewrite andb_true_iff, !isValid_spec. unfold lowerAt. fold (at_ 0%nat).
    fold (at_ 1%nat). fold (at_ 2%nat). fold (at_ 3%nat).
    generalize (at_ 0%nat) (at_ 1%nat) (at_ 2%nat) (at_ 3%nat).
    intros x0 x1 x2 x3. unfold tolower.
    repeat match goal with
           | |- context [(?a <=? ?b) && (?c <=? ?d)] =>
               destruct (Z.leb_spec a b); destruct (Z.leb_spec c d);
               cbn [andb]
           end; lia.
Qed.

Lemma parse_file col :
  0 <= col < 8 →
  tolower (charCode (ascii_of_nat (Z.to_nat (charCode "a" + col))))
  - charCode "a" = col.
Proof.
  intros H.
  assert (col = 0 ∨ col = 1 ∨ col = 2 ∨ col = 3 ∨ col = 4 ∨ col = 5
          ∨ col = 6 ∨ col = 7) as Hcases by lia.
  destruct_or!; subst; by vm_compute.
Qed.

Lemma parse_rank r :
  0 <= r < 8 →
  8 - (tolower (charCode (ascii_of_nat (Z.to_nat (charCode "0" + (8 - r)))))
       - charCode "0") = r.
Proof.
  intros H.
  assert (r = 0 ∨ r = 1 ∨ r = 2 ∨ r = 3 ∨ r = 4 ∨ r = 5
          ∨ r = 6 ∨ r = 7) as Hcases by lia.
  destruct_or!; subst; by vm_compute.
Qed.

Lemma parse_squareText fr fc tr tc m :
  isValid fr fc = true → isValid tr tc = true →
  parseMove (squareText fr fc (squareText tr tc EmptyString)) m
  = (true, mkMove fr fc tr tc (promotion m) (isEnPassant m) (isCastling m)).
Proof.
  intros Hv Hv'. pose proof Hv as Hfrom. pose proof Hv' as Hto.
  apply isValid_spec in Hfrom as [Hfr Hfc], Hto as [Htr Htc].
  unfold parseMove, squareText, lowerAt.
  cbn [String.length Nat.ltb Nat.leb String.get default id].
  rewrite !parse_file, !parse_rank by done. by rewrite Hv, Hv'.
Qed.

(** X12.  The four-character text of two squares of the board, each
    written as file letter and rank digit, is read back by [parseMove] as
    the move between these squares, and the other fields of the move are
    left as they were. *)
Theorem parseMove_squareText fr fc tr tc m :
  isValid fr fc = true → isValid tr tc = true →
  parseMove (squareText fr fc (squareText tr tc EmptyString)) m
  = (true, mkMove fr fc tr tc (promotion m) (isEnPassant m) (isCastling m)).
Proof. apply parse_squareText. Qed.
End ParseMove.

Section ParseMoveWitness.
(** The text e2e4 names the move from row 6, column 4 to row 4,
    column 4. *)
Lemma parseMove_squareText_witness :
  isValid 6 4 = true ∧ isValid 4 4 = true
  ∧ parseMove (squareText 6 4 (squareText 4 4 EmptyString)) defaultMove
    = (true, mkMove 6 4 4 4 (promotion defaultMove)
               (isEnPassant defaultMove) (isCastling defaultMove)).
Proof.
  split; [reflexivity|]. split; [reflexivity|].
  exact (parseMove_squareText 6 4 4 4 defaultMove eq_refl eq_refl).
Defined.
End ParseMoveWitness.

(** ** The steps of a game *)

Section GameSteps.
Implicit Types (g : ChessGame) (m : Move).

(** What a command that returns has done to the object. *)
Lemma command_cases g cmd out g' :
  consistent g →
  command g cmd = Some (out, g') →
  g' = g ∨ g' = undo g ∨ g' = redo g
  ∨ ∃ moves m,
      getLegalMoves (board g) (enPassantCol g) (currentPlayer g)
      = Some (moves, board g)
      ∧ m ∈ moves ∧ g' = makeMove g m.
Proof.
  intros Hg. destruct cmd as [| | |s|]; simpl.
  - intros [= _ <-]. by left.
  - intros Hp. pose proof (consistent_undo _ Hg) as Hu.
    apply printState_unchanged in Hp as ->; [|by apply consistent_key].
    right. by left.
  - intros Hp. pose proof (consistent_redo _ Hg) as Hr.
    apply printState_unchanged in Hp as ->; [|by apply consistent_key].
    right. right. by left.
  - destruct (parseMove s defaultMove) as [parsed u].
    destruct parsed; simpl.
    + destruct (getLegalMoves _ _ _) as [[moves b]|] eqn:Hlegal;
        simpl; [|done].
      pose proof (getLegalMoves_board _ _ _ _ _ Hlegal) as ->.
      rewrite withBoard_same.
      destruct (List.find (sameSquares u) moves) as [a|] eqn:Hfind.
      * intros Hp. pose proof (consistent_makeMove _ a Hg) as Hm.
        apply printState_unchanged in Hp as ->; [|by apply consistent_key].
        right. right. right. exists moves, a. split; [done|].
        split; [|done]. apply List.find_some in Hfind as [Hin _].
        by apply list_elem_of_In.
      * destruct (printState g) as [[out1 g1]|] eqn:Hp; simpl; [|done].
        apply printState_unchanged in Hp as ->; [|by apply consistent_key].
        intros [= _ <-]. by left.
    + destruct (printState g) as [[out1 g1]|] eqn:Hp; simpl; [|done].
      apply printState_unchanged in Hp as ->; [|by apply consistent_key].
      intros [= _ <-]. by left.
  - intros Hp.
    apply printState_unchanged in Hp as ->; [|by apply consistent_key].
    by left.
Qed.

(** Induction on the undos, redos and legal moves that lead to a
    reachable object. *)
Lemma reachable_steps (Q : ChessGame → Prop) :
  Q newGame →
  (∀ g, reachable g → Q g → Q (undo g)) →
  (∀ g, reachable g → Q g → Q (redo g)) →
  (∀ g moves m,
     reachable g → Q g →
     getLegalMoves (board g) (enPassantCol g) (currentPlayer g)
     = Some (moves, board g) →
     m ∈ moves → Q (makeMove g m)) →
  ∀ g, reachable g → Q g.
Proof.
  intros Hnew Hundo Hredo Hmove g.
  induction 1 as [|g cmd out g' Hreach IH Hcmd]; [done|].
  pose proof (reachable_consistent _ Hreach) as Hg.
  destruct (command_cases _ _ _ _ Hg Hcmd)
    as [->|[->|[->|(moves & m & Hlegal & Hin & ->)]]]; eauto.
Qed.

(** A property of positions that the start position has and legal moves
    keep holds of the live position and of every snapshot. *)
Lemma reachable_snapshots (P : GameState.t → Prop) :
  P (getState newGame) →
  (∀ g moves m,
     reachable g → P (getState g) →
     getLegalMoves (board g) (enPassantCol g) (currentPlayer g)
     = Some (moves, board g) →
     m ∈ moves → P (getState (makeMove g m))) →
  ∀ g, reachable g →
       P (getState g) ∧ Forall P (undoStack g) ∧ Forall P (redoStack g).
Proof.
  intros Hnew Hmove. apply reachable_steps.
  - split; [done|]. split; constructor.
  - intros [b p ec er hc pc us rs h cur] _ (Hs & Hu & Hr).
    unfold undo. simpl in *. destruct us as [|[b' p' ec' er' hc' pc'] us];
      [done|]. simpl. apply Forall_cons in Hu as [Hprev Hu].
    split; [done|]. split; [done|]. by constructor.
  - intros [b p ec er hc pc us rs h cur] _ (Hs & Hu & Hr).
    unfold redo. simpl in *. destruct rs as [|[b' p' ec' er' hc' pc'] rs];
      [done|]. simpl. apply Forall_cons in Hr as [Hnext Hr].
    split; [done|]. split; [by constructor|done].
  - intros g moves m Hreach (Hs & Hu & Hr) Hlegal Hin.
    split; [by eapply Hmove|]. unfold makeMove. simpl.
    split; [by constructor|constructor].
Qed.

(** X13.  In every reachable object the log entries after the cursor are
    as many as the moves that can be redone, and the moves that can be
    undone are no more than the log entries up to the cursor: the cursor
    never runs off the log, whose length is at least the depth of the two
    stacks together. *)
Theorem history_cursor g :
  reachable g →
  match historyCurrent g with
  | Some i =>
      (S i + length (redoStack g) = length (history g))%nat
      ∧ (length (undoStack g) ≤ S i)%nat
  | None =>
      length (redoStack g) = length (history g) ∧ undoStack g = []
  end.
Proof.
  revert g. apply reachable_steps.
  - done.
  - intros [b p ec er hc pc us rs h cur] _. unfold undo. simpl.
    destruct us as [|s us]; [done|]. simpl.
    destruct cur as [[|j]|]; simpl.
    + intros [Hlen Hdepth]. split; [lia|]. destruct us; [done|simpl in *; lia].
    + intros [Hlen Hdepth]. lia.
    + by intros [_ ?].
  - intros [b p ec er hc pc us rs h cur] _. unfold redo. simpl.
    destruct rs as [|s rs]; [done|]. simpl. destruct cur as [i|]; simpl.
    + intros [Hlen Hdepth]. rewrite bool_decide_eq_true_2 by lia. lia.
    + intros [Hlen ->]. destruct h; [done|]. simpl in *. lia.
  - intros [b p ec er hc pc us rs h cur] moves m _ Hcur _ _.
    unfold makeMove. simpl in *. rewrite length_app. simpl.
    split; [lia|]. destruct cur as [i|]; [lia|].
    destruct Hcur as [_ ->]. simpl. lia.
Qed.

(** X14.  The log of moves is never shortened or rewritten: a command of
    [play] leaves it as it is or appends one move, also when moves have
    been undone before. *)
Theorem history_grows g :
  reachable g →
  ∀ cmd out g',
    command g cmd = Some (out, g') →
    history g' = history g ∨ ∃ m, history g' = history g ++ [m].
Proof.
  intros Hreach cmd out g' Hcmd.
  pose proof (reachable_consistent _ Hreach) as Hg.
  destruct (command_cases _ _ _ _ Hg Hcmd)
    as [->|[->|[->|(moves & m & _ & _ & ->)]]].
  - by left.
  - left. unfold undo. by destruct (undoStack g).
  - left. unfold redo. by destruct (redoStack g).
  - right. by exists m.
Qed.

(** X15.  Every count of the repetition table of a reachable object is at
    least 1, and the current position is counted in it. *)
Theorem positionCount_positive g :
  reachable g →
  1 <= occurrences g
  ∧ ∀ k n, positionCount g !! k = Some n → 1 <= n.
Proof.
  intros Hreach.
  assert (∀ k n, positionCount g !! k = Some n → 1 <= n) as Hpos.
  { refine (proj1 (reachable_snapshots
      (λ s, ∀ k n, GameState.positionCount s !! k = Some n → 1 <= n)
      _ _ g Hreach)).
    - intros k n. simpl. unfold increment, subscript.
      rewrite lookup_empty. simpl.
      intros [[_ <-]|[_ H]]%lookup_insert_Some; [lia|].
      by rewrite lookup_empty in H.
    - intros g0 moves m _ Hg0 _ _ k n. unfold makeMove. simpl.
      set (key := getPositionKey _ _). unfold increment, subscript.
      destruct (positionCount g0 !! key) as [n0|] eqn:Hkey; simpl.
      + intros [[_ <-]|[_ H]]%lookup_insert_Some; [|by eapply Hg0].
        apply Hg0 in Hkey. lia.
      + intros [[_ <-]|[_ H]]%lookup_insert_Some; [lia|by eapply Hg0]. }
  split; [|done].
  pose proof (reachable_consistent _ Hreach) as ([_ [n Hn]] & _).
  simpl in Hn. unfold occurrences. rewrite Hn. simpl. by eapply Hpos.
Qed.
End GameSteps.

(** ** Undoing and redoing several moves *)

Section UndoRedoMany.
Implicit Types (g h : ChessGame) (m : Move).

Lemma undo_redo_one g :
  undoStack g ≠ [] →
  getState (redo (undo g)) = getState g
  ∧ undoStack (redo (undo g)) = undoStack g
  ∧ redoStack (redo (undo g)) = redoStack g.
Proof.
  intros Hne. destruct g as [b p ec er hc pc us rs hs cur].
  destruct us as [|[b' p' ec' er' hc' pc'] us]; [done|].
  split_and!; reflexivity.
Qed.

Lemma redo_undo_one g :
  redoStack g ≠ [] →
  getState (undo (redo g)) = getState g
  ∧ undoStack (undo (redo g)) = undoStack g
  ∧ redoStack (undo (redo g)) = redoStack g.
Proof.
  intros Hne. destruct g as [b p ec er hc pc us rs hs cur].
  destruct rs as [|[b' p' ec' er' hc' pc'] rs]; [done|].
  split_and!; reflexivity.
Qed.

(** [undo] and [redo] act on the position and the two stacks alone. *)
Lemma undo_position g h :
  getState g = getState h → undoStack g = undoStack h →
  redoStack g = redoStack h →
  getState (undo g) = getState (undo h)
  ∧ undoStack (undo g) = undoStack (undo h)
  ∧ redoStack (undo g) = redoStack (undo h).
Proof.
  destruct g as [b p ec er hc pc us rs hs cur].
  destruct h as [b' p' ec' er' hc' pc' us' rs' hs' cur'].
  unfold undo, getState. simpl. intros [= -> -> -> -> -> ->] -> ->.
  by destruct us'.
Qed.

Lemma redo_position g h :
  getState g = getState h → undoStack g = undoStack h →
  redoStack g = redoStack h →
  getState (redo g) = getState (redo h)
  ∧ undoStack (redo g) = undoStack (redo h)
  ∧ redoStack (redo g) = redoStack (redo h).
Proof.
  destruct g as [b p ec er hc pc us rs hs cur].
  destruct h as [b' p' ec' er' hc' pc' us' rs' hs' cur'].
  unfold redo, getState. simpl. intros [= -> -> -> -> -> ->] -> ->.
  by destruct rs'.
Qed.

Lemma history_undo g : history (undo g) = history g.
Proof. unfold undo. by destruct (undoStack g). Qed.

Lemma history_redo g : history (redo g) = history g.
Proof. unfold redo. by destruct (redoStack g). Qed.

Lemma history_iter_undo k g : history (Nat.iter k undo g) = history g.
Proof. induction k as [|k IH]; simpl; [done|]. by rewrite history_undo. Qed.

Lemma history_iter_redo k g : history (Nat.iter k redo g) = history g.
Proof. induction k as [|k IH]; simpl; [done|]. by rewrite history_redo. Qed.

Lemma undoStack_undo g :
  length (undoStack (undo g)) = pred (length (undoStack g)).
Proof. destruct g as [b p ec er hc pc [|s us] rs hs cur]; reflexivity. Qed.

Lemma redoStack_redo g :
  length (redoStack (redo g)) = pred (length (redoStack g)).
Proof. destruct g as [b p ec er hc pc us [|s rs] hs cur]; reflexivity. Qed.

Lemma undo_redo_iter k : ∀ g,
  (k ≤ length (undoStack g))%nat →
  getState (Nat.iter k redo (Nat.iter k undo g)) = getState g
  ∧ undoStack (Nat.iter k redo (Nat.iter k undo g)) = undoStack g
  ∧ redoStack (Nat.iter k redo (Nat.iter k undo g)) = redoStack g.
Proof.
  induction k as [|k IH]; intros g Hk; [done|].
  rewrite (Nat.iter_succ_r k undo g), Nat.iter_succ.
  assert (undoStack g ≠ []) as Hne
    by (destruct (undoStack g); [simpl in Hk; lia|done]).
  destruct (IH (undo g)) as (E1 & E2 & E3);
    [rewrite undoStack_undo; lia|].
  destruct (redo_position _ _ E1 E2 E3) as (R1 & R2 & R3).
  destruct (undo_redo_one g Hne) as (H1 & H2 & H3).
  split_and!; congruence.
Qed.

Lemma redo_undo_iter k : ∀ g,
  (k ≤ length (redoStack g))%nat →
  getState (Nat.iter k undo (Nat.iter k redo g)) = getState g
  ∧ undoStack (Nat.iter k undo (Nat.iter k redo g)) = undoStack g
  ∧ redoStack (Nat.iter k undo (Nat.iter k redo g)) = redoStack g.
Proof.
  induction k as [|k IH]; intros g Hk; [done|].
  rewrite (Nat.iter_succ_r k redo g), Nat.iter_succ.
  assert (redoStack g ≠ []) as Hne
    by (destruct (redoStack g); [simpl in Hk; lia|done]).
  destruct (IH (redo g)) as (E1 & E2 & E3);
    [rewrite redoStack_redo; lia|].
  destruct (undo_position _ _ E1 E2 E3) as (R1 & R2 & R3).
  destruct (redo_undo_one g Hne) as (H1 & H2 & H3).
  split_and!; congruence.
Qed.

(** X16.  Undoing [k] moves and then redoing [k] moves, when there are
    [k] moves to undo, restores the position, the two stacks and the
    log. *)
Theorem undo_redo_many k g :
  (k ≤ length (undoStack g))%nat →
  let g' := Nat.iter k redo (Nat.iter k undo g) in
  getState g' = getState g
  ∧ undoStack g' = undoStack g
  ∧ redoStack g' = redoStack g
  ∧ history g' = history g.
Proof.
  intros Hk g'. subst g'.
  destruct (undo_redo_iter k g Hk) as (H1 & H2 & H3).
  split_and!; [done..|].
  by rewrite history_iter_redo, history_iter_undo.
Qed.

(** X17.  Redoing [k] moves and then undoing [k] moves, when there are
    [k] moves to redo, restores the position, the two stacks and the
    log. *)
Theorem redo_undo_many k g :
  (k ≤ length (redoStack g))%nat →
  let g' := Nat.iter k undo (Nat.iter k redo g) in
  getState g' = getState g
  ∧ undoStack g' = undoStack g
  ∧ redoStack g' = redoStack g
  ∧ history g' = history g.
Proof.
  intros Hk g'. subst g'.
  destruct (redo_undo_iter k g Hk) as (H1 & H2 & H3).
  split_and!; [done..|].
  by rewrite history_iter_undo, history_iter_redo.
Qed.

Lemma undo_top g prev rest :
  undoStack g = prev :: rest →
  getState (undo g) = prev
  ∧ undoStack (undo g) = rest
  ∧ redoStack (undo g) = getState g :: redoStack g
  ∧ history (undo g) = history g.
Proof.
  destruct g as [b p ec er hc pc us rs hs cur]. simpl. intros ->.
  by destruct prev.
Qed.

Lemma redo_top g next rest :
  redoStack g = next :: rest →
  getState (redo g) = next
  ∧ undoStack (redo g) = getState g :: undoStack g
  ∧ redoStack (redo g) = rest
  ∧ history (redo g) = history g.
Proof.
  destruct g as [b p ec er hc pc us rs hs cur]. simpl. intros ->.
  by destruct next.
Qed.

Lemma makeMove_stacks g m :
  undoStack (makeMove g m) = getState g :: undoStack g
  ∧ redoStack (makeMove g m) = []
  ∧ history (makeMove g m) = history g ++ [m]
  ∧ historyCurrent (makeMove g m) = Some (length (history g)).
Proof. split_and!; reflexivity. Qed.

(** X18.  A move followed by [undo] gives back the position and the undo
    stack held before the move; the move stays in the log and is the one
    move to redo, whatever could be redone before. *)
Theorem undo_makeMove g m :
  getState (undo (makeMove g m)) = getState g
  ∧ undoStack (undo (makeMove g m)) = undoStack g
  ∧ redoStack (undo (makeMove g m)) = [getState (makeMove g m)]
  ∧ history (undo (makeMove g m)) = history g ++ [m]
  ∧ getState (redo (undo (makeMove g m))) = getState (makeMove g m).
Proof.
  destruct (makeMove_stacks g m) as (Hu & Hr & Hh & _).
  destruct (undo_top _ _ _ Hu) as (H1 & H2 & H3 & H4).
  rewrite Hr in H3. rewrite Hh in H4.
  destruct (redo_top _ _ _ H3) as (H5 & _).
  by split_and!.
Qed.
End UndoRedoMany.

Section GameStepsWitness.
(** After 1.e4 e5 2.Nf3 Nc6 3.Bc4 Bc5 the cursor is on the sixth entry of
    the log. *)
Lemma history_cursor_witness :
  let g := gameAfter castlingReady in
  reachable g
  ∧ match historyCurrent g with
    | Some i =>
        (S i + length (redoStack g) = length (history g))%nat
        ∧ (length (undoStack g) ≤ S i)%nat
    | None =>
        length (redoStack g) = length (history g) ∧ undoStack g = []
    end.
Proof.
  intros g.
  assert (reachable g) as Hg
    by exact (gameAfter_reachable castlingReady castlingReady_played).
  split; [exact Hg|]. exact (history_cursor g Hg).
Defined.

Lemma history_grows_witness :
  let g := gameAfter castlingReady in
  reachable g
  ∧ ∀ cmd out g',
      command g cmd = Some (out, g') →
      history g' = history g ∨ ∃ m, history g' = history g ++ [m].
Proof.
  intros g.
  assert (reachable g) as Hg
    by exact (gameAfter_reachable castlingReady castlingReady_played).
  split; [exact Hg|]. exact (history_grows g Hg).
Defined.

Lemma positionCount_positive_witness :
  let g := gameAfter castlingReady in
  reachable g
  ∧ 1 <= occurrences g
  ∧ ∀ k n, positionCount g !! k = Some n → 1 <= n.
Proof.
  intros g.
  assert (reachable g) as Hg
    by exact (gameAfter_reachable castlingReady castlingReady_played).
  split; [exact Hg|]. exact (positionCount_positive g Hg).
Defined.

(** Three of the six moves are undone and redone. *)
Lemma undo_redo_many_witness :
  let g := gameAfter castlingReady in
  let g' := Nat.iter 3 redo (Nat.iter 3 undo g) in
  (3 ≤ length (undoStack g))%nat
  ∧ getState g' = getState g
  ∧ undoStack g' = undoStack g
  ∧ redoStack g' = redoStack g
  ∧ history g' = history g.
Proof.
  intros g.
  assert (3 ≤ length (undoStack g))%nat as Hk
    by (apply (bool_decide_unpack _); vm_compute; exact I).
  split; [exact Hk|]. exact (undo_redo_many 3 g Hk).
Defined.

(** With two moves undone, both are redone and undone again. *)
Lemma redo_undo_many_witness :
  let g := Nat.iter 2 undo (gameAfter castlingReady) in
  let g' := Nat.iter 2 undo (Nat.iter 2 redo g) in
  (2 ≤ length (redoStack g))%nat
  ∧ getState g' = getState g
  ∧ undoStack g' = undoStack g
  ∧ redoStack g' = redoStack g
  ∧ history g' = history g.
Proof.
  intros g.
  assert (2 ≤ length (redoStack g))%nat as Hk
    by (apply (bool_decide_unpack _); vm_compute; exact I).
  split; [exact Hk|]. exact (redo_undo_many 2 g Hk).
Defined.
End GameStepsWitness.

(** ** The pieces of a reachable position *)

Section Pieces.
Implicit Types (g : ChessGame) (b : Board) (c : Color) (m : Move).

#[local] Opaque allSquares.

(** What [getLegalMoves] has checked of a move of its list. *)
Lemma getLegalMoves_facts b ep c moves b' m :
  getLegalMoves b ep c = Some (moves, b') →
  m ∈ moves →
  isValid (fromRow m) (fromCol m) = true
  ∧ isValid (toRow m) (toCol m) = true
  ∧ color (sq b (fromRow m) (fromCol m)) = c
  ∧ canPieceMoveTo b ep (fromRow m) (fromCol m) (toRow m) (toCol m) false
    = Some true
  ∧ m ∈ pushMoves b ep c (fromRow m) (fromCol m) (toRow m) (toCol m).
Proof.
  intros Hlegal Hin.
  apply (getLegalMoves_elem _ _ _ _ _ m) in Hlegal.
  apply Hlegal in Hin as (r & col & tr & tc & Hv & Hv' & Hc & [Hcan _] & Hm).
  pose proof (pushMoves_squares _ _ _ _ _ _ _ _ Hm) as (-> & -> & -> & ->).
  clear Hlegal. split_and!; assumption.
Qed.

(** The board after a move between two different squares: the captured
    pawn of an en-passant move is removed, the rook of a castling move is
    set beside the king, and the mover lands, marked as moved and promoted
    if the move says so. *)
Lemma makeMove_board g m :
  wfBoard (board g) →
  isValid (toRow m) (toCol m) = true →
  (fromRow m, fromCol m) ≠ (toRow m, toCol m) →
  board (makeMove g m)
  = let b := board g in
    let p := sq b (fromRow m) (fromCol m) in
    let b1 :=
      if isEnPassant m
      then put b (if bool_decide (color p = WHITE)
                  then toRow m + 1 else toRow m - 1) (toCol m) noPiece
      else b in
    let b2 :=
      if isCastling m
      then put (put b1 (fromRow m)
                    (if fromCol m <? toCol m then toCol m - 1 else toCol m + 1)
                    (sq b1 (fromRow m) (if fromCol m <? toCol m then 7 else 0)))
               (fromRow m) (if fromCol m <? toCol m then 7 else 0) noPiece
      else b1 in
    put (put b2 (toRow m) (toCol m)
             (mkPiece (if bool_decide (promotion m = EMPTY)
                       then type p else promotion m) (color p) true))
        (fromRow m) (fromCol m) noPiece.
Proof.
  intros Hwf Hv Hne. unfold makeMove. simpl.
  set (b := board g). set (p := sq b (fromRow m) (fromCol m)).
  set (b1 := if isEnPassant m then _ else _).
  set (b2 := if isCastling m then _ else _).
  assert (wfBoard b2) as Hwf2.
  { subst b2 b1. destruct (isCastling m), (isEnPassant m);
      repeat apply wfBoard_put; done. }
  rewrite put_put_same. rewrite (sq_put_eq b2) by done.
  destruct (bool_decide (promotion m = EMPTY)); simpl; [done|].
  rewrite sq_put_ne by done. rewrite sq_put_eq by done.
  rewrite <- (put_comm _ (toRow m) (toCol m)) by (intros [=]; apply Hne; congruence).
  by rewrite put_put_same.
Qed.

Lemma sq_put_at b r col p r' col' :
  sq (put b r col p) r' col' = p ∧ (r', col') = (r, col)
  ∨ sq (put b r col p) r' col' = sq b r' col'.
Proof.
  destruct (decide ((r, col) = (r', col'))) as [Heq|Hne];
    [|right; by apply sq_put_ne].
  destruct (sq_put_cases b r col p r' col') as [H|H]; [left|by right].
  by rewrite H.
Qed.

Lemma boardOK_put b r col p :
  boardOK b → pieceOK p ∧ originOK r col p → boardOK (put b r col p).
Proof.
  intros Hb Hp r' col'.
  destruct (sq_put_at b r col p r' col') as [[Heq [= -> ->]]|Heq]; rewrite Heq; [done|].
  apply Hb.
Qed.

Lemma squareOK_noPiece r col : pieceOK noPiece ∧ originOK r col noPiece.
Proof. split; [split; [done|by intros []]|by intros []]. Qed.

Lemma boardOK_setupBoard : boardOK setupBoard.
Proof.
  intros r col. split; [|by left].
  destruct (isValid r col) eqn:Hv;
    [|unfold sq; rewrite Hv; apply squareOK_noPiece; exact 0].
  apply isValid_spec in Hv as [Hr Hcol].
  assert (r = 0 ∨ r = 1 ∨ r = 2 ∨ r = 3 ∨ r = 4 ∨ r = 5 ∨ r = 6 ∨ r = 7)
    as Hrs by lia.
  assert (col = 0 ∨ col = 1 ∨ col = 2 ∨ col = 3 ∨ col = 4 ∨ col = 5
          ∨ col = 6 ∨ col = 7) as Hcs by lia.
  destruct_or!; subst; vm_compute; split; intros; congruence.
Qed.

(** The kings and the rooks of [setupBoard]. *)
Lemma setupBoard_king r col :
  type (sq setupBoard r col) = KING →
  col = 4
  ∧ (r = 7 ∧ color (sq setupBoard r col) = WHITE
     ∨ r = 0 ∧ color (sq setupBoard r col) = BLACK).
Proof.
  intros Ht.
  destruct (isValid r col) eqn:Hv;
    [|unfold sq in Ht; by rewrite Hv in Ht].
  apply isValid_spec in Hv as [Hr Hcol].
  assert (r = 0 ∨ r = 1 ∨ r = 2 ∨ r = 3 ∨ r = 4 ∨ r = 5 ∨ r = 6 ∨ r = 7)
    as Hrs by lia.
  assert (col = 0 ∨ col = 1 ∨ col = 2 ∨ col = 3 ∨ col = 4 ∨ col = 5
          ∨ col = 6 ∨ col = 7) as Hcs by lia.
  destruct_or!; subst; vm_compute in Ht; try discriminate;
    (split; [reflexivity|]); [right|left]; split; vm_compute; reflexivity.
Qed.

Lemma setupBoard_corner r col :
  (r = 0 ∨ r = 7) → (col = 0 ∨ col = 7) →
  sq setupBoard r col
  = mkPiece ROOK (if bool_decide (r = 7) then WHITE else BLACK) false.
Proof. intros [-> | ->] [-> | ->]; vm_compute; reflexivity. Qed.

(** The king that castles is on its square of [setupBoard], and the rook
    of its color in the corner. *)
Lemma castling_home b ep fr fc tr tc :
  boardOK b →
  canPieceMoveTo b ep fr fc tr tc false = Some true →
  type (sq b fr fc) = KING →
  Z.abs (tc - fc) = 2 →
  let c := color (sq b fr fc) in
  let rookCol := if fc <? tc then 7 else 0 in
  (c = WHITE ∨ c = BLACK)
  ∧ fr = (if bool_decide (c = WHITE) then 7 else 0)
  ∧ fc = 4 ∧ tr = fr ∧ (tc = 6 ∨ tc = 2)
  ∧ sq b fr fc = mkPiece KING c false
  ∧ sq b fr rookCol = mkPiece ROOK c false
  ∧ (∀ x, Z.min fc rookCol < x < Z.max fc rookCol →
          type (sq b fr x) = EMPTY).
Proof.
  intros Hb Hcan Hking Hcols c rookCol.
  pose proof (canPieceMoveTo_castling _ _ _ _ _ _ Hcan Hking Hcols)
    as (Htr & Hunmoved & Hrook & Hrunmoved & Hgap & _).
  clear Hcan.
  assert ((if 0 <? tc - fc then 7 else 0) = rookCol) as Hrc.
  { subst rookCol.
    destruct (Z.ltb_spec 0 (tc - fc)), (Z.ltb_spec fc tc); lia. }
  rewrite Hrc in Hrook, Hrunmoved, Hgap.
  destruct (Hb fr fc) as [_ Horigin].
  destruct Horigin as [Hset|(Hrk & _)]; [congruence|done| |congruence].
  pose proof Hking as Hking'. rewrite Hset in Hking'.
  apply setupBoard_king in Hking' as [-> Hside].
  rewrite <- Hset in Hside. fold c in Hside.
  assert (rookCol = 0 ∨ rookCol = 7) as Hcorner
    by (subst rookCol; destruct (4 <? tc); lia).
  destruct (Hb fr rookCol) as [_ Horigin].
  destruct Horigin as [Hrset|(_ & Hcol & _)];
    [congruence|done| |lia].
  rewrite setupBoard_corner in Hrset by lia.
  apply castleGap_true in Hgap as [Hright Hleft].
  split_and!.
  - destruct Hside as [[_ ?]|[_ ?]]; eauto.
  - destruct Hside as [[-> ->]|[-> ->]]; by decide_enum.
  - done.
  - done.
  - lia.
  - destruct (sq b fr 4) as [t col' hm]. simpl in *. by subst.
  - rewrite Hrset. f_equal.
    destruct Hside as [[-> ->]|[-> ->]]; by decide_enum.
  - intros x Hx. subst rookCol.
    destruct (Z.ltb_spec 4 tc), (Z.ltb_spec 0 (tc - 4)); try lia.
    + apply Hright; [done|]. lia.
    + apply Hleft; [done|]. lia.
Qed.

Lemma boardOK_makeMove g moves b' m :
  wfBoard (board g) → boardOK (board g) →
  getLegalMoves (board g) (enPassantCol g) (currentPlayer g)
  = Some (moves, b') →
  m ∈ moves →
  boardOK (board (makeMove g m)).
Proof.
  intros Hwf Hb Hlegal Hin.
  destruct (getLegalMoves_facts _ _ _ _ _ _ Hlegal Hin)
    as (Hv & Hv' & Hc & Hcan & Hm).
  pose proof (pushMoves_tags _ _ _ _ _ _ _ _ Hm) as (Hflag & Hcastle & Hpromo).
  pose proof (canPieceMoveTo_squares _ _ _ _ _ _ _ Hcan) as [Hne0 Hne].
  clear Hm Hlegal Hin.
  rewrite makeMove_board by done. cbv zeta.
  set (b := board g) in *.
  set (p := sq b (fromRow m) (fromCol m)) in *.
  destruct (Hb (fromRow m) (fromCol m)) as [[_ Hcolor] _]. fold p in Hcolor.
  apply boardOK_put; [|apply squareOK_noPiece].
  apply boardOK_put.
  2:{ split; [split|]; simpl; [| |done].
      - intros He. exfalso. case_bool_decide; congruence.
      - intros _. by apply Hcolor. }
  destruct (isCastling m) eqn:Hcast.
  - symmetry in Hcastle. apply andb_true_iff in Hcastle as [Hking Hcols].
    apply bool_decide_eq_true in Hking. apply Z.eqb_eq in Hcols.
    assert (isEnPassant m = false) as ->.
    { rewrite Hflag. rewrite Hking. by decide_enum. }
    pose proof (castling_home _ _ _ _ _ _ Hb Hcan Hking Hcols)
      as (Hside & Hrow & Hfc & Htr & Htc & Hk & Hrk & _).
    clear Hcan. fold p in Hside, Hrow, Hk, Hrk.
    apply boardOK_put; [|apply squareOK_noPiece].
    apply boardOK_put; [done|]. rewrite Hrk. split; [split|]; simpl.
    + done.
    + intros _. destruct Hside as [-> | ->]; done.
    + intros _ _. right. split; [done|]. split.
      * rewrite Hfc. destruct Htc as [-> | ->]; simpl; lia.
      * rewrite Hrow.
        destruct Hside as [-> | ->]; decide_enum; [left|right]; done.
  - clear Hcan. destruct (isEnPassant m); [|done].
    apply boardOK_put; [done|apply squareOK_noPiece].
Qed.

Lemma reachable_boardOK g : reachable g → boardOK (board g).
Proof.
  intros Hreach.
  refine (proj1 (reachable_snapshots (λ s, boardOK (GameState.board s))
                   _ _ g Hreach)).
  - apply boardOK_setupBoard.
  - intros g0 moves m Hr Hb Hlegal Hin. simpl in *.
    pose proof (reachable_consistent _ Hr) as ([Hwf _] & _).
    by eapply boardOK_makeMove.
Qed.

(** X19.  In a reachable position an empty square holds the default piece,
    without color and marked as not moved, and every other square holds a
    white or a black piece. *)
Theorem reachable_pieces g r col :
  reachable g →
  let x := sq (board g) r col in
  (type x = EMPTY → x = noPiece)
  ∧ (type x ≠ EMPTY → color x = WHITE ∨ color x = BLACK).
Proof.
  intros Hreach x. destruct (reachable_boardOK g Hreach r col) as [[H1 H2] _].
  fold x in H1, H2. split; [done|]. intros Hne. apply H2 in Hne.
  destruct (color x); eauto. done.
Qed.

(** X20.  In a reachable position a piece marked as not moved stands on
    the square where [setupBoard] put it, with one exception: the rook of a
    castling move, which [makeMove] sets beside the king on column 3 or 5
    of the home row without marking it. *)
Theorem unmoved_pieces_origin g r col :
  reachable g →
  let x := sq (board g) r col in
  type x ≠ EMPTY → hasMoved x = false →
  x = sq setupBoard r col
  ∨ (type x = ROOK ∧ (col = 3 ∨ col = 5)
     ∧ (r = 7 ∧ color x = WHITE ∨ r = 0 ∧ color x = BLACK)).
Proof.
  intros Hreach x. destruct (reachable_boardOK g Hreach r col) as [_ H].
  exact H.
Qed.

(** X21.  A legal move tagged as castling in a reachable position takes
    the king of the side to move from column 4 of its home row two columns
    aside, with the rook of its color waiting unmoved in the corner on that
    side.  [makeMove] sets the king, marked as moved, on its target and the
    rook, still marked as not moved, on the column the king has passed
    over; the squares they left are empty and no other square changes. *)
Theorem makeMove_castling g moves b' m :
  reachable g →
  getLegalMoves (board g) (enPassantCol g) (currentPlayer g)
  = Some (moves, b') →
  m ∈ moves →
  isCastling m = true →
  let c := currentPlayer g in
  let home := if bool_decide (c = WHITE) then 7 else 0 in
  let rookFrom := if fromCol m <? toCol m then 7 else 0 in
  let rookTo := if fromCol m <? toCol m then 5 else 3 in
  let after := board (makeMove g m) in
  (c = WHITE ∨ c = BLACK)
  ∧ fromRow m = home ∧ fromCol m = 4
  ∧ toRow m = home ∧ (toCol m = 6 ∨ toCol m = 2)
  ∧ sq (board g) home 4 = mkPiece KING c false
  ∧ sq (board g) home rookFrom = mkPiece ROOK c false
  ∧ sq after home (toCol m) = mkPiece KING c true
  ∧ sq after home rookTo = mkPiece ROOK c false
  ∧ sq after home 4 = noPiece
  ∧ sq after home rookFrom = noPiece
  ∧ ∀ r col,
      (r, col) ≠ (home, 4) → (r, col) ≠ (home, toCol m) →
      (r, col) ≠ (home, rookTo) → (r, col) ≠ (home, rookFrom) →
      sq after r col = sq (board g) r col.
Proof.
  intros Hreach Hlegal Hin Hcast. cbv zeta.
  pose proof (reachable_consistent _ Hreach) as ([Hwf _] & _).
  pose proof (reachable_boardOK _ Hreach) as Hb. simpl in Hwf.
  destruct (getLegalMoves_facts _ _ _ _ _ _ Hlegal Hin)
    as (Hv & Hv' & Hc & Hcan & Hm).
  pose proof (pushMoves_tags _ _ _ _ _ _ _ _ Hm) as (Hflag & Hcastle & Hpromo).
  pose proof (canPieceMoveTo_squares _ _ _ _ _ _ _ Hcan) as [Hne0 Hne].
  clear Hm Hlegal Hin.
  rewrite Hcast in Hcastle. symmetry in Hcastle.
  apply andb_true_iff in Hcastle as [Hking Hcols].
  apply bool_decide_eq_true in Hking. apply Z.eqb_eq in Hcols.
  assert (isEnPassant m = false) as Hep.
  { rewrite Hflag. rewrite Hking. by decide_enum. }
  assert (promotion m = EMPTY) as Hpr.
  { apply Hpromo. rewrite Hking. by decide_enum. }
  pose proof (castling_home _ _ _ _ _ _ Hb Hcan Hking Hcols)
    as (Hside & Hrow & Hfc & Htr & Htc & Hk & Hrk & _).
  clear Hcan Hflag Hpromo. cbv zeta in Hside, Hrow, Hk, Hrk.
  rewrite Hc in Hside, Hrow, Hk, Hrk.
  rewrite makeMove_board by done. cbv zeta.
  rewrite Hcast, Hep, Hpr, Hk. cbv iota. rewrite Hrk.
  rewrite Htr, Hrow, Hfc in *.
  set (c := currentPlayer g) in *.
  set (home := if bool_decide (c = WHITE) then 7 else 0) in *.
  assert (0 <= home < 8) as Hhome
    by (subst home; destruct (bool_decide (c = WHITE)); lia).
  clear Hking Hcols Hne0 Hne Hv Hv' Hrow Hfc Htr Hc Hb Hcast Hep Hpr.
  set (b := board g) in *.
  assert (∀ x y : Z, x ≠ y → (home, x) ≠ (home, y)) as Hcolne
    by (intros x y Hxy [=]; done).
  assert (∀ x, 0 <= x < 8 → isValid home x = true) as Hval
    by (intros x Hx; apply isValid_spec; lia).
  destruct Htc as [Htc|Htc]; rewrite Htc in *;
    change (4 <? 6) with true in *; change (4 <? 2) with false in *;
    cbv iota in *; change (bool_decide (EMPTY = EMPTY)) with true;
    cbv iota; change (6 - 1) with 5; change (2 + 1) with 3.
  - pose proof (wfBoard_put _ home 5 (mkPiece ROOK c false) Hwf) as Hwf1.
    pose proof (wfBoard_put _ home 7 noPiece Hwf1) as Hwf2.
    pose proof (wfBoard_put _ home 6 (mkPiece KING c true) Hwf2) as Hwf3.
    split_and!; try done.
    + by left.
    + rewrite sq_put_ne by (apply Hcolne; lia). apply sq_put_eq; [done|].
      apply Hval; lia.
    + rewrite !sq_put_ne by (apply Hcolne; lia). apply sq_put_eq; [done|].
      apply Hval; lia.
    + apply sq_put_eq; [done|]. apply Hval; lia.
    + rewrite !sq_put_ne by (apply Hcolne; lia). apply sq_put_eq; [done|].
      apply Hval; lia.
    + intros r col Hn1 Hn2 Hn3 Hn4. by rewrite !sq_put_ne.
  - pose proof (wfBoard_put _ home 3 (mkPiece ROOK c false) Hwf) as Hwf1.
    pose proof (wfBoard_put _ home 0 noPiece Hwf1) as Hwf2.
    pose proof (wfBoard_put _ home 2 (mkPiece KING c true) Hwf2) as Hwf3.
    split_and!; try done.
    + by right.
    + rewrite sq_put_ne by (apply Hcolne; lia). apply sq_put_eq; [done|].
      apply Hval; lia.
    + rewrite !sq_put_ne by (apply Hcolne; lia). apply sq_put_eq; [done|].
      apply Hval; lia.
    + apply sq_put_eq; [done|]. apply Hval; lia.
    + rewrite !sq_put_ne by (apply Hcolne; lia). apply sq_put_eq; [done|].
      apply Hval; lia.
    + intros r col Hn1 Hn2 Hn3 Hn4. by rewrite !sq_put_ne.
Qed.

(** X22.  A legal move that is neither an en-passant capture nor castling
    changes two squares of the board only: the origin becomes empty, and
    the target holds the mover, marked as moved and turned into the
    promotion piece when the move carries one. *)
Theorem makeMove_ordinary g moves b' m :
  wfBoard (board g) →
  getLegalMoves (board g) (enPassantCol g) (currentPlayer g)
  = Some (moves, b') →
  m ∈ moves →
  isEnPassant m = false → isCastling m = false →
  let mover := sq (board g) (fromRow m) (fromCol m) in
  let after := board (makeMove g m) in
  sq after (toRow m) (toCol m)
  = mkPiece (if bool_decide (promotion m = EMPTY)
             then type mover else promotion m) (color mover) true
  ∧ sq after (fromRow m) (fromCol m) = noPiece
  ∧ ∀ r col,
      (r, col) ≠ (fromRow m, fromCol m) → (r, col) ≠ (toRow m, toCol m) →
      sq after r col = sq (board g) r col.
Proof.
  intros Hwf Hlegal Hin Hep Hcast mover after.
  destruct (getLegalMoves_facts _ _ _ _ _ _ Hlegal Hin)
    as (Hv & Hv' & Hc & Hcan & Hm).
  pose proof (canPieceMoveTo_squares _ _ _ _ _ _ _ Hcan) as [Hne0 Hne].
  clear Hm Hlegal Hin Hcan.
  subst after. rewrite makeMove_board by done. cbv zeta.
  rewrite Hep, Hcast. fold mover.
  split_and!.
  - rewrite sq_put_ne by done. by apply sq_put_eq.
  - apply sq_put_eq; [by apply wfBoard_put|done].
  - intros r col Hn1 Hn2. by rewrite !sq_put_ne.
Qed.

(** The three ways of a pawn. *)
Lemma canPieceMoveTo_pawn b ep fr fc tr tc ic :
  canPieceMoveTo b ep fr fc tr tc ic = Some true →
  type (sq b fr fc) = PAWN →
  let dir := if bool_decide (color (sq b fr fc) = WHITE) then -1 else 1 in
  tc = fc ∧ tr = fr + dir ∧ type (sq b tr tc) = EMPTY
  ∨ tc = fc ∧ tr = fr + 2 * dir ∧ type (sq b (fr + dir) fc) = EMPTY
  ∨ Z.abs (tc - fc) = 1 ∧ tr = fr + dir
    ∧ (type (sq b tr tc) ≠ EMPTY
       ∨ tc = ep
         ∧ tr = (if bool_decide (color (sq b fr fc) = WHITE) then 2 else 5)).
Proof.
  intros Hcan Hp dir.
  rewrite canPieceMoveTo_unfold in Hcan. unfold canPieceMoveTo_body in Hcan.
  rewrite Hp in Hcan. fold dir in Hcan.
  destruct (bool_decide (PAWN = EMPTY) || _); [done|].
  destruct ((tc - fc =? 0) && (tr - fr =? dir)
            && bool_decide (type (sq b tr tc) = EMPTY)) eqn:H1.
  { apply andb_true_iff in H1 as [[?%Z.eqb_eq ?%Z.eqb_eq]%andb_true_iff
                                    ?%bool_decide_eq_true].
    left. split_and!; [lia|lia|done]. }
  destruct ((tc - fc =? 0) && (tr - fr =? 2 * dir)
            && negb (hasMoved (sq b fr fc))
            && bool_decide (type (sq b (fr + dir) fc) = EMPTY)
            && bool_decide (type (sq b tr tc) = EMPTY)) eqn:H2.
  { rewrite !andb_true_iff in H2.
    destruct H2 as [[[[?%Z.eqb_eq ?%Z.eqb_eq] _] ?%bool_decide_eq_true] _].
    right. left. split_and!; [lia|lia|done]. }
  destruct ((Z.abs (tc - fc) =? 1) && (tr - fr =? dir)) eqn:H3; [|done].
  apply andb_true_iff in H3 as [?%Z.eqb_eq ?%Z.eqb_eq].
  right. right. split_and!; [done|lia|].
  destruct (bool_decide (type (sq b tr tc) = EMPTY)) eqn:He; simpl in Hcan.
  - destruct ((tc =? ep) && _) eqn:H4; [|done].
    apply andb_true_iff in H4 as [?%Z.eqb_eq ?%Z.eqb_eq]. by right.
  - apply bool_decide_eq_false in He. by left.
Qed.

(** X23.  Among the legal pawn moves of a reachable position, those
    tagged as en passant are exactly the moves to another column onto an
    empty square. *)
Theorem enPassant_tag g moves b' m :
  reachable g →
  getLegalMoves (board g) (enPassantCol g) (currentPlayer g)
  = Some (moves, b') →
  m ∈ moves →
  type (sq (board g) (fromRow m) (fromCol m)) = PAWN →
  isEnPassant m = true ↔
    fromCol m ≠ toCol m
    ∧ type (sq (board g) (toRow m) (toCol m)) = EMPTY.
Proof.
  intros Hreach Hlegal Hin Hp.
  pose proof (reachable_sound _ Hreach) as ((Hplayer & _ & Hpawn) & _).
  simpl in Hplayer, Hpawn.
  destruct (getLegalMoves_facts _ _ _ _ _ _ Hlegal Hin)
    as (Hv & Hv' & Hc & Hcan & Hm).
  pose proof (pushMoves_tags _ _ _ _ _ _ _ _ Hm) as (Hflag & _).
  pose proof (canPieceMoveTo_pawn _ _ _ _ _ _ _ Hcan Hp) as Hways.
  clear Hm Hlegal Hin Hcan. cbv zeta in Hways.
  rewrite Hc in Hways. rewrite Hflag, Hp.
  rewrite bool_decide_eq_true_2 by done. simpl.
  rewrite andb_true_iff, !Z.eqb_eq.
  set (c := currentPlayer g) in *. set (b := board g) in *.
  split.
  - intros [Htc Htr].
    destruct Hpawn as (Hrow & Hthere & Hfree).
    { apply isValid_spec in Hv'. lia. }
    rewrite <- Htc in Hthere, Hfree. rewrite <- Htr in Hfree.
    split; [|done].
    destruct Hways as [(Hcol & Hfr & _)|[(Hcol & Hfr & Hmid)|(Hcol & _)]].
    + exfalso.
      assert (fromRow m = enPassantRow g) as Hsame
        by (rewrite Hrow; destruct (bool_decide (c = WHITE)); lia).
      rewrite Hcol, <- Hsame in Hthere. rewrite Hthere in Hc. simpl in Hc.
      unfold opponent in Hc. by destruct c.
    + exfalso.
      assert (fromRow m + (if bool_decide (c = WHITE) then -1 else 1)
              = enPassantRow g) as Hsame
        by (rewrite Hrow; destruct (bool_decide (c = WHITE)); lia).
      rewrite Hsame, <- Hcol, Hthere in Hmid. done.
    + lia.
  - intros [Hcols Hempty].
    destruct Hways as [(Hcol & _)|[(Hcol & _)|(_ & _ & [Hocc|Hep])]];
      [done|done|done|done].
Qed.
End Pieces.

Section PiecesWitness.
Lemma castled_played : played castled.
Proof. apply played_decide. vm_compute. reflexivity. Qed.

(** The square e1 after 1.e4 e5 2.Nf3 Nc6 3.Bc4 Bc5. *)
Lemma reachable_pieces_witness :
  let g := gameAfter castlingReady in
  let x := sq (board g) 7 4 in
  reachable g
  ∧ (type x = EMPTY → x = noPiece)
  ∧ (type x ≠ EMPTY → color x = WHITE ∨ color x = BLACK).
Proof.
  intros g x.
  assert (reachable g) as Hg
    by exact (gameAfter_reachable castlingReady castlingReady_played).
  split; [exact Hg|]. exact (reachable_pieces g 7 4 Hg).
Defined.

(** After white has castled, the rook on f1 is still marked as not
    moved. *)
Lemma unmoved_pieces_origin_witness :
  let g := gameAfter castled in
  let x := sq (board g) 7 5 in
  reachable g
  ∧ type x ≠ EMPTY
  ∧ hasMoved x = false
  ∧ (x = sq setupBoard 7 5
     ∨ (type x = ROOK ∧ (5 = 3 ∨ 5 = 5)
        ∧ (7 = 7 ∧ color x = WHITE ∨ 7 = 0 ∧ color x = BLACK))).
Proof.
  intros g x.
  assert (reachable g) as Hg
    by exact (gameAfter_reachable castled castled_played).
  assert (type x ≠ EMPTY) as Hne
    by (vm_compute; intros H; discriminate H).
  assert (hasMoved x = false) as Hm by (vm_compute; reflexivity).
  split; [exact Hg|]. split; [exact Hne|]. split; [exact Hm|].
  exact (unmoved_pieces_origin g 7 5 Hg Hne Hm).
Defined.

(** White castles on the king's side after 1.e4 e5 2.Nf3 Nc6 3.Bc4
    Bc5. *)
Lemma makeMove_castling_witness :
  let g := gameAfter castlingReady in
  let m := mkMove 7 4 7 6 EMPTY false true in
  let c := currentPlayer g in
  let home := if bool_decide (c = WHITE) then 7 else 0 in
  let rookFrom := if fromCol m <? toCol m then 7 else 0 in
  let rookTo := if fromCol m <? toCol m then 5 else 3 in
  let after := board (makeMove g m) in
  reachable g
  ∧ getLegalMoves (board g) (enPassantCol g) (currentPlayer g)
    = Some (legalMovesOf g, board g)
  ∧ m ∈ legalMovesOf g
  ∧ isCastling m = true
  ∧ (c = WHITE ∨ c = BLACK)
  ∧ fromRow m = home ∧ fromCol m = 4
  ∧ toRow m = home ∧ (toCol m = 6 ∨ toCol m = 2)
  ∧ sq (board g) home 4 = mkPiece KING c false
  ∧ sq (board g) home rookFrom = mkPiece ROOK c false
  ∧ sq after home (toCol m) = mkPiece KING c true
  ∧ sq after home rookTo = mkPiece ROOK c false
  ∧ sq after home 4 = noPiece
  ∧ sq after home rookFrom = noPiece
  ∧ ∀ r col,
      (r, col) ≠ (home, 4) → (r, col) ≠ (home, toCol m) →
      (r, col) ≠ (home, rookTo) → (r, col) ≠ (home, rookFrom) →
      sq after r col = sq (board g) r col.
Proof.
  intros g m c home rookFrom rookTo after.
  assert (reachable g) as Hg
    by exact (gameAfter_reachable castlingReady castlingReady_played).
  assert (getLegalMoves (board g) (enPassantCol g) (currentPlayer g)
          = Some (legalMovesOf g, board g)) as Hlegal
    by (vm_compute; reflexivity).
  assert (m ∈ legalMovesOf g) as Hin
    by (apply (bool_decide_unpack _); vm_compute; exact I).
  assert (isCastling m = true) as Hcast by reflexivity.
  split; [exact Hg|]. split; [exact Hlegal|]. split; [exact Hin|].
  split; [exact Hcast|].
  exact (makeMove_castling g _ _ m Hg Hlegal Hin Hcast).
Defined.

(** The bishop on c4 takes the pawn on f7. *)
Lemma makeMove_ordinary_witness :
  let g := gameAfter castlingReady in
  let m := mkMove 4 2 1 5 EMPTY false false in
  let mover := sq (board g) (fromRow m) (fromCol m) in
  let after := board (makeMove g m) in
  wfBoard (board g)
  ∧ getLegalMoves (board g) (enPassantCol g) (currentPlayer g)
    = Some (legalMovesOf g, board g)
  ∧ m ∈ legalMovesOf g
  ∧ isEnPassant m = false
  ∧ isCastling m = false
  ∧ sq after (toRow m) (toCol m)
    = mkPiece (if bool_decide (promotion m = EMPTY)
               then type mover else promotion m) (color mover) true
  ∧ sq after (fromRow m) (fromCol m) = noPiece
  ∧ ∀ r col,
      (r, col) ≠ (fromRow m, fromCol m) → (r, col) ≠ (toRow m, toCol m) →
      sq after r col = sq (board g) r col.
Proof.
  intros g m mover after.
  assert (wfBoard (board g)) as Hwf.
  { pose proof (reachable_consistent g
      (gameAfter_reachable castlingReady castlingReady_played))
      as ([Hwf _] & _). exact Hwf. }
  assert (getLegalMoves (board g) (enPassantCol g) (currentPlayer g)
          = Some (legalMovesOf g, board g)) as Hlegal
    by (vm_compute; reflexivity).
  assert (m ∈ legalMovesOf g) as Hin
    by (apply (bool_decide_unpack _); vm_compute; exact I).
  assert (isEnPassant m = false) as Hep by reflexivity.
  assert (isCastling m = false) as Hcast by reflexivity.
  split; [exact Hwf|]. split; [exact Hlegal|]. split; [exact Hin|].
  split; [exact Hep|]. split; [exact Hcast|].
  exact (makeMove_ordinary g _ _ m Hwf Hlegal Hin Hep Hcast).
Defined.

(** After 1.e4 a6 2.e5 d5 the capture e5xd6 is tagged as en passant. *)
Lemma enPassant_tag_witness :
  let g := gameAfter enPassantReady in
  let m := mkMove 3 4 2 3 EMPTY true false in
  reachable g
  ∧ getLegalMoves (board g) (enPassantCol g) (currentPlayer g)
    = Some (legalMovesOf g, board g)
  ∧ m ∈ legalMovesOf g
  ∧ type (sq (board g) (fromRow m) (fromCol m)) = PAWN
  ∧ (isEnPassant m = true ↔
       fromCol m ≠ toCol m
       ∧ type (sq (board g) (toRow m) (toCol m)) = EMPTY).
Proof.
  intros g m.
  assert (reachable g) as Hg
    by exact (gameAfter_reachable enPassantReady enPassantReady_played).
  assert (getLegalMoves (board g) (enPassantCol g) (currentPlayer g)
          = Some (legalMovesOf g, board g)) as Hlegal
    by (vm_compute; reflexivity).
  assert (m ∈ legalMovesOf g) as Hin
    by (apply (bool_decide_unpack _); vm_compute; exact I).
  assert (type (sq (board g) (fromRow m) (fromCol m)) = PAWN) as Hp
    by (vm_compute; reflexivity).
  split; [exact Hg|]. split; [exact Hlegal|]. split; [exact Hin|].
  split; [exact Hp|].
  exact (enPassant_tag g _ _ m Hg Hlegal Hin Hp).
Defined.
End PiecesWitness.

(** ** The repetition table *)

Section Repetition.
Implicit Types (g : ChessGame) (m : Move) (line : list GameState.t).

Lemma countsOK_app line1 line2 : countsOK (line1 ++ line2) → countsOK line2.
Proof. induction line1 as [|s line1 IH]; simpl; [done|]. intros [_ ?]. auto. Qed.

Lemma timesOn_cons s line k :
  timesOn (s :: line) k
  = (if bool_decide (keyOf s = k) then 1 else 0) + timesOn line k.
Proof.
  unfold timesOn. case_bool_decide.
  - rewrite filter_cons_True by done. simpl length. lia.
  - rewrite filter_cons_False by done. lia.
Qed.

Lemma increment_count (counts : gmap string Z) k k' :
  default 0 (increment counts k !! k')
  = (if bool_decide (k = k') then 1 else 0) + default 0 (counts !! k').
Proof.
  unfold increment, subscript. case_bool_decide as Hk.
  - subst k'. rewrite lookup_insert_eq. simpl.
    destruct (counts !! k); simpl; lia.
  - rewrite lookup_insert_ne by done. lia.
Qed.

(** The positions played, undone ones included, count themselves. *)
Lemma reachable_countsOK g :
  reachable g →
  countsOK (rev (redoStack g) ++ getState g :: undoStack g).
Proof.
  revert g. apply reachable_steps.
  - simpl. split; [|done]. intros k. rewrite timesOn_cons.
    rewrite increment_count, lookup_empty. unfold timesOn. simpl.
    unfold keyOf. simpl. lia.
  - intros [b p ec er hc pc us rs h cur] _. unfold undo. simpl.
    destruct us as [|[b' p' ec' er' hc' pc'] us]; [done|]. simpl.
    by rewrite <- app_assoc.
  - intros [b p ec er hc pc us rs h cur] _. unfold redo. simpl.
    destruct rs as [|[b' p' ec' er' hc' pc'] rs]; [done|]. simpl.
    by rewrite <- app_assoc.
  - intros g moves m _ Hline _ _. apply countsOK_app in Hline.
    destruct (makeMove_stacks g m) as (Hu & Hr & _).
    rewrite Hu, Hr. simpl rev. simpl app. split; [|done].
    intros k. rewrite timesOn_cons. destruct Hline as [Hlive _].
    rewrite <- Hlive.
    change (GameState.positionCount (getState (makeMove g m)))
      with (increment (positionCount g)
              (keyOf (getState (makeMove g m)))).
    by rewrite increment_count.
Qed.

(** X24.  The repetition table of a reachable object counts, for every
    key, the positions with that key among the live position and the
    snapshots of the undo stack: the positions of undone moves are not
    counted. *)
Theorem positionCount_exact g k :
  reachable g →
  default 0 (positionCount g !! k) = timesOn (getState g :: undoStack g) k.
Proof.
  intros Hreach. pose proof (reachable_countsOK g Hreach) as Hline.
  apply countsOK_app in Hline. destruct Hline as [Hlive _]. apply Hlive.
Qed.
End Repetition.

Section RepetitionWitness.
(** After 1.e4 e5 2.Nf3 Nc6 3.Bc4 Bc5 the start position has occurred
    once. *)
Lemma positionCount_exact_witness :
  let g := gameAfter castlingReady in
  let k := getPositionKey setupBoard WHITE in
  reachable g
  ∧ default 0 (positionCount g !! k)
    = timesOn (getState g :: undoStack g) k.
Proof.
  intros g k.
  assert (reachable g) as Hg
    by exact (gameAfter_reachable castlingReady castlingReady_played).
  split; [exact Hg|]. exact (positionCount_exact g k Hg).
Defined.
End RepetitionWitness.

(** ** Entering a move *)

Section EnterMove.
Implicit Types (g : ChessGame) (b : Board) (c : Color) (m u : Move).

#[local] Opaque allSquares.

Lemma find_app_first {A} (f : A → bool) (l1 l2 : list A) :
  List.find f (l1 ++ l2)
  = match List.find f l1 with
    | Some a => Some a
    | None => List.find f l2
    end.
Proof.
  induction l1 as [|x l1 IH]; simpl; [done|]. by destruct (f x).
Qed.

(** The first of the moves pushed for a pair of squares is the queen
    promotion when there is a promotion. *)
Lemma find_pushMoves u b ep c r col tr tc a :
  List.find (sameSquares u) (pushMoves b ep c r col tr tc) = Some a →
  promotion a = EMPTY ∨ promotion a = QUEEN.
Proof.
  unfold pushMoves.
  destruct (bool_decide (type (sq b r col) = PAWN) && ((tr =? 0) || (tr =? 7)));
    cbn [fmap list_fmap List.find]; unfold sameSquares;
    cbn [fromRow fromCol toRow toCol];
    destruct ((r =? fromRow u) && (col =? fromCol u) && (tr =? toRow u)
              && (tc =? toCol u));
    intros [= <-]; cbn [promotion]; auto.
Qed.

Lemma getLegalMoves_to_first u ep c r col tgts : ∀ b moves moves' b',
  (∀ a, List.find (sameSquares u) moves = Some a →
        promotion a = EMPTY ∨ promotion a = QUEEN) →
  getLegalMoves_to ep c r col tgts b moves = Some (moves', b') →
  ∀ a, List.find (sameSquares u) moves' = Some a →
       promotion a = EMPTY ∨ promotion a = QUEEN.
Proof.
  induction tgts as [|[tr tc] rest IH]; intros b moves moves' b' Hm H;
    simpl in H.
  - by simplify_eq.
  - destruct (canPieceMoveTo b ep r col tr tc false) as [[]|];
      simpl in H; [|by eapply IH|done].
    destruct (testMove b ep r col tr tc) as [[[] b1]|];
      simpl in H; [|by eapply IH|done].
    eapply IH; [|exact H]. intros a. rewrite find_app_first.
    destruct (List.find (sameSquares u) moves) as [a0|] eqn:Hfind.
    + intros [= <-]. by apply Hm.
    + apply find_pushMoves.
Qed.

Lemma getLegalMoves_from_first u ep c srcs : ∀ b moves moves' b',
  (∀ a, List.find (sameSquares u) moves = Some a →
        promotion a = EMPTY ∨ promotion a = QUEEN) →
  getLegalMoves_from ep c srcs b moves = Some (moves', b') →
  ∀ a, List.find (sameSquares u) moves' = Some a →
       promotion a = EMPTY ∨ promotion a = QUEEN.
Proof.
  induction srcs as [|[r col] rest IH]; intros b moves moves' b' Hm H;
    simpl in H.
  - by simplify_eq.
  - case_bool_decide; [|by eapply IH].
    destruct (getLegalMoves_to ep c r col allSquares b moves)
      as [[moves1 b1]|] eqn:Hto; simpl in H; [|done].
    eapply IH; [|exact H]. by eapply getLegalMoves_to_first.
Qed.

Lemma getLegalMoves_first u b ep c moves b' a :
  getLegalMoves b ep c = Some (moves, b') →
  List.find (sameSquares u) moves = Some a →
  promotion a = EMPTY ∨ promotion a = QUEEN.
Proof.
  intros H. eapply getLegalMoves_from_first; [|exact H]. done.
Qed.

(** The move that the loop of [play] picks for the squares of a legal
    move. *)
Lemma find_legal_move b ep c moves b' m u :
  getLegalMoves b ep c = Some (moves, b') →
  m ∈ moves →
  sameSquares u m = true →
  List.find (sameSquares u) moves
  = Some (withPromotion m (if bool_decide (promotion m = EMPTY)
                           then EMPTY else QUEEN)).
Proof.
  intros Hlegal Hin Hsame.
  destruct (List.find (sameSquares u) moves) as [a|] eqn:Hfind.
  2:{ apply List.find_none with (x := m) in Hfind; [congruence|].
      by apply list_elem_of_In. }
  f_equal.
  pose proof (getLegalMoves_first _ _ _ _ _ _ _ Hlegal Hfind) as Hfirst.
  apply List.find_some in Hfind as [Ha%list_elem_of_In Hsame'].
  destruct (getLegalMoves_facts _ _ _ _ _ _ Hlegal Hin) as (_ & _ & _ & _ & Hpm).
  destruct (getLegalMoves_facts _ _ _ _ _ _ Hlegal Ha) as (_ & _ & _ & _ & Hpa).
  clear Hlegal Hin Ha.
  unfold sameSquares in Hsame, Hsame'.
  rewrite !andb_true_iff, !Z.eqb_eq in Hsame, Hsame'.
  destruct Hsame as [[[E1 E2] E3] E4], Hsame' as [[[F1 F2] F3] F4].
  rewrite F1, F2, F3, F4, <- E1, <- E2, <- E3, <- E4 in Hpa.
  unfold pushMoves in Hpm, Hpa. unfold withPromotion.
  destruct (bool_decide _ && _).
  - apply list_elem_of_fmap in Hpm as (pm & -> & Hpm).
    apply list_elem_of_fmap in Hpa as (pa & -> & Hpa).
    cbn [fromRow fromCol toRow toCol promotion isEnPassant isCastling] in *.
    rewrite !elem_of_cons in Hpm, Hpa.
    rewrite (bool_decide_eq_false_2 (pm = EMPTY))
      by (destruct Hpm as [->|[->|[->|[->|Hnil]]]];
          [done..|by apply elem_of_nil in Hnil]).
    destruct Hfirst as [-> | ->]; [|done].
    destruct Hpa as [?|[?|[?|[?|Hnil]]]];
      [done..|by apply elem_of_nil in Hnil].
  - apply list_elem_of_singleton in Hpm as ->, Hpa as ->.
    cbn [fromRow fromCol toRow toCol promotion isEnPassant isCastling].
    by rewrite (bool_decide_eq_true_2 (EMPTY = EMPTY)).
Qed.

(** X25.  When the squares of a legal move are entered as a four-letter
    MOVE command in a reachable position, [play] makes that move, as a
    queen promotion if it is a promotion, whatever the promotion piece of
    the move; with the king of the side then to move on the board the
    command returns. *)
Theorem command_makes_legal_move g moves b' m :
  reachable g →
  getLegalMoves (board g) (enPassantCol g) (currentPlayer g)
  = Some (moves, b') →
  m ∈ moves →
  let text :=
    squareText (fromRow m) (fromCol m)
      (squareText (toRow m) (toCol m) EmptyString) in
  let g1 :=
    makeMove g (withPromotion m (if bool_decide (promotion m = EMPTY)
                                 then EMPTY else QUEEN)) in
  (∀ out g', command g (MOVE text) = Some (out, g') → g' = g1)
  ∧ (hasKing (board g1) (currentPlayer g1) →
     ∃ out, command g (MOVE text) = Some (out, g1)).
Proof.
  intros Hreach Hlegal Hin text g1.
  pose proof (reachable_consistent _ Hreach) as Hg.
  destruct (getLegalMoves_facts _ _ _ _ _ _ Hlegal Hin)
    as (Hv & Hv' & _).
  assert (command g (MOVE text) = printState g1) as ->.
  { cbv beta iota delta [command]. subst text.
    rewrite parse_squareText by done.
    cbn [negb]. rewrite Hlegal. simpl.
    pose proof (getLegalMoves_board _ _ _ _ _ Hlegal) as ->.
    rewrite withBoard_same.
    erewrite find_legal_move; [done|exact Hlegal|done|].
    unfold sameSquares. cbn [fromRow fromCol toRow toCol].
    by rewrite !Z.eqb_refl. }
  pose proof (consistent_makeMove g
    (withPromotion m (if bool_decide (promotion m = EMPTY)
                      then EMPTY else QUEEN)) Hg) as Hg1.
  fold g1 in Hg1. split.
  - intros out g' Hp.
    by apply printState_unchanged in Hp; [|apply consistent_key].
  - intros Hking. pose proof Hg1 as ([Hwf _] & _).
    destruct (printState_total g1 Hwf Hking) as [[out g'] Hp].
    exists out. rewrite Hp.
    by apply printState_unchanged in Hp as ->; [|apply consistent_key].
Qed.
End EnterMove.

(** ** What [printState] writes *)

Section Printed.
Implicit Types (g : ChessGame).
Open Scope string_scope.




End Printed.

(** ** The command loop *)

Section Play.
Implicit Types (g : ChessGame).

Lemma play_cons g cmd cmds :
  cmd ≠ QUIT →
  play g (cmd :: cmds)
  = '(out, g1) ← command g cmd;
    '(out', g2) ← play g1 cmds;
    Some (out ++ out', g2).
Proof. by destruct cmd. Qed.

(** X27.  [play] stops at the first QUIT: the commands that follow it
    are not run, and neither the output nor the object depends on them. *)
Theorem play_quit g cmds rest :
  QUIT ∉ cmds →
  play g (cmds ++ QUIT :: rest) = play g cmds.
Proof.
  revert g. induction cmds as [|cmd cmds IH]; intros g Hq; [done|].
  apply not_elem_of_cons in Hq as [Hne Hq].
  rewrite <- app_comm_cons, !play_cons by done.
  destruct (command g cmd) as [[out g1]|]; simpl; [|done].
  by rewrite IH.
Qed.
End Play.

Section EnterMoveWitness.
(** After 1.e4 e5 2.Nf3 Nc6 3.Bc4 Bc5 the text e1g1 castles. *)
Lemma command_makes_legal_move_witness :
  let g := gameAfter castlingReady in
  let m := mkMove 7 4 7 6 EMPTY false true in
  let text :=
    squareText (fromRow m) (fromCol m)
      (squareText (toRow m) (toCol m) EmptyString) in
  let g1 :=
    makeMove g (withPromotion m (if bool_decide (promotion m = EMPTY)
                                 then EMPTY else QUEEN)) in
  reachable g
  ∧ getLegalMoves (board g) (enPassantCol g) (currentPlayer g)
    = Some (legalMovesOf g, board g)
  ∧ m ∈ legalMovesOf g
  ∧ (∀ out g', command g (MOVE text) = Some (out, g') → g' = g1)
  ∧ (hasKing (board g1) (currentPlayer g1) →
     ∃ out, command g (MOVE text) = Some (out, g1)).
Proof.
  intros g m text g1.
  assert (reachable g) as Hg
    by exact (gameAfter_reachable castlingReady castlingReady_played).
  assert (getLegalMoves (board g) (enPassantCol g) (currentPlayer g)
          = Some (legalMovesOf g, board g)) as Hlegal
    by (vm_compute; reflexivity).
  assert (m ∈ legalMovesOf g) as Hin
    by (apply (bool_decide_unpack _); vm_compute; exact I).
  split; [exact Hg|]. split; [exact Hlegal|]. split; [exact Hin|].
  exact (command_makes_legal_move g _ _ m Hg Hlegal Hin).
Defined.


(** UNDO, QUIT, REDO: the REDO is not run. *)
Lemma play_quit_witness :
  (QUIT ∉ [UNDO])
  ∧ (play newGame ([UNDO] ++ QUIT :: [REDO]) = play newGame [UNDO]).
Proof.
  assert (QUIT ∉ [UNDO]) as Hq
    by (intros [H|H]%elem_of_cons;
        [discriminate H|by apply elem_of_nil in H]).
  split; [exact Hq|]. exact (play_quit newGame [UNDO] [REDO] Hq).
Defined.
End EnterMoveWitness.

(** ** The king after a legal move *)

Section KingSafety.
Implicit Types (g : ChessGame) (b t : Board) (c : Color) (m : Move).

#[local] Opaque allSquares.

Lemma shields_refl c by_ r col p : shields c by_ r col p p.
Proof. split_and!; [done|done|by left|done]. Qed.

Lemma noNewAttack_refl c by_ b : noNewAttack c by_ b b.
Proof. intros r col. apply shields_refl. Qed.

Lemma put_invalid b r col p : isValid r col = false → put b r col p = b.
Proof. intros Hv. unfold put. by rewrite Hv. Qed.

Lemma noNewAttack_put c by_ t (mb : Board) r col p q :
  wfBoard t → wfBoard mb →
  noNewAttack c by_ t mb → shields c by_ r col p q →
  noNewAttack c by_ (put t r col p) (put mb r col q).
Proof.
  intros Hwt Hwm Hno Hpq r' col'.
  destruct (isValid r col) eqn:Hv; [|by rewrite !put_invalid].
  destruct (decide ((r, col) = (r', col'))) as [[= <- <-]|Hne].
  - by rewrite !sq_put_eq.
  - rewrite !sq_put_ne by done. apply Hno.
Qed.

(** A square strictly between two squares of the board, on a line, is no
    corner. *)
Lemma between_not_corner fr fc tr tc i :
  isValid fr fc = true → isValid tr tc = true →
  Z.abs (tr - fr) = Z.abs (tc - fc) ∨ tr - fr = 0 ∨ tc - fc = 0 →
  0 < i < Z.max (Z.abs (tr - fr)) (Z.abs (tc - fc)) →
  ¬ corner (fr + sign (tr - fr) * i) (fc + sign (tc - fc) * i).
Proof.
  rewrite !isValid_spec. intros Hf Ht Hline Hi [Hr Hc].
  destruct (sign_cases (tr - fr)) as [[? Hs]|[[? Hs]|[? Hs]]];
    destruct (sign_cases (tc - fc)) as [[? Hs']|[[? Hs']|[? Hs']]];
    rewrite Hs in Hr; rewrite Hs' in Hc; lia.
Qed.

Lemma lineOf_line (ty : PieceType) dr dc :
  lineOf ty dr dc → Z.abs dr = Z.abs dc ∨ dr = 0 ∨ dc = 0.
Proof. destruct ty; simpl; tauto. Qed.

(** A move in raw mode of a man of [by_] on [mb] is one on [t]. *)
Lemma canPieceMoveTo_noNew c by_ t (mb : Board) ep ep' fr fc tr tc :
  noNewAttack c by_ t mb →
  isValid fr fc = true → isValid tr tc = true →
  color (sq mb fr fc) = by_ → type (sq mb fr fc) ≠ PAWN →
  canPieceMoveTo mb ep' fr fc tr tc true = Some true →
  canPieceMoveTo t ep fr fc tr tc true = Some true.
Proof.
  intros Hno Hv Hv' Hcol Hnp Hcan.
  destruct (Hno fr fc) as (Hby & Hty & _).
  destruct (Hno tr tc) as (Hby' & _).
  pose proof (proj1 Hby Hcol) as Hcolt. specialize (Hty Hcol).
  pose proof (canPieceMoveTo_squares _ _ _ _ _ _ _ Hcan) as [Hne _].
  pose proof (canPieceMoveTo_colors _ _ _ _ _ _ _ Hcan) as Hguard.
  assert (color (sq t tr tc) ≠ color (sq t fr fc)) as Hguardt.
  { rewrite Hcolt. rewrite Hcol in Hguard. tauto. }
  destruct (decide (type (sq mb fr fc) = BISHOP ∨ type (sq mb fr fc) = ROOK
                    ∨ type (sq mb fr fc) = QUEEN)) as [Hslider|Hother].
  - apply sliding_iff in Hcan as (_ & Hline & Hpath); [|done].
    apply sliding_iff; [by rewrite Hty|]. split; [done|].
    split; [by rewrite Hty|]. intros i Hi.
    destruct (Hno (fr + sign (tr - fr) * i) (fc + sign (tc - fc) * i))
      as (_ & _ & Hempty & _).
    destruct (Hempty (Hpath i Hi)) as [?|Hcorner]; [done|].
    exfalso. eapply between_not_corner; [exact Hv|exact Hv'| |exact Hi|done].
    by eapply lineOf_line.
  - rewrite canPieceMoveTo_unfold in Hcan |- *.
    unfold canPieceMoveTo_body in Hcan |- *. rewrite Hty.
    rewrite (bool_decide_eq_false_2 _ Hne) in Hcan |- *.
    rewrite (bool_decide_eq_false_2 _ Hguard) in Hcan.
    rewrite (bool_decide_eq_false_2 _ Hguardt).
    simpl in Hcan |- *.
    destruct (type (sq mb fr fc)); try done; tauto.
Qed.

Lemma attacked_noNew c by_ t (mb : Board) ep ep' tr tc :
  noNewAttack c by_ t mb →
  isValid tr tc = true →
  isSquareAttacked mb ep' tr tc by_ = Some true →
  isSquareAttacked t ep tr tc by_ = Some true.
Proof.
  intros Hno Hv'. rewrite !attacked_iff.
  intros (r & col & Hv & Hcol & Hhit). exists r, col. split; [done|].
  destruct (Hno r col) as (Hby & Hty & _).
  pose proof (proj1 Hby Hcol) as Hcolt. specialize (Hty Hcol).
  split; [done|]. rewrite Hty.
  destruct Hhit as [Hpawn|[Hnp Hcan]]; [by left|right].
  split; [done|]. by eapply canPieceMoveTo_noNew.
Qed.

Lemma findKingIn_noNew c by_ t (mb : Board) sqs :
  noNewAttack c by_ t mb → findKingIn mb c sqs = findKingIn t c sqs.
Proof.
  intros Hno. induction sqs as [|[r col] rest IH]; simpl; [done|].
  rewrite IH. destruct (Hno r col) as (_ & _ & _ & Hking).
  assert (bool_decide (type (sq mb r col) = KING)
          && bool_decide (color (sq mb r col) = c)
          = bool_decide (type (sq t r col) = KING)
            && bool_decide (color (sq t r col) = c)) as ->; [|done].
  apply eq_true_iff_eq.
  rewrite !andb_true_iff, !bool_decide_eq_true. done.
Qed.

Lemma isInCheck_noNew c t (mb : Board) ep ep' :
  noNewAttack c (opponent c) t mb →
  isInCheck t ep c = Some false →
  isInCheck mb ep' c = Some false.
Proof.
  intros Hno. unfold isInCheck, findKing.
  rewrite (findKingIn_noNew _ _ _ _ _ Hno).
  destruct (findKingIn t c allSquares) as [[kr kc]|] eqn:Hking;
    simpl; [|done].
  apply findKingIn_Some in Hking as (Hin & _).
  apply elem_of_allSquares in Hin. intros Hsafe.
  destruct (isSquareAttacked_total mb ep' kr kc (opponent c)) as [[] Hatt];
    [|done].
  eapply (attacked_noNew _ _ _ _ ep ep') in Hatt; [|done..]. congruence.
Qed.

Lemma shields_landing c p (ty : PieceType) :
  color p = c → type p ≠ EMPTY →
  (bool_decide (type p = PAWN) = false → ty = EMPTY) →
  ty ≠ KING →
  ∀ r col,
    shields c (opponent c) r col p
      (mkPiece (if bool_decide (ty = EMPTY) then type p else ty)
         (color p) true).
Proof.
  intros Hc Hne Hpromo Hk r col.
  assert (c ≠ opponent c) as Hopp by (by destruct c).
  split_and!; simpl.
  - done.
  - rewrite Hc. done.
  - destruct (bool_decide (ty = EMPTY)) eqn:Ht; [intros ?; by left|].
    apply bool_decide_eq_false in Ht. done.
  - destruct (bool_decide (ty = EMPTY)) eqn:Ht; [done|].
    apply bool_decide_eq_false in Ht.
    split; [by intros [? _]|]. intros [Hking _].
    case_bool_decide as Hp; [congruence|]. exfalso. by apply Ht, Hpromo.
Qed.

(** X28.  A legal move other than an en-passant capture, made in a
    reachable position, leaves the king of the side that has moved out of
    check. *)
Theorem legal_move_king_safe g moves b' m :
  reachable g →
  getLegalMoves (board g) (enPassantCol g) (currentPlayer g)
  = Some (moves, b') →
  m ∈ moves →
  isEnPassant m = false →
  isInCheck (board (makeMove g m)) (enPassantCol (makeMove g m))
    (currentPlayer g)
  = Some false.
Proof.
  intros Hreach Hlegal Hin Hep.
  pose proof (reachable_consistent _ Hreach) as ([Hwf _] & _).
  pose proof (reachable_boardOK _ Hreach) as Hb. simpl in Hwf.
  pose proof (reachable_sound _ Hreach) as ((Hplayer & _) & _).
  simpl in Hplayer.
  pose proof (getLegalMoves_elem _ _ _ _ _ m Hlegal) as Helem.
  apply Helem in Hin as (r & col & tr & tc & Hv & Hv' & Hc & [Hcan Htest] & Hm).
  clear Helem Hlegal.
  pose proof (pushMoves_squares _ _ _ _ _ _ _ _ Hm) as (Hr & Hcol & Htr & Htc).
  pose proof (pushMoves_tags _ _ _ _ _ _ _ _ Hm) as (Hflag & Hcastle & Hpromo).
  pose proof (canPieceMoveTo_squares _ _ _ _ _ _ _ Hcan) as [Hne0 Hne].
  assert (promotion m ≠ KING) as Hnk.
  { clear -Hm. unfold pushMoves in Hm. case_match.
    - apply list_elem_of_fmap in Hm as (ps & -> & Hps). simpl.
      rewrite !elem_of_cons in Hps.
      destruct Hps as [->|[->|[->|[->|Hnil]]]]; try done.
      by apply elem_of_nil in Hnil.
    - by apply list_elem_of_singleton in Hm as ->. }
  clear Hm.
  set (b := board g) in *. set (c := currentPlayer g) in *.
  set (p := sq b r col) in *.
  assert (isInCheck (put (put b tr tc p) r col noPiece) (enPassantCol g) c
          = Some false) as Hsafe.
  { unfold testMove in Htest. fold p in Htest. rewrite Hc in Htest.
    destruct (isInCheck _ _ c) as [[]|]; simpl in Htest; [done|done|done]. }
  clear Htest.
  eapply isInCheck_noNew; [|exact Hsafe].
  rewrite makeMove_board by (rewrite ?Hr, ?Hcol, ?Htr, ?Htc; done).
  cbv zeta. rewrite Hep, Hr, Hcol, Htr, Htc. fold b p.
  pose proof (wfBoard_put _ tr tc p Hwf) as Hwt1.
  destruct (isCastling m) eqn:Hcast.
  - symmetry in Hcastle. apply andb_true_iff in Hcastle as [Hking Hcols].
    apply bool_decide_eq_true in Hking. apply Z.eqb_eq in Hcols.
    pose proof (castling_home _ _ _ _ _ _ Hb Hcan Hking Hcols)
      as (_ & Hrow & Hfc & Hrows & Htcs & Hk & Hrk & Hgap).
    clear Hcan. cbv zeta in Hrow, Hk, Hrk, Hgap. fold p in Hrow, Hk, Hrk.
    rewrite Hc in Hrow, Hk, Hrk.
    set (rookFrom := if col <? tc then 7 else 0) in *.
    set (rookTo := if col <? tc then tc - 1 else tc + 1).
    assert (type (sq b r rookTo) = EMPTY) as Hfree.
    { apply Hgap. subst rookTo rookFrom. rewrite Hfc.
      destruct Htcs as [Hside|Hside]; rewrite Hside; simpl; lia. }
    assert (corner r rookFrom) as Hcorner.
    { split; [rewrite Hrow; destruct (bool_decide (c = WHITE)); lia|].
      subst rookFrom. destruct (col <? tc); lia. }
    rewrite <- (put_sq_id b r rookTo) at 1.
    rewrite <- (put_sq_id (put b r rookTo (sq b r rookTo)) r rookFrom) at 1.
    rewrite sq_put_ne
      by (subst rookTo rookFrom; rewrite Hfc;
          destruct Htcs as [Hside|Hside]; rewrite Hside; simpl;
          intros [=]).
    assert (c ≠ opponent c) as Hopp by (by destruct c).
    assert (NONE ≠ opponent c) as Hnone by (by destruct c).
    repeat apply noNewAttack_put; try (repeat apply wfBoard_put; done).
    + apply noNewAttack_refl.
    + destruct (Hb r rookTo) as [[Hnp _] _]. unfold shields.
      rewrite (Hnp Hfree), Hrk.
      split_and!; simpl; [done|done|done|].
      split; intros [? _]; done.
    + unfold shields. rewrite Hrk.
      split_and!; simpl; [done|done|by right|].
      split; intros [? _]; done.
    + apply shields_landing; [done|done| |done].
      intros _. apply Hpromo. rewrite Hking. by decide_enum.
    + apply shields_refl.
  - clear Hcan. repeat apply noNewAttack_put;
      try (repeat apply wfBoard_put; done).
    + apply noNewAttack_refl.
    + apply shields_landing; [done|done| |done].
      intros Hp. apply Hpromo. by rewrite Hp.
    + apply shields_refl.
Qed.
End KingSafety.

Section KingSafetyWitness.
(** After white has castled in [castlingReady], its king on g1 is not in
    check. *)
Lemma legal_move_king_safe_witness :
  let g := gameAfter castlingReady in
  let m := mkMove 7 4 7 6 EMPTY false true in
  reachable g
  ∧ getLegalMoves (board g) (enPassantCol g) (currentPlayer g)
    = Some (legalMovesOf g, board g)
  ∧ m ∈ legalMovesOf g
  ∧ isEnPassant m = false
  ∧ isInCheck (board (makeMove g m)) (enPassantCol (makeMove g m))
      (currentPlayer g)
    = Some false.
Proof.
  intros g m.
  assert (reachable g) as Hg
    by exact (gameAfter_reachable castlingReady castlingReady_played).
  assert (getLegalMoves (board g) (enPassantCol g) (currentPlayer g)
          = Some (legalMovesOf g, board g)) as Hlegal
    by (vm_compute; reflexivity).
  assert (m ∈ legalMovesOf g) as Hin
    by (apply (bool_decide_unpack _); vm_compute; exact I).
  assert (isEnPassant m = false) as Hep by reflexivity.
  split; [exact Hg|]. split; [exact Hlegal|]. split; [exact Hin|].
  split; [exact Hep|].
  exact (legal_move_king_safe g _ _ m Hg Hlegal Hin Hep).
Defined.
End KingSafetyWitness.
